(** * Block-wide prefix scan built from warp scans

    Shallow embedding of [rocprim::detail::block_scan_warp_scan<T, BlockSize>]
    (library/rocprim/include/block/detail/block_scan_warp_scan.hpp).

    The class is written from the point of view of one thread.  Here a call is
    modelled for the whole block: every value that a thread keeps in a local
    variable becomes a list indexed by [flat_tid], and the code between two
    [syncthreads()] is run for the threads one after the other, in rank order.
    The shared [storage.warp_prefixes] array is threaded through every call
    as explicit state, together with a trace recording each access to it,
    each barrier and each call of a warp-level primitive, so that statements
    about who touches the array in which phase are statements about the same
    run that produces the values.

    Thread counts and thread ids are [unsigned int] in the source; they are
    bounded by the block size of the device (at most a few thousand), far
    from the point where 32-bit arithmetic wraps, and are modelled in [nat]. *)

From stdpp Require Import base numbers option list strings.
From Stdlib Require Import ZArith Lia.

(** ** Observable events of a block-wide call *)

Inductive event : Type :=
  | ev_warp_scan (flat_tid width : nat)
      (** thread [flat_tid] calls [warp_scan<T, width>().inclusive_scan] *)
  | ev_shuffle_up (flat_tid : nat)
      (** thread [flat_tid] calls [warp_shuffle_up] *)
  | ev_write (flat_tid idx : nat)
      (** thread [flat_tid] assigns [storage.warp_prefixes[idx]] *)
  | ev_read (flat_tid idx : nat)
      (** thread [flat_tid] reads [storage.warp_prefixes[idx]] *)
  | ev_syncthreads.
      (** the whole block passes [::rocprim::syncthreads()] *)

Global Instance event_eq_dec : EqDecision event.
Proof. solve_decision. Defined.

Definition is_write (e : event) : bool :=
  match e with ev_write _ _ => true | _ => false end.
Definition is_read (e : event) : bool :=
  match e with ev_read _ _ => true | _ => false end.
Definition is_access (e : event) : bool := is_write e || is_read e.

(** The trace cut at the barriers: one list of events per phase. *)
Fixpoint phases (tr : list event) : list (list event) :=
  match tr with
  | [] => [[]]
  | ev_syncthreads :: tr' => [] :: phases tr'
  | e :: tr' =>
      match phases tr' with
      | [] => [[e]]
      | p :: ps => (e :: p) :: ps
      end
  end.

(** Accesses to [storage.warp_prefixes] in each phase. *)
Definition scratch_phases (tr : list event) : list (list event) :=
  filter (λ e, is_access e = true) <$> phases tr.

(** Modelled from the spec: [detail::next_power_of_two] (declared in
    detail/various.hpp, outside the header verified here), the next power of
    two greater than or equal to its argument, computed by doubling from 1. *)
Fixpoint next_power_of_two_from (fuel x acc : nat) : nat :=
  match fuel with
  | 0 => acc
  | S fuel' => if decide (x ≤ acc) then acc else next_power_of_two_from fuel' x (2 * acc)
  end.
(** Modelled from the spec: doubling [x] times from 1 always reaches [x]. *)
Definition next_power_of_two (x : nat) : nat := next_power_of_two_from x x 1.

(** Values that the source leaves unspecified. *)
Record unspecified (T : Type) : Type := Unspecified {
  (** contents of the local [T warp_prefix;] of a thread before any assignment *)
  uninit : nat → T;
  (** what [warp_shuffle_up] hands to a thread whose source lane lies before
      the start of its logical warp *)
  shfl_in : nat → T;
}.
Arguments Unspecified {T} _ _.
Arguments uninit {T} _ _.
Arguments shfl_in {T} _ _.

(** The state of a block during a call: the shared array and the trace. *)
Record machine (T : Type) : Type := Machine {
  warp_prefixes : list T;
  trace : list event;
}.
Arguments Machine {T} _ _.
Arguments warp_prefixes {T} _.
Arguments trace {T} _.

(** Block-level computations: state passing, [None] when an index falls
    outside [warp_prefixes] (undefined behaviour in the source). *)
Definition M (T A : Type) : Type := machine T → option (A * machine T).

Global Instance M_ret {T} : MRet (M T) := λ A a m, Some (a, m).
Global Instance M_bind {T} : MBind (M T) := λ A B f c m,
  match c m with
  | Some (a, m') => f a m'
  | None => None
  end.

Definition emit {T} (e : event) : M T unit :=
  λ m, Some ((), Machine (warp_prefixes m) (trace m ++ [e])).

(** [storage.warp_prefixes[idx]] read by thread [flat_tid]. *)
Definition load {T} (flat_tid idx : nat) : M T T :=
  λ m, match warp_prefixes m !! idx with
       | Some v => Some (v, Machine (warp_prefixes m) (trace m ++ [ev_read flat_tid idx]))
       | None => None
       end.

(** [storage.warp_prefixes[idx] = v] executed by thread [flat_tid]. *)
Definition store {T} (flat_tid idx : nat) (v : T) : M T unit :=
  λ m, if decide (idx < length (warp_prefixes m))
       then Some ((), Machine (<[idx := v]> (warp_prefixes m))
                              (trace m ++ [ev_write flat_tid idx]))
       else None.

Definition syncthreads {T} : M T unit := emit ev_syncthreads.

(** Thread-local failure (an array read out of bounds). *)
Definition lift {T A} (o : option A) : M T A :=
  λ m, match o with Some a => Some (a, m) | None => None end.

(** [tile_static storage_type storage;] followed by a call that uses it: the
    call runs on a scratch array of its own, whose initial contents
    [garbage] are whatever the memory held. *)
Definition tile_static {T A} (garbage : list T) (call : M T A) : M T A :=
  λ m, match call (Machine garbage (trace m)) with
       | Some (a, m') => Some (a, Machine (warp_prefixes m) (trace m'))
       | None => None
       end.

(** [returns c m P]: started in [m], the call [c] terminates without touching
    memory out of bounds, and its result and final state satisfy [P]. *)
Definition returns {T A} (c : M T A) (m : machine T)
    (P : A → machine T → Prop) : Prop :=
  ∃ a m', c m = Some (a, m') ∧ P a m'.

(** The discipline on [storage.warp_prefixes]: write, barrier, read then
    write, barrier, read.  Every slot read was written before the preceding
    barrier, two writes of one slot in one phase come from the same thread, and
    so do a read and a write of one slot that share a phase. *)
Definition phase_discipline (tr : list event) : Prop :=
  ∃ w1 r1 w2 r2,
    scratch_phases tr = [w1; r1 ++ w2; r2]
    ∧ Forall (λ e, is_write e = true) w1
    ∧ Forall (λ e, is_read e = true) r1
    ∧ Forall (λ e, is_write e = true) w2
    ∧ Forall (λ e, is_read e = true) r2
    ∧ (∀ t i, ev_read t i ∈ r1 → ∃ t', ev_write t' i ∈ w1)
    ∧ (∀ t i, ev_read t i ∈ r2 → ∃ t', ev_write t' i ∈ w2)
    ∧ (∀ t t' i, ev_write t i ∈ w1 → ev_write t' i ∈ w1 → t = t')
    ∧ (∀ t t' i, ev_write t i ∈ w2 →
         ev_write t' i ∈ w2 ∨ ev_read t' i ∈ r1 → t = t').

Section block_scan_warp_scan.
Context {T : Type}.
(** Template parameter of the class. *)
Variable BlockSize : nat.
(** [warp_size_ = detail::get_min_warp_size(BlockSize, ::rocprim::warp_size())];
    both functions are declared outside the header verified here, so the
    selected warp size is a parameter. *)
Variable warp_size_ : nat.
(** The [BinaryFunction scan_op] handed to every entry point. *)
Variable scan_op : T → T → T.

Definition warps_no_ : nat := (BlockSize + warp_size_ - 1) / warp_size_.

(** Modelled from the spec: [::rocprim::warp_id()] (declared in
    intrinsics.hpp, outside the header verified here): a lane of flat rank
    [r] has subgroup index [r / SubgroupSize]. *)
Definition warp_id (flat_tid : nat) : nat := flat_tid / warp_size_.

(** Modelled from the spec: [::rocprim::lane_id()] (declared in
    intrinsics.hpp as well): a lane of flat rank [r] has rank
    [r mod SubgroupSize] within its subgroup. *)
Definition lane_id (flat_tid : nat) : nat := flat_tid mod warp_size_.

(** *** Left-to-right combination *)

Definition reduce_left (xs : list T) : option T :=
  match xs with
  | [] => None
  | x :: xs' => Some (fold_left scan_op xs' x)
  end.

Definition associative : Prop :=
  ∀ a b c, scan_op (scan_op a b) c = scan_op a (scan_op b c).

(** [output] is the inclusive scan of [input]: position [r] holds the
    combination of the inputs at positions [0..r]. *)
Definition is_inclusive_scan (input output : list T) : Prop :=
  length output = length input
  ∧ ∀ r, r < length input → output !! r = reduce_left (take (S r) input).

(** [output] is the exclusive scan of [input] started from [init]. *)
Definition is_exclusive_scan (init : T) (input output : list T) : Prop :=
  length output = length input
  ∧ output !! 0 = Some init
  ∧ ∀ i, 0 < i < length input →
      ∃ prev x, output !! (i - 1) = Some prev ∧ input !! (i - 1) = Some x
                ∧ output !! i = Some (scan_op prev x).

(** [scan_op] lifted to "nothing combined yet". *)
Definition combine_opt (a b : option T) : option T :=
  match a, b with
  | Some x, Some y => Some (scan_op x y)
  | None, _ => b
  | _, None => a
  end.

(** *** Warp-level primitives *)

(** Modelled from the spec: [warp_scan<T, width>::inclusive_scan]
    (declared in warp/warp_scan.hpp, outside the header verified here).  The
    subgroup
    scan gives every lane the combination, in increasing rank order, of the
    values of the lanes of its own subgroup of [width] lanes up to and
    including itself.  [xs] lists the values of the calling lanes
    [0, 1, ..., length xs - 1]; [lane] is the rank in its subgroup of the
    lane at the head of [xs], [acc] what has been combined in that
    subgroup so far. *)
Fixpoint warp_scan_from (width lane : nat) (acc : option T) (xs : list T) : list T :=
  match xs with
  | [] => []
  | x :: xs' =>
      let v := from_option (λ a, scan_op a x) x acc in
      v :: (if decide (S lane = width)
            then warp_scan_from width 0 None xs'
            else warp_scan_from width (S lane) (Some v) xs')
  end.

(** Modelled from the spec: the subgroup scan over the lanes
    [0, ..., length xs - 1], subgroups starting at the multiples of [width]. *)
Definition warp_scan (width : nat) (xs : list T) : list T :=
  warp_scan_from width 0 None xs.

(** The call [warp_scan<T, width>().inclusive_scan(input, output, scan_op)]
    made by the threads [lanes] (always the threads of rank below some
    bound, so that position in [input] and flat rank agree). *)
Definition warp_scan_inclusive_scan (width : nat) (lanes : list nat)
    (input : list T) : M T (list T) :=
  mapM (λ flat_tid, emit (ev_warp_scan flat_tid width)) lanes ;;
  mret (warp_scan width input).

(** Modelled from the spec: [warp_shuffle_up(v, delta, width)]
    (declared in intrinsics.hpp, outside the header verified here): a shift
    by [delta]
    ranks without wrap-around; a lane within [delta] of the start of its
    subgroup receives an unspecified value. *)
Definition shuffled_up (u : unspecified T) (regs : list T) (delta width : nat)
    : list T :=
  imap (λ flat_tid _,
          if decide (flat_tid mod width < delta) then shfl_in u flat_tid
          else default (shfl_in u flat_tid) (regs !! (flat_tid - delta)))
       regs.

Definition warp_shuffle_up (u : unspecified T) (regs : list T) (delta width : nat)
    : M T (list T) :=
  mapM (λ flat_tid, emit (ev_shuffle_up flat_tid)) (seq 0 (length regs)) ;;
  mret (shuffled_up u regs delta width).

(** The threads of the block paired with the value each holds. *)
Definition lanes_with {A} (regs : list A) : list (nat * A) :=
  zip (seq 0 BlockSize) regs.

(** *** [calculate_warp_prefixes_] *)

(** Lines 336-341, one thread: save the warp reduction result. *)
Definition save_warp_reduction (flat_tid warp_id : nat) (inclusive_input : T)
    : M T unit :=
  if decide (flat_tid = Nat.min ((warp_id + 1) * warp_size_) BlockSize - 1)
  then store flat_tid warp_id inclusive_input
  else mret ().

(** Lines 336-341, all threads. *)
Definition save_warp_reductions (inclusive_input : list T) : M T unit :=
  mapM (λ '(flat_tid, v), save_warp_reduction flat_tid (warp_id flat_tid) v)
       (lanes_with inclusive_input) ;;
  mret ().

(** Lines 344-353, all threads: scan the warp reduction results. *)
Definition scan_warp_reductions : M T unit :=
  let active := filter (λ flat_tid, flat_tid < warps_no_) (seq 0 BlockSize) in
  warp_prefix ← mapM (λ flat_tid, load flat_tid flat_tid) active;
  warp_prefix ← warp_scan_inclusive_scan (next_power_of_two warps_no_)
                  active warp_prefix;
  mapM (λ '(flat_tid, v), store flat_tid flat_tid v) (zip active warp_prefix) ;;
  mret ().

Definition calculate_warp_prefixes_ (inclusive_input : list T) : M T unit :=
  save_warp_reductions inclusive_input ;;
  syncthreads ;;
  scan_warp_reductions ;;
  syncthreads.

(** *** [inclusive_scan_] *)

Definition inclusive_scan_ (input : list T) : M T (list T) :=
  output ← warp_scan_inclusive_scan warp_size_ (seq 0 BlockSize) input;
  calculate_warp_prefixes_ output ;;
  mapM (λ '(flat_tid, output),
          if decide (warp_id flat_tid ≠ 0)
          then warp_prefix ← load flat_tid (warp_id flat_tid - 1);
               mret (scan_op warp_prefix output)
          else mret output)
       (lanes_with output).

(** Lines 295 and 325, all threads:
    [output = lane_id == 0 ? warp_prefix : output]. *)
Definition select_exclusive (warp_prefix output : list T) : list T :=
  imap (λ flat_tid '(warp_prefix, output),
          if decide (lane_id flat_tid = 0) then warp_prefix else output)
       (zip warp_prefix output).

(** *** [exclusive_scan_] with an initial value

    [init] is the seed of the scan of the block: every thread passes the
    same value. *)
Definition exclusive_scan_ (input : list T) (init : T) (u : unspecified T)
    : M T (list T) :=
  output ← warp_scan_inclusive_scan warp_size_ (seq 0 BlockSize) input;
  calculate_warp_prefixes_ output ;;
  st ← mapM (λ '(flat_tid, output),
               warp_prefix ← (if decide (warp_id flat_tid ≠ 0)
                              then v ← load flat_tid (warp_id flat_tid - 1);
                                   mret (scan_op init v)
                              else mret init);
               mret (warp_prefix, scan_op warp_prefix output))
            (lanes_with output);
  output ← warp_shuffle_up u (st.*2) 1 warp_size_;
  mret (select_exclusive (st.*1) output).

(** *** [exclusive_scan_] with unknown initial value *)
Definition exclusive_scan_noinit_ (input : list T) (u : unspecified T)
    : M T (list T) :=
  output ← warp_scan_inclusive_scan warp_size_ (seq 0 BlockSize) input;
  calculate_warp_prefixes_ output ;;
  st ← mapM (λ '(flat_tid, output),
               let warp_prefix := uninit u flat_tid in
               if decide (warp_id flat_tid ≠ 0)
               then warp_prefix ← load flat_tid (warp_id flat_tid - 1);
                    mret (warp_prefix, scan_op warp_prefix output)
               else mret (warp_prefix, output))
            (lanes_with output);
  output ← warp_shuffle_up u (st.*2) 1 warp_size_;
  mret (select_exclusive (st.*1) output).

(** *** Public entry points taking the storage *)

Definition inclusive_scan (input : list T) : M T (list T) :=
  inclusive_scan_ input.

(** [reduction = storage.warp_prefixes[warps_no_ - 1]], every thread. *)
Definition save_reduction : M T (list T) :=
  mapM (λ flat_tid, load flat_tid (warps_no_ - 1)) (seq 0 BlockSize).

Definition inclusive_scan_reduction (input : list T) : M T (list T * list T) :=
  output ← inclusive_scan input;
  reduction ← save_reduction;
  mret (output, reduction).

(** Thread-local part of the [ItemsPerThread] overload, lines 128-134. *)
Definition reduce_thread_items (input : list T) : option T :=
  thread_input ← input !! 0;
  Some (fold_left scan_op (drop 1 input) thread_input).

(** The loop of lines 149-152: [output[i] = scan_op(output[i-1], input[i])]. *)
Fixpoint scan_thread_items (prev : T) (input : list T) : list T :=
  match input with
  | [] => []
  | x :: input' => let o := scan_op prev x in o :: scan_thread_items o input'
  end.

(** Thread-local part of the [ItemsPerThread] overload, lines 145-152. *)
Definition include_prefix (flat_tid : nat) (thread_input : T) (input : list T)
    : option (list T) :=
  x ← input !! 0;
  let o := if decide (flat_tid = 0) then x else scan_op thread_input x in
  Some (o :: scan_thread_items o (drop 1 input)).

Definition inclusive_scan_items (input : list (list T)) (u : unspecified T)
    : M T (list (list T)) :=
  thread_input ← lift (mapM reduce_thread_items input);
  thread_input ← exclusive_scan_noinit_ thread_input u;
  lift (mapM (λ '(flat_tid, (p, items)), include_prefix flat_tid p items)
             (lanes_with (zip thread_input input))).

Definition inclusive_scan_items_reduction (input : list (list T))
    (u : unspecified T) : M T (list (list T) * list T) :=
  output ← inclusive_scan_items input u;
  reduction ← save_reduction;
  mret (output, reduction).

Definition exclusive_scan (input : list T) (init : T) (u : unspecified T)
    : M T (list T) :=
  exclusive_scan_ input init u.

Definition exclusive_scan_reduction (input : list T) (init : T)
    (u : unspecified T) : M T (list T * list T) :=
  output ← exclusive_scan input init u;
  reduction ← save_reduction;
  mret (output, reduction).

(** *** Entry points declaring their own [tile_static storage_type storage] *)

Definition inclusive_scan_tile_static (garbage input : list T) : M T (list T) :=
  tile_static garbage (inclusive_scan input).

Definition inclusive_scan_reduction_tile_static (garbage input : list T)
    : M T (list T * list T) :=
  tile_static garbage (inclusive_scan_reduction input).

Definition inclusive_scan_items_tile_static (garbage : list T)
    (input : list (list T)) (u : unspecified T) : M T (list (list T)) :=
  tile_static garbage (inclusive_scan_items input u).

Definition inclusive_scan_items_reduction_tile_static (garbage : list T)
    (input : list (list T)) (u : unspecified T) : M T (list (list T) * list T) :=
  tile_static garbage (inclusive_scan_items_reduction input u).

Definition exclusive_scan_tile_static (garbage input : list T) (init : T)
    (u : unspecified T) : M T (list T) :=
  tile_static garbage (exclusive_scan input init u).

Definition exclusive_scan_reduction_tile_static (garbage input : list T)
    (init : T) (u : unspecified T) : M T (list T * list T) :=
  tile_static garbage (exclusive_scan_reduction input init u).

(** *** Shapes of results *)

(** A call that runs [calculate_warp_prefixes_] once on the storage it is
    given: it appends [ctr] to the trace, keeps the size of the array, leaves
    [total] in its last slot and returns a result satisfying [P]. *)
Definition scan_run {A} (c : M T A) (s : list T) (tr ctr : list event)
    (total : option T) (P : A → Prop) : Prop :=
  returns c (Machine s tr) (λ a m',
    trace m' = tr ++ ctr
    ∧ length (warp_prefixes m') = warps_no_
    ∧ warp_prefixes m' !! (warps_no_ - 1) = total
    ∧ P a).

(** [reduction] is what the overloads with a [reduction] parameter give to
    every thread for the block input [input]: the combination of all of
    [input], which is the last element of any inclusive scan of [input]. *)
Definition is_reduction (input reduction : list T) : Prop :=
  length reduction = BlockSize
  ∧ ∀ flat_tid, flat_tid < BlockSize →
      reduction !! flat_tid = reduce_left input
      ∧ ∀ inclusive, is_inclusive_scan input inclusive →
          reduction !! flat_tid = last inclusive.

(** Every thread's [reduction] is what slot [warps_no_ - 1] of the array
    holds in state [m]. *)
Definition reads_last_slot (reduction : list T) (m : machine T) : Prop :=
  ∀ flat_tid, flat_tid < BlockSize →
    reduction !! flat_tid = warp_prefixes m !! (warps_no_ - 1).

(** The threads whose rank lies between the number of warps and the width
    of the scan over the warp reductions take part in that scan. *)
Definition padding_lanes_participate (tr : list event) : Prop :=
  ∀ flat_tid,
    warps_no_ ≤ flat_tid < next_power_of_two warps_no_ → flat_tid < BlockSize →
    ev_warp_scan flat_tid (next_power_of_two warps_no_) ∈ tr.

(** Started from two states, a call returns the same result. *)
Definition same_result {A} (c : M T A) (m1 m2 : machine T) : Prop :=
  ∃ a, returns c m1 (λ a' m',
           a' = a ∧ length (warp_prefixes m') = length (warp_prefixes m1))
       ∧ returns c m2 (λ a' _, a' = a).

(** The result of a call does not depend on what the array holds when the
    call starts. *)
Definition scratch_independent {A} (c : M T A) : Prop :=
  ∀ m1 m2,
    length (warp_prefixes m1) = warps_no_ →
    length (warp_prefixes m2) = warps_no_ →
    same_result c m1 m2.

(** What the multi-item scan hands to every thread. *)
Definition items_scanned (input output : list (list T)) : Prop :=
  length output = length input
  ∧ ∀ t items, input !! t = Some items →
      ∃ o, output !! t = Some o
           ∧ length o = length items
           ∧ ∀ i, i < length items →
               o !! i = reduce_left (concat (take t input) ++ take (S i) items).

(** What the exclusive scan with unknown initial value hands out. *)
Definition is_exclusive_scan_noinit (u : unspecified T) (input output : list T)
    : Prop :=
  length output = length input
  ∧ output !! 0 = Some (uninit u 0)
  ∧ ∀ r, 0 < r < length input → output !! r = reduce_left (take r input).

(** What may follow the second barrier: reads of slots that exist. *)
Definition tail_ok (rest : list event) : Prop :=
  (ev_syncthreads ∉ rest)
  ∧ (∀ e, e ∈ rest → is_access e = true →
       ∃ t i, e = ev_read t i ∧ i < warps_no_).

(** *** Closed forms used to describe a call *)

(** The thread that passes the test of line 338 for warp [w]. *)
Definition last_lane (w : nat) : nat :=
  Nat.min ((w + 1) * warp_size_) BlockSize - 1.

(** Effect on the array of lines 338-341 run by one thread. *)
Definition save_step (s : list T) (x : nat * T) : list T :=
  if decide (x.1 = last_lane (warp_id x.1)) then <[warp_id x.1 := x.2]> s else s.

(** The array at the first and at the second barrier. *)
Definition saved_reductions (s local : list T) : list T :=
  foldl save_step s (lanes_with local).
Definition scanned_reductions (s local : list T) : list T :=
  warp_scan (next_power_of_two warps_no_) (saved_reductions s local).

(** The events of [calculate_warp_prefixes_]. *)
Definition save_events (flat_tid : nat) : list event :=
  if decide (flat_tid = last_lane (warp_id flat_tid))
  then [ev_write flat_tid (warp_id flat_tid)] else [].
Definition trace_save : list event := seq 0 BlockSize ≫= save_events.
Definition trace_scan : list event :=
  ((λ t, ev_read t t) <$> seq 0 warps_no_)
  ++ ((λ t, ev_warp_scan t (next_power_of_two warps_no_)) <$> seq 0 warps_no_)
  ++ ((λ t, ev_write t t) <$> seq 0 warps_no_).
Definition trace_calculate : list event :=
  trace_save ++ ev_syncthreads :: trace_scan ++ [ev_syncthreads].

(** The events of the first warp scan and of the final use of the prefixes. *)
Definition trace_warp_scan : list event :=
  (λ t, ev_warp_scan t warp_size_) <$> seq 0 BlockSize.
Definition prefix_events (flat_tid : nat) : list event :=
  if decide (warp_id flat_tid ≠ 0)
  then [ev_read flat_tid (warp_id flat_tid - 1)] else [].
Definition trace_prefix : list event := seq 0 BlockSize ≫= prefix_events.
Definition trace_shuffle : list event := ev_shuffle_up <$> seq 0 BlockSize.
Definition trace_reduction : list event :=
  (λ t, ev_read t (warps_no_ - 1)) <$> seq 0 BlockSize.
Definition trace_inclusive_scan : list event :=
  trace_warp_scan ++ trace_calculate ++ trace_prefix.
Definition trace_exclusive_scan : list event :=
  trace_inclusive_scan ++ trace_shuffle.

End block_scan_warp_scan.

(** ** Two calls on one storage

    [first ;; second] runs every thread through the whole of [first] before
    any thread enters [second]; on the device this takes a barrier between
    the two calls, and the source has none, neither at the end of a scan nor
    at its start.  Without it, the code between the last barrier of one
    [inclusive_scan_] and the first barrier of the next is one stretch: a
    thread reads its warp prefix (lines 257-261 of the first call), takes
    part in the warp scan of the second call and saves the warp reduction
    (lines 336-341 of the second call).  As everywhere, the code between two
    barriers is run for the threads one after the other, in rank order.  The
    warp scan of the second call works on registers only; its events are
    recorded ahead of the stretch. *)
Section two_calls.
Context {T : Type}.
Variable BlockSize : nat.
Variable warp_size_ : nat.
Variable scan_op : T → T → T.

(** Two calls with [syncthreads()] between them. *)
Definition separated_by_barrier {A A'} (first : M T A') (second : M T A)
    : M T (A' * A) :=
  a' ← first;
  syncthreads ;;
  a ← second;
  mret (a', a).

(** [inclusive_scan_(input)] followed at once by [inclusive_scan_(input')]
    on the same storage. *)
Definition inclusive_scan_back_to_back (input input' : list T)
    : M T (list T * list T) :=
  output ← warp_scan_inclusive_scan scan_op warp_size_ (seq 0 BlockSize) input;
  calculate_warp_prefixes_ BlockSize warp_size_ scan_op output ;;
  output' ← warp_scan_inclusive_scan scan_op warp_size_ (seq 0 BlockSize) input';
  output ← mapM (λ '(flat_tid, (output, output')),
                   output ← (if decide (warp_id warp_size_ flat_tid ≠ 0)
                             then warp_prefix ←
                                    load flat_tid (warp_id warp_size_ flat_tid - 1);
                                  mret (scan_op warp_prefix output)
                             else mret output);
                   save_warp_reduction BlockSize warp_size_ flat_tid
                     (warp_id warp_size_ flat_tid) output' ;;
                   mret output)
                (lanes_with BlockSize (zip output output'));
  syncthreads ;;
  scan_warp_reductions BlockSize warp_size_ scan_op ;;
  syncthreads ;;
  output' ← mapM (λ '(flat_tid, output'),
                    if decide (warp_id warp_size_ flat_tid ≠ 0)
                    then warp_prefix ←
                           load flat_tid (warp_id warp_size_ flat_tid - 1);
                         mret (scan_op warp_prefix output')
                    else mret output')
                 (lanes_with BlockSize output');
  mret (output, output').

(** [both], a run of two calls on the storage of [m], behaves as if the
    scratch were freshly allocated for each call: each call returns what it
    returns when run alone on the storage of [fresh]. *)
Definition behave_as_fresh {A A'} (both : M T (A' * A))
    (first : M T A') (second : M T A) (m fresh : machine T) : Prop :=
  ∃ r' r,
    returns both m (λ a _, a = (r', r))
    ∧ returns first fresh (λ a _, a = r')
    ∧ returns second fresh (λ a _, a = r).

End two_calls.

(** ** Concrete blocks used to exercise the statements *)

Definition example_unspecified : unspecified Z :=
  Unspecified (λ _, 777%Z) (λ _, 999%Z).

(** A block of 70 threads with warps of 32: warps of 32, 32 and 6 threads. *)
Definition example_input_70 : list Z := Z.of_nat <$> seq 1 70.

(** Four threads holding two items each. *)
Definition example_items : list (list Z) := [[1; 2]; [3; 4]; [5; 6]; [7; 8]]%Z.

(** * Host side of the device-wide histogram

    Shallow embedding of the host functions of
    rocprim/include/rocprim/device/device_histogram_hc.hpp:
    [detail::histogram_impl], [detail::histogram_even_impl],
    [detail::histogram_range_impl] and the public entry points built on them.

    A call validates its arguments, answers a query for the size of the
    temporary storage, or launches two kernels.  The state of a call is the
    caller's [storage_size] variable (passed by reference) and the list of
    kernel launches issued so far; a launch records the [hc::tiled_extent]
    and the kernel call of the launched lambda with the values it captures.
    The kernels themselves ([init_histogram], [histogram_shared],
    [histogram_global]), [fixed_array] and the bin functors live in headers
    outside this file: a [fixed_array] is represented by the values it is
    constructed from and a functor by the arguments of its constructor.

    The blocks under [debug_synchronous] only print and wait for the
    accelerator; they touch neither [storage_size] nor the launches and are
    left out, and with them the [acc_view] and [debug_synchronous]
    arguments.

    Arrays passed by pointer are lists, and reading past the end of one is
    undefined behaviour.  [temporary_storage] is [None] for [nullptr] and
    [Some] address otherwise.  Arguments of type [unsigned int] and [size_t]
    are integers, meant to lie in the range of their type; every result of
    [unsigned int] arithmetic is reduced modulo [2^32]. *)

(** [unsigned int] and [size_t] arithmetic: results are reduced modulo
    [2^32] and [2^64]. *)
Definition uint (x : Z) : Z := (x mod 2 ^ 32)%Z.
Definition size_t (x : Z) : Z := (x mod 2 ^ 64)%Z.

(** [hc::tiled_extent<N>(extents..., tiles...[, dynamic_group_segment_size])]. *)
Record tiled_extent : Type := TiledExtent {
  extent : list Z;
  tile : list Z;
  dynamic_group_segment_size : Z;
}.

(** The kernel call in the body of a launched lambda: template arguments,
    then the arguments of the call.  [block_histogram], the base pointer of
    the dynamic group segment, is fixed by the launch and not recorded. *)
Inductive kernel_call (SampleIterator CounterPtr SampleToBinOp : Type) : Type :=
  | init_histogram (block_size ActiveChannels : Z)
      (histogram_fixed : list CounterPtr) (bins_fixed : list Z)
  | histogram_shared (block_size items_per_thread Channels ActiveChannels : Z)
      (samples : SampleIterator) (columns rows row_stride : Z)
      (histogram_fixed : list CounterPtr)
      (sample_to_bin_op_fixed : list SampleToBinOp) (bins_fixed : list Z)
  | histogram_global (block_size items_per_thread Channels ActiveChannels : Z)
      (samples : SampleIterator) (columns row_stride : Z)
      (histogram_fixed : list CounterPtr)
      (sample_to_bin_op_fixed : list SampleToBinOp) (bins_bits_fixed : list Z).
Arguments init_histogram {_ _ _} _ _ _ _.
Arguments histogram_shared {_ _ _} _ _ _ _ _ _ _ _ _ _ _.
Arguments histogram_global {_ _ _} _ _ _ _ _ _ _ _ _ _.

Definition is_histogram_shared {I C O} (k : kernel_call I C O) : bool :=
  match k with histogram_shared _ _ _ _ _ _ _ _ _ _ _ => true | _ => false end.
Definition is_histogram_global {I C O} (k : kernel_call I C O) : bool :=
  match k with histogram_global _ _ _ _ _ _ _ _ _ _ => true | _ => false end.

(** [hc::parallel_for_each(acc_view, grid, body)]. *)
Record launch (K : Type) : Type := Launch {
  grid : tiled_extent;
  body : K;
}.
Arguments Launch {K} _ _.
Arguments grid {K} _.
Arguments body {K} _.

Record host (K : Type) : Type := Host {
  storage_size : Z;
  launched : list (launch K);
}.
Arguments Host {K} _ _.
Arguments storage_size {K} _.
Arguments launched {K} _.

(** How a host call ends: it returns, it throws
    [hc::runtime_exception(what, 0)], or its behaviour is undefined (an
    array read out of bounds, an integer division by zero). *)
Inductive outcome (S A : Type) : Type :=
  | returned (a : A) (s : S)
  | threw (what : string) (s : S)
  | undefined.
Arguments returned {S A} _ _.
Arguments threw {S A} _ _.
Arguments undefined {S A}.

Definition hostM (S A : Type) : Type := S → outcome S A.

Global Instance hostM_ret {S} : MRet (hostM S) := λ A a s, returned a s.
Global Instance hostM_bind {S} : MBind (hostM S) := λ A B f c s,
  match c s with
  | returned a s' => f a s'
  | threw what s' => threw what s'
  | undefined => undefined
  end.

Definition throw {S A} (what : string) : hostM S A := λ s, threw what s.

(** [array[i]] *)
Definition read {S A} (array : list A) (i : nat) : hostM S A :=
  λ s, match array !! i with
       | Some a => returned a s
       | None => undefined
       end.

(** [a / b] on unsigned integers *)
Definition unsigned_div {S} (a b : Z) : hostM S Z :=
  λ s, if decide (b = 0%Z) then undefined else returned (a / b)%Z s.

Definition set_storage_size {K} (size : Z) : hostM (host K) unit :=
  λ s, returned () (Host size (launched s)).

Definition parallel_for_each {K} (grid : tiled_extent) (body : K) :
    hostM (host K) unit :=
  λ s, returned () (Host (storage_size s) (launched s ++ [Launch grid body])).

(** [for(unsigned int channel = 0; channel < ActiveChannels; channel++)]
    over a body that carries the locals [acc] from one round to the next. *)
Fixpoint for_channels {S A} (channels : list nat) (body : A → nat → hostM S A)
    (acc : A) : hostM S A :=
  match channels with
  | [] => mret acc
  | channel :: rest => acc' ← body acc channel; for_channels rest body acc'
  end.

(** The locals filled by the second loop of [histogram_impl]. *)
Record bin_counts : Type := BinCounts {
  bins : list Z;
  bins_bits : list Z;
  total_bins : Z;
  max_bins : Z;
}.

Definition block_size : Z := 256.
Definition items_per_thread : Z := 8.
Definition max_grid_size : Z := 1024.
Definition shared_impl_max_bins : Z := 1024.
Definition items_per_block : Z := uint (block_size * items_per_thread).
(** [sizeof(unsigned int)] *)
Definition sizeof_unsigned_int : Z := 4.

Definition levels_message : string := "`levels` must be at least 2".
Definition row_stride_message : string :=
  "Row stride must be a whole multiple of the sample data type size".

(** [sample_to_bin_even<Level>(bins, lower_level, upper_level)] *)
Record sample_to_bin_even (Level : Type) : Type := Sample_to_bin_even {
  even_bins : Z;
  even_lower_level : Level;
  even_upper_level : Level;
}.
Arguments Sample_to_bin_even {Level} _ _ _.
Arguments even_bins {Level} _.
Arguments even_lower_level {Level} _.
Arguments even_upper_level {Level} _.

(** [sample_to_bin_range<Level>(bins, level_values)] *)
Record sample_to_bin_range (LevelPtr : Type) : Type := Sample_to_bin_range {
  range_bins : Z;
  range_level_values : LevelPtr;
}.
Arguments Sample_to_bin_range {LevelPtr} _ _.
Arguments range_bins {LevelPtr} _.
Arguments range_level_values {LevelPtr} _.

(** Closed forms of what the second loop of [histogram_impl] computes. *)
Definition channel_bins (levels : list Z) : list Z :=
  (λ l, uint (l - 1)) <$> levels.
Definition sum_bins (bins : list Z) : Z := foldr Z.add 0%Z bins.
Definition largest_bins (bins : list Z) : Z := foldr Z.max 0%Z bins.

(** The kernel arguments named in the statements below. *)
Definition kernel_bins {I C O} (k : kernel_call I C O) : list Z :=
  match k with
  | init_histogram _ _ _ bins_fixed => bins_fixed
  | histogram_shared _ _ _ _ _ _ _ _ _ _ bins_fixed => bins_fixed
  | histogram_global _ _ _ _ _ _ _ _ _ _ => []
  end.
Definition kernel_sample_to_bin_op {I C O} (k : kernel_call I C O) : list O :=
  match k with
  | init_histogram _ _ _ _ => []
  | histogram_shared _ _ _ _ _ _ _ _ _ sample_to_bin_op_fixed _ =>
      sample_to_bin_op_fixed
  | histogram_global _ _ _ _ _ _ _ _ sample_to_bin_op_fixed _ =>
      sample_to_bin_op_fixed
  end.

Definition never_throws {S A} (c : hostM S A) : Prop :=
  ∀ s what s', c s ≠ threw what s'.

(** Every extent of a grid is a whole number of tiles. *)
Definition whole_tiles (g : tiled_extent) : Prop :=
  Forall2 (λ e t, t ≠ 0 ∧ e `mod` t = 0)%Z (extent g) (tile g).

Section device_histogram.
Context {SampleIterator CounterPtr : Type}.
(** [::rocprim::detail::ceiling_div] on [unsigned int], defined in a header
    outside this file. *)
Variable ceiling_div : Z → Z → Z.
(** [sizeof(sample_type)] *)
Variable sizeof_sample_type : Z.

Local Open Scope Z_scope.

(** First loop of [histogram_impl]: a histogram must have at least 1 bin. *)
Definition check_levels {S} (levels : list Z) (_ : unit) (channel : nat) :
    hostM S unit :=
  l ← read levels channel;
  if decide (l < 2) then throw levels_message else mret ().

(** [static_cast<unsigned int>(std::log2(detail::next_power_of_two(bins)))];
    the logarithm of a power of two is exact in [double].  The power of two
    fits [unsigned int] for [bins] up to [2^31]. *)
Definition log2_next_power_of_two (bins : Z) : Z :=
  uint (Z.log2 (Z.of_nat (next_power_of_two (Z.to_nat bins)))).

(** Second loop of [histogram_impl].  The local arrays [bins] and
    [bins_bits] are filled from index 0 upwards, one element per round. *)
Definition count_bins {S} (levels : list Z) (acc : bin_counts) (channel : nat) :
    hostM S bin_counts :=
  l ← read levels channel;
  let bins_channel := uint (l - 1) in
  mret (BinCounts (bins acc ++ [bins_channel])
          (bins_bits acc ++ [log2_next_power_of_two bins_channel])
          (uint (total_bins acc + bins_channel))
          (Z.max (max_bins acc) bins_channel)).

(** [std::min(i, ActiveChannels - 1)] on [unsigned int]. *)
Definition captured_channel (ActiveChannels : nat) (i : Z) : nat :=
  Z.to_nat (Z.min i (uint (Z.of_nat ActiveChannels - 1))).

Definition histogram_impl {SampleToBinOp : Type} (Channels ActiveChannels : nat)
    (temporary_storage : option Z) (samples : SampleIterator)
    (columns rows row_stride_bytes : Z)
    (histogram : list CounterPtr) (levels : list Z)
    (sample_to_bin_op : list SampleToBinOp) :
    hostM (host (kernel_call SampleIterator CounterPtr SampleToBinOp)) unit :=
  for_channels (seq 0 ActiveChannels) (check_levels levels) () ;;
  if decide (row_stride_bytes `mod` sizeof_sample_type ≠ 0)
  then throw row_stride_message
  else
    let blocks_x := uint (ceiling_div columns items_per_block) in
    let row_stride := uint (row_stride_bytes / sizeof_sample_type) in
    match temporary_storage with
    | None => set_storage_size 4
    | Some _ =>
        counts ← for_channels (seq 0 ActiveChannels) (count_bins levels)
                   (BinCounts [] [] 0 0);
        let histogram_fixed := histogram in
        let bins_fixed := bins counts in
        let bins_bits_fixed := bins_bits counts in
        sample_to_bin_op0 ← read sample_to_bin_op (captured_channel ActiveChannels 0);
        sample_to_bin_op1 ← read sample_to_bin_op (captured_channel ActiveChannels 1);
        sample_to_bin_op2 ← read sample_to_bin_op (captured_channel ActiveChannels 2);
        sample_to_bin_op3 ← read sample_to_bin_op (captured_channel ActiveChannels 3);
        let sample_to_bin_op_fixed :=
          [sample_to_bin_op0; sample_to_bin_op1;
           sample_to_bin_op2; sample_to_bin_op3] in
        parallel_for_each
          (TiledExtent
             [uint (ceiling_div (max_bins counts) block_size * block_size)]
             [block_size] 0)
          (init_histogram block_size (Z.of_nat ActiveChannels)
             histogram_fixed bins_fixed) ;;
        if decide (total_bins counts ≤ shared_impl_max_bins)
        then
          let grid_size_x := Z.min max_grid_size blocks_x in
          quotient ← unsigned_div max_grid_size grid_size_x;
          let grid_size_y := Z.min rows quotient in
          let block_histogram_bytes :=
            size_t (total_bins counts * sizeof_unsigned_int) in
          parallel_for_each
            (TiledExtent [grid_size_y; uint (grid_size_x * block_size)]
               [1; block_size] block_histogram_bytes)
            (histogram_shared block_size items_per_thread
               (Z.of_nat Channels) (Z.of_nat ActiveChannels)
               samples columns rows row_stride
               histogram_fixed sample_to_bin_op_fixed bins_fixed)
        else
          parallel_for_each
            (TiledExtent [rows; uint (blocks_x * block_size)]
               [1; block_size] 0)
            (histogram_global block_size items_per_thread
               (Z.of_nat Channels) (Z.of_nat ActiveChannels)
               samples columns row_stride
               histogram_fixed sample_to_bin_op_fixed bins_bits_fixed)
    end.

(** The loop of [histogram_even_impl]: the functor array is filled from
    index 0 upwards, one element per round. *)
Definition make_sample_to_bin_even {S Level} (levels : list Z)
    (lower_level upper_level : list Level)
    (sample_to_bin_op : list (sample_to_bin_even Level)) (channel : nat) :
    hostM S (list (sample_to_bin_even Level)) :=
  l ← read levels channel;
  lower ← read lower_level channel;
  upper ← read upper_level channel;
  mret (sample_to_bin_op ++ [Sample_to_bin_even (uint (l - 1)) lower upper]).

Definition histogram_even_impl {Level : Type} (Channels ActiveChannels : nat)
    (temporary_storage : option Z) (samples : SampleIterator)
    (columns rows row_stride_bytes : Z)
    (histogram : list CounterPtr) (levels : list Z)
    (lower_level upper_level : list Level) :
    hostM (host (kernel_call SampleIterator CounterPtr (sample_to_bin_even Level)))
      unit :=
  sample_to_bin_op ← for_channels (seq 0 ActiveChannels)
                       (make_sample_to_bin_even levels lower_level upper_level) [];
  histogram_impl Channels ActiveChannels temporary_storage samples
    columns rows row_stride_bytes histogram levels sample_to_bin_op.

(** The loop of [histogram_range_impl]. *)
Definition make_sample_to_bin_range {S LevelPtr} (levels : list Z)
    (level_values : list LevelPtr)
    (sample_to_bin_op : list (sample_to_bin_range LevelPtr)) (channel : nat) :
    hostM S (list (sample_to_bin_range LevelPtr)) :=
  l ← read levels channel;
  values ← read level_values channel;
  mret (sample_to_bin_op ++ [Sample_to_bin_range (uint (l - 1)) values]).

Definition histogram_range_impl {LevelPtr : Type} (Channels ActiveChannels : nat)
    (temporary_storage : option Z) (samples : SampleIterator)
    (columns rows row_stride_bytes : Z)
    (histogram : list CounterPtr) (levels : list Z)
    (level_values : list LevelPtr) :
    hostM (host (kernel_call SampleIterator CounterPtr (sample_to_bin_range LevelPtr)))
      unit :=
  sample_to_bin_op ← for_channels (seq 0 ActiveChannels)
                       (make_sample_to_bin_range levels level_values) [];
  histogram_impl Channels ActiveChannels temporary_storage samples
    columns rows row_stride_bytes histogram levels sample_to_bin_op.

(** ** Public entry points.  The overloads taking [columns], [rows] and
    [row_stride_bytes] carry the suffix [_2d]. *)

Definition histogram_even {Level : Type}
    (temporary_storage : option Z) (samples : SampleIterator) (size : Z)
    (histogram : CounterPtr) (levels : Z) (lower_level upper_level : Level) :=
  histogram_even_impl 1 1 temporary_storage samples size 1 0
    [histogram] [levels] [lower_level] [upper_level].

Definition histogram_even_2d {Level : Type}
    (temporary_storage : option Z) (samples : SampleIterator)
    (columns rows row_stride_bytes : Z)
    (histogram : CounterPtr) (levels : Z) (lower_level upper_level : Level) :=
  histogram_even_impl 1 1 temporary_storage samples columns rows row_stride_bytes
    [histogram] [levels] [lower_level] [upper_level].

Definition multi_histogram_even {Level : Type} (Channels ActiveChannels : nat)
    (temporary_storage : option Z) (samples : SampleIterator) (size : Z)
    (histogram : list CounterPtr) (levels : list Z)
    (lower_level upper_level : list Level) :=
  histogram_even_impl Channels ActiveChannels temporary_storage samples size 1 0
    histogram levels lower_level upper_level.

Definition multi_histogram_even_2d {Level : Type} (Channels ActiveChannels : nat)
    (temporary_storage : option Z) (samples : SampleIterator)
    (columns rows row_stride_bytes : Z)
    (histogram : list CounterPtr) (levels : list Z)
    (lower_level upper_level : list Level) :=
  histogram_even_impl Channels ActiveChannels temporary_storage samples
    columns rows row_stride_bytes histogram levels lower_level upper_level.

Definition histogram_range {LevelPtr : Type}
    (temporary_storage : option Z) (samples : SampleIterator) (size : Z)
    (histogram : CounterPtr) (levels : Z) (level_values : LevelPtr) :=
  histogram_range_impl 1 1 temporary_storage samples size 1 0
    [histogram] [levels] [level_values].

Definition histogram_range_2d {LevelPtr : Type}
    (temporary_storage : option Z) (samples : SampleIterator)
    (columns rows row_stride_bytes : Z)
    (histogram : CounterPtr) (levels : Z) (level_values : LevelPtr) :=
  histogram_range_impl 1 1 temporary_storage samples columns rows row_stride_bytes
    [histogram] [levels] [level_values].

Definition multi_histogram_range {LevelPtr : Type} (Channels ActiveChannels : nat)
    (temporary_storage : option Z) (samples : SampleIterator) (size : Z)
    (histogram : list CounterPtr) (levels : list Z)
    (level_values : list LevelPtr) :=
  histogram_range_impl Channels ActiveChannels temporary_storage samples size 1 0
    histogram levels level_values.

Definition multi_histogram_range_2d {LevelPtr : Type} (Channels ActiveChannels : nat)
    (temporary_storage : option Z) (samples : SampleIterator)
    (columns rows row_stride_bytes : Z)
    (histogram : list CounterPtr) (levels : list Z)
    (level_values : list LevelPtr) :=
  histogram_range_impl Channels ActiveChannels temporary_storage samples
    columns rows row_stride_bytes histogram levels level_values.

End device_histogram.

(** A [ceiling_div] to run the host code with: [(a + b - 1) / b] on
    [unsigned int]. *)
Definition example_ceiling_div (a b : Z) : Z := uint (uint (a + b - 1) / b).

(** A call state to run the host code from: a size left over from an
    earlier query and no launch so far. *)
Definition example_host {K} : host K := Host 123 [].

(** * Properties *)

(** ** The state monad *)

Lemma M_bind_exec {T A B} (c : M T A) (f : A → M T B) m a m' :
  c m = Some (a, m') → (c ≫= f) m = f a m'.
Proof. intros H. unfold mbind, M_bind. by rewrite H. Qed.

Lemma load_exec {T} flat_tid idx (s : list T) tr v :
  s !! idx = Some v →
  load flat_tid idx (Machine s tr) = Some (v, Machine s (tr ++ [ev_read flat_tid idx])).
Proof. intros H. unfold load. cbn. by rewrite H. Qed.

Lemma mapM_cons_exec {T A B} (f : A → M T B) x xs m y m' ys m'' :
  f x m = Some (y, m') → mapM f xs m' = Some (ys, m'') →
  mapM f (x :: xs) m = Some (y :: ys, m'').
Proof.
  intros Hx Hxs. cbn [mapM]. erewrite M_bind_exec by exact Hx.
  by erewrite M_bind_exec by exact Hxs.
Qed.

(** A loop whose body leaves the shared array alone. *)
Lemma mapM_readonly {T A B} (f : A → M T B) (g : A → B) (evs : A → list event)
    (s : list T) (xs : list A) :
  (∀ x tr, x ∈ xs → f x (Machine s tr) = Some (g x, Machine s (tr ++ evs x))) →
  ∀ tr, mapM f xs (Machine s tr) = Some (g <$> xs, Machine s (tr ++ (xs ≫= evs))).
Proof.
  induction xs as [|x xs IH]; intros Hf tr.
  - cbn. by rewrite app_nil_r.
  - eapply mapM_cons_exec.
    + apply Hf. left.
    + rewrite IH by (intros; apply Hf; by right).
      by rewrite <- app_assoc.
Qed.

(** A loop whose body updates the shared array. *)
Lemma mapM_update {T A} (f : A → M T unit) (upd : list T → A → list T)
    (evs : A → list event) (Inv : list T → Prop) (xs : list A) :
  (∀ x s tr, x ∈ xs → Inv s →
     f x (Machine s tr) = Some ((), Machine (upd s x) (tr ++ evs x)) ∧ Inv (upd s x)) →
  ∀ s tr, Inv s →
    ∃ ys, mapM f xs (Machine s tr)
          = Some (ys, Machine (foldl upd s xs) (tr ++ (xs ≫= evs))).
Proof.
  induction xs as [|x xs IH]; intros Hf s tr Hs.
  - exists []. cbn. by rewrite app_nil_r.
  - destruct (Hf x s tr) as [Hx Hs']; [left | done |].
    destruct (IH (λ y s tr Hy, Hf y s tr (list_elem_of_further _ _ _ Hy))
                 (upd s x) (tr ++ evs x) Hs') as [ys Hys].
    exists (() :: ys). eapply mapM_cons_exec; [exact Hx |].
    rewrite Hys. cbn. by rewrite <- app_assoc.
Qed.

Lemma mapM_emit {T A} (e : A → event) (xs : list A) (s : list T) tr :
  ∃ ys, mapM (λ x, emit (e x)) xs (Machine s tr)
        = Some (ys, Machine s (tr ++ (e <$> xs))).
Proof.
  revert tr. induction xs as [|x xs IH]; intros tr.
  - exists []. cbn. by rewrite app_nil_r.
  - destruct (IH (tr ++ [e x])) as [ys Hys]. exists (() :: ys).
    eapply mapM_cons_exec; [reflexivity |]. cbn in *.
    rewrite Hys. by rewrite <- app_assoc.
Qed.

(** ** Left-to-right combination under an associative operator *)

Section combination.
Context {T : Type}.
Variable scan_op : T → T → T.
Hypothesis scan_op_assoc : ∀ a b c, scan_op (scan_op a b) c = scan_op a (scan_op b c).

Local Abbreviation reduce := (reduce_left scan_op).
Local Abbreviation combine := (combine_opt scan_op).

Lemma fold_left_scan_op xs a y :
  fold_left scan_op xs (scan_op a y) = scan_op a (fold_left scan_op xs y).
Proof.
  revert y. induction xs as [|x xs IH]; intros y; [done |].
  cbn. by rewrite scan_op_assoc, IH.
Qed.

Lemma reduce_left_app xs ys :
  reduce (xs ++ ys) = combine (reduce xs) (reduce ys).
Proof.
  destruct xs as [|x xs]; [done |].
  destruct ys as [|y ys]; [by rewrite app_nil_r |].
  cbn. f_equal. rewrite fold_left_app. cbn. apply fold_left_scan_op.
Qed.

Lemma combine_opt_assoc a b c :
  combine (combine a b) c = combine a (combine b c).
Proof. destruct a, b, c; cbn; by rewrite ?scan_op_assoc. Qed.

Lemma reduce_left_split k m (l : list T) :
  k ≤ m →
  reduce (take m l)
  = combine (reduce (take k l)) (reduce (drop k (take m l))).
Proof.
  intros Hkm. rewrite <- reduce_left_app. f_equal.
  rewrite <- (take_drop k (take m l)) at 1. f_equal.
  rewrite take_take. f_equal. lia.
Qed.

Lemma reduce_left_snoc (l : list T) i x :
  l !! i = Some x →
  reduce (take (S i) l) = combine (reduce (take i l)) (Some x).
Proof.
  intros Hi. erewrite take_S_r by exact Hi. by rewrite reduce_left_app.
Qed.

(** *** The subgroup scan gives every lane the combination over its subgroup *)

Lemma warp_scan_from_length width lane acc (xs : list T) :
  length (warp_scan_from scan_op width lane acc xs) = length xs.
Proof.
  revert lane acc. induction xs as [|x xs IH]; intros lane acc; [done |].
  cbn. case_decide; by rewrite IH.
Qed.

Lemma warp_scan_length width (xs : list T) :
  length (warp_scan scan_op width xs) = length xs.
Proof. apply warp_scan_from_length. Qed.

Lemma warp_scan_from_lookup width lane acc (xs : list T) i :
  lane < width → i < length xs →
  warp_scan_from scan_op width lane acc xs !! i
  = if decide (lane + i < width)
    then combine acc (reduce (take (S i) xs))
    else reduce (drop (i - (lane + i) mod width) (take (S i) xs)).
Proof.
  revert lane acc i. induction xs as [|x xs IH]; intros lane acc i Hl Hi;
    [cbn in Hi; lia |].
  cbn [warp_scan_from]. destruct i as [|i].
  - cbn. rewrite decide_True by lia. by destruct acc.
  - cbn in Hi. cbn [lookup list_lookup]. fold (@lookup _ _ _ (@list_lookup T)).
    case_decide as Hw.
    + rewrite IH by lia. rewrite (decide_False (P := lane + S i < width)) by lia.
      replace (lane + S i) with (i + 1 * width) by lia.
      rewrite Nat.Div0.mod_add. cbn [Nat.add].
      pose proof (Nat.Div0.mod_le i width).
      replace (S i - i mod width) with (S (i - i mod width)) by lia.
      change (take (S (S i)) (x :: xs)) with (x :: take (S i) xs).
      cbn [drop]. case_decide; [|done].
      rewrite Nat.mod_small by done. by rewrite Nat.sub_diag.
    + rewrite IH by lia. replace (S lane + i) with (lane + S i) by lia.
      case_decide as Hlt.
      * change (take (S (S i)) (x :: xs)) with ([x] ++ take (S i) xs).
        rewrite reduce_left_app, <- !combine_opt_assoc. f_equal.
        by destruct acc.
      * assert ((lane + S i) mod width ≤ i) as Hm.
        { replace (lane + S i) with ((lane + S i - width) + 1 * width) by lia.
          rewrite Nat.Div0.mod_add.
          pose proof (Nat.Div0.mod_le (lane + S i - width) width). lia. }
        replace (S i - (lane + S i) mod width)
          with (S (i - (lane + S i) mod width)) by lia.
        done.
Qed.

Lemma warp_scan_lookup width (xs : list T) i :
  0 < width → i < length xs →
  warp_scan scan_op width xs !! i
  = reduce (drop (i - i mod width) (take (S i) xs)).
Proof.
  intros Hw Hi. unfold warp_scan. rewrite warp_scan_from_lookup by done.
  cbn [Nat.add]. case_decide as Hlt; [|done].
  rewrite Nat.mod_small by done. by rewrite Nat.sub_diag.
Qed.

End combination.

(** ** Geometry of the block *)

Lemma lane_base width t : t - t mod width = t / width * width.
Proof. pose proof (Nat.div_mod_eq t width). lia. Qed.

Section geometry.
Variables BlockSize warp_size_ : nat.
Hypothesis BlockSize_pos : 0 < BlockSize.
Hypothesis warp_size_pos : 0 < warp_size_.

Local Abbreviation warps_no := (warps_no_ BlockSize warp_size_).
Local Abbreviation last_of := (last_lane BlockSize warp_size_).

Lemma lt_warps_no w : w < warps_no ↔ w * warp_size_ < BlockSize.
Proof.
  unfold warps_no_.
  pose proof (Nat.div_mod_eq (BlockSize + warp_size_ - 1) warp_size_).
  pose proof (Nat.mod_upper_bound (BlockSize + warp_size_ - 1) warp_size_).
  split; intros; nia.
Qed.

Lemma warps_no_pos : 0 < warps_no.
Proof. apply lt_warps_no. lia. Qed.

Lemma warps_no_le : warps_no ≤ BlockSize.
Proof.
  destruct (decide (warps_no ≤ BlockSize)) as [|Hn]; [done |].
  assert (BlockSize < warps_no) as Hlt%lt_warps_no by lia. nia.
Qed.

Lemma warp_id_lt t : t < BlockSize → t / warp_size_ < warps_no.
Proof.
  intros Ht. apply lt_warps_no.
  pose proof (Nat.div_mod_eq t warp_size_). nia.
Qed.

Lemma last_lane_lt w : last_of w < BlockSize.
Proof. unfold last_lane. lia. Qed.

Lemma S_last_lane w : S (last_of w) = Nat.min ((w + 1) * warp_size_) BlockSize.
Proof. unfold last_lane. nia. Qed.

Lemma last_lane_warp w : w < warps_no → last_of w / warp_size_ = w.
Proof.
  intros Hw%lt_warps_no. pose proof (S_last_lane w).
  symmetry. apply Nat.div_unique with (r := last_of w - w * warp_size_); nia.
Qed.

Lemma full_warp w : S w < warps_no → Nat.min ((w + 1) * warp_size_) BlockSize = (w + 1) * warp_size_.
Proof. intros Hw%lt_warps_no. lia. Qed.

Lemma filter_lt_seq n j m :
  filter (λ t, t < n) (seq j m) = seq j (Nat.min (n - j) m).
Proof.
  revert j. induction m as [|m IH]; intros j.
  - by rewrite Nat.min_0_r.
  - cbn [seq]. rewrite filter_cons, IH. case_decide.
    + replace (Nat.min (n - j) (S m)) with (S (Nat.min (n - S j) m)) by lia. done.
    + replace (n - S j) with 0 by lia. by replace (n - j) with 0 by lia.
Qed.

Lemma filter_active :
  filter (λ flat_tid, flat_tid < warps_no) (seq 0 BlockSize) = seq 0 warps_no.
Proof.
  rewrite filter_lt_seq. f_equal. pose proof warps_no_le. lia.
Qed.

End geometry.

(** ** Running [calculate_warp_prefixes_] *)

Lemma bind_zip_fst {A B C} (f : A → list C) (l : list A) (k : list B) :
  length l ≤ length k → zip l k ≫= (λ x, f x.1) = l ≫= f.
Proof.
  revert k. induction l as [|a l IH]; intros [|b k] Hlen; cbn in *; try done; try lia.
  f_equal. apply IH. lia.
Qed.

Lemma mapM_load_all {T} (pre post : list T) tr :
  mapM (λ flat_tid, load flat_tid flat_tid) (seq (length pre) (length post))
       (Machine (pre ++ post) tr)
  = Some (post, Machine (pre ++ post)
                  (tr ++ ((λ t, ev_read t t) <$> seq (length pre) (length post)))).
Proof.
  revert pre tr. induction post as [|x post IH]; intros pre tr.
  - cbn. by rewrite !app_nil_r.
  - cbn [length seq]. eapply mapM_cons_exec.
    + unfold load. cbn [warp_prefixes trace].
      by rewrite list_lookup_middle.
    + specialize (IH (pre ++ [x]) (tr ++ [ev_read (length pre) (length pre)])).
      rewrite length_app, Nat.add_1_r, <- !app_assoc in IH. cbn in IH.
      rewrite IH. by rewrite fmap_cons.
Qed.

Lemma mapM_store_all {T} (pre old new : list T) tr :
  length old = length new →
  ∃ ys, mapM (λ '(flat_tid, v), store flat_tid flat_tid v)
             (zip (seq (length pre) (length new)) new) (Machine (pre ++ old) tr)
        = Some (ys, Machine (pre ++ new)
                      (tr ++ ((λ t, ev_write t t) <$> seq (length pre) (length new)))).
Proof.
  revert pre old tr. induction new as [|x new IH]; intros pre old tr Hlen.
  - destruct old; [|done]. exists []. cbn. by rewrite !app_nil_r.
  - destruct old as [|y old]; [done |]. cbn in Hlen.
    destruct (IH (pre ++ [x]) old (tr ++ [ev_write (length pre) (length pre)]))
      as [ys Hys]; [lia |].
    rewrite length_app, Nat.add_1_r, <- !app_assoc in Hys. cbn in Hys.
    exists (() :: ys). cbn [length seq zip zip_with]. eapply mapM_cons_exec.
    + unfold store. cbn [warp_prefixes trace].
      rewrite decide_True by (rewrite length_app; cbn; lia).
      rewrite insert_app_r_alt by done. rewrite Nat.sub_diag. cbn. done.
    + cbn in *. by rewrite Hys.
Qed.

Lemma elem_of_lanes_with {A} BlockSize (regs : list A) t v :
  (t, v) ∈ lanes_with BlockSize regs → t < BlockSize.
Proof. intros Hin%elem_of_zip_l%elem_of_seq. lia. Qed.

Lemma lanes_with_lookup {A} BlockSize (regs : list A) r :
  length regs = BlockSize →
  lanes_with BlockSize regs !! r = pair r <$> regs !! r.
Proof.
  intros Hlen. unfold lanes_with. rewrite lookup_zip_with.
  destruct (decide (r < BlockSize)).
  - rewrite lookup_seq_lt by done. cbn. by destruct (regs !! r).
  - rewrite (lookup_ge_None_2 (seq _ _)) by (rewrite length_seq; lia).
    by rewrite (lookup_ge_None_2 regs) by lia.
Qed.

Lemma lanes_with_length {A} BlockSize (regs : list A) :
  length regs = BlockSize → length (lanes_with BlockSize regs) = BlockSize.
Proof.
  intros Hlen. unfold lanes_with. rewrite length_zip_with, length_seq. lia.
Qed.

Lemma trace_prefix_lanes_with {A} BlockSize warp_size_ (regs : list A) :
  length regs = BlockSize →
  lanes_with BlockSize regs ≫= (λ x, prefix_events warp_size_ x.1)
  = trace_prefix BlockSize warp_size_.
Proof.
  intros Hlen. unfold lanes_with, trace_prefix.
  apply bind_zip_fst. rewrite length_seq. lia.
Qed.

Lemma base_le width r : r / width * width ≤ r.
Proof. pose proof (Nat.div_mod_eq r width). lia. Qed.

Lemma base_eq width r : r mod width = 0 → r / width * width = r.
Proof. pose proof (Nat.div_mod_eq r width). lia. Qed.

Lemma div_pred width r :
  0 < width → r mod width ≠ 0 → (r - 1) / width = r / width ∧ 0 < r.
Proof.
  intros Hw Hm. assert (0 < r) by (destruct r; [by rewrite Nat.Div0.mod_0_l in Hm | lia]).
  split; [|done]. symmetry.
  pose proof (Nat.div_mod_eq r width). pose proof (Nat.mod_upper_bound r width).
  apply Nat.div_unique with (r := r mod width - 1); lia.
Qed.

Section execution.
Context {T : Type}.
Variables BlockSize warp_size_ : nat.
Variable scan_op : T → T → T.
Hypothesis BlockSize_pos : 0 < BlockSize.
Hypothesis warp_size_pos : 0 < warp_size_.

Local Abbreviation warps_no := (warps_no_ BlockSize warp_size_).
Local Abbreviation last_of := (last_lane BlockSize warp_size_).
Local Abbreviation with_lanes := (lanes_with BlockSize).
Local Abbreviation step := (save_step BlockSize warp_size_).
Local Abbreviation saved := (saved_reductions BlockSize warp_size_).
Local Abbreviation scanned := (scanned_reductions BlockSize warp_size_ scan_op).

Lemma save_step_length (s : list T) x : length (step s x) = length s.
Proof. unfold save_step. case_decide; by rewrite ?length_insert. Qed.

Lemma foldl_save_step_length (s : list T) xs :
  length (foldl step s xs) = length s.
Proof.
  revert s. induction xs as [|x xs IH]; intros s; [done |].
  cbn. by rewrite IH, save_step_length.
Qed.

Lemma saved_reductions_length s (local : list T) :
  length (saved s local) = length s.
Proof. apply foldl_save_step_length. Qed.

(** After the first phase slot [w] holds what the last thread of warp [w]
    had, whatever the array held before. *)
Lemma foldl_save_step_lookup (local : list T) n s w :
  w < warps_no → length s = warps_no →
  foldl step s (zip (seq n (length local)) local) !! w
  = if decide (n ≤ last_of w < n + length local)
    then local !! (last_of w - n) else s !! w.
Proof.
  intros Hw. revert n s. induction local as [|x local IH]; intros n s Hs.
  - cbn. rewrite decide_False by lia. done.
  - cbn [length seq zip zip_with foldl].
    rewrite IH by (by rewrite save_step_length).
    assert (last_of w / warp_size_ = w) as Hll by (by apply last_lane_warp).
    destruct (decide (S n ≤ last_of w < S n + length local)) as [Hin|Hout].
    + rewrite decide_True by lia.
      by replace (last_of w - n) with (S (last_of w - S n)) by lia.
    + unfold save_step, warp_id. cbn [fst snd].
      destruct (decide (n = last_of w)) as [->|Hne].
      * rewrite Hll. rewrite decide_True by done. rewrite decide_True by lia.
        rewrite Nat.sub_diag. cbn [lookup list_lookup].
        apply list_lookup_insert_eq. lia.
      * rewrite (decide_False (P := n ≤ last_of w < n + S (length local))) by lia.
        case_decide as Hl; [|done].
        apply list_lookup_insert_ne. intros Heq. rewrite Heq in Hl. done.
Qed.

Lemma saved_reductions_lookup s (local : list T) w :
  length local = BlockSize → length s = warps_no → w < warps_no →
  saved s local !! w = local !! last_of w.
Proof.
  intros Hlen Hs Hw. unfold saved_reductions, lanes_with.
  pose proof (foldl_save_step_lookup local 0 s w Hw Hs) as Hl.
  rewrite Hlen in Hl. rewrite Hl.
  assert (last_of w < BlockSize) by (by apply last_lane_lt).
  rewrite decide_True by lia. by rewrite Nat.sub_0_r.
Qed.

Lemma save_warp_reductions_exec (local : list T) s tr :
  length local = BlockSize → length s = warps_no →
  save_warp_reductions BlockSize warp_size_ local (Machine s tr)
  = Some ((), Machine (saved s local) (tr ++ trace_save BlockSize warp_size_)).
Proof.
  intros Hlen Hs. unfold save_warp_reductions.
  edestruct (mapM_update
    (λ '(flat_tid, v), save_warp_reduction BlockSize warp_size_ flat_tid
                         (warp_id warp_size_ flat_tid) v)
    step (λ x, save_events BlockSize warp_size_ x.1)
    (λ s, length s = warps_no) (with_lanes local)) as [ys Hys]; [|exact Hs|].
  - intros [t v] s' tr' Hin%elem_of_lanes_with Hs'.
    split; [|by rewrite save_step_length].
    unfold save_warp_reduction, save_step, save_events, last_lane.
    cbn [fst snd]. case_decide; [|by rewrite app_nil_r].
    unfold store. cbn [warp_prefixes trace]. rewrite decide_True; [done |].
    rewrite Hs'. by apply warp_id_lt.
  - erewrite M_bind_exec by exact Hys. unfold trace_save, lanes_with.
    rewrite bind_zip_fst by (rewrite length_seq; lia). done.
Qed.

Lemma scan_warp_reductions_exec (s : list T) tr :
  length s = warps_no →
  scan_warp_reductions BlockSize warp_size_ scan_op (Machine s tr)
  = Some ((), Machine (warp_scan scan_op (next_power_of_two warps_no) s)
                (tr ++ trace_scan BlockSize warp_size_)).
Proof.
  intros Hs. unfold scan_warp_reductions.
  rewrite (filter_active BlockSize warp_size_) by done.
  pose proof (mapM_load_all [] s tr) as Hload. cbn [length app] in Hload.
  rewrite Hs in Hload. erewrite M_bind_exec by exact Hload.
  unfold warp_scan_inclusive_scan.
  edestruct (mapM_emit (T := T) (λ t, ev_warp_scan t (next_power_of_two warps_no)))
    as [ys Hys].
  erewrite M_bind_exec; [|erewrite M_bind_exec by exact Hys; reflexivity].
  edestruct (mapM_store_all [] s (warp_scan scan_op (next_power_of_two warps_no) s))
    as [zs Hzs]; [by rewrite warp_scan_length |].
  rewrite warp_scan_length, Hs in Hzs. cbn [length app] in Hzs.
  erewrite M_bind_exec by exact Hzs. cbn. unfold trace_scan.
  by rewrite <- !app_assoc.
Qed.

Lemma calculate_warp_prefixes_exec (local s : list T) tr :
  length local = BlockSize → length s = warps_no →
  calculate_warp_prefixes_ BlockSize warp_size_ scan_op local (Machine s tr)
  = Some ((), Machine (scanned s local)
                (tr ++ trace_calculate BlockSize warp_size_)).
Proof.
  intros Hlen Hs. unfold calculate_warp_prefixes_.
  erewrite M_bind_exec by (by apply save_warp_reductions_exec).
  erewrite M_bind_exec by reflexivity. cbn [warp_prefixes trace].
  erewrite M_bind_exec
    by (apply scan_warp_reductions_exec; by rewrite saved_reductions_length).
  unfold syncthreads, emit. cbn [warp_prefixes trace].
  unfold trace_calculate. by rewrite <- !app_assoc.
Qed.

End execution.

(** ** The width of the scan over the warp reductions *)

Lemma next_power_of_two_from_ge fuel x acc :
  x ≤ acc * 2 ^ fuel → x ≤ next_power_of_two_from fuel x acc.
Proof.
  revert acc. induction fuel as [|fuel IH]; intros acc Hle; cbn in *.
  - lia.
  - case_decide; [done |]. apply IH. lia.
Qed.

Lemma next_power_of_two_ge x : x ≤ next_power_of_two x.
Proof.
  apply next_power_of_two_from_ge.
  pose proof (Nat.pow_gt_lin_r 2 x). lia.
Qed.

Lemma next_power_of_two_from_pow fuel x k :
  ∃ j, next_power_of_two_from fuel x (2 ^ k) = 2 ^ j.
Proof.
  revert k. induction fuel as [|fuel IH]; intros k; cbn.
  - by exists k.
  - case_decide; [by exists k |]. apply (IH (S k)).
Qed.

Lemma next_power_of_two_pow x : ∃ j, next_power_of_two x = 2 ^ j.
Proof. apply (next_power_of_two_from_pow x x 0). Qed.

Lemma next_power_of_two_from_least fuel x acc :
  0 < acc → (acc = 1 ∨ acc < 2 * x) → 0 < x →
  next_power_of_two_from fuel x acc < 2 * x.
Proof.
  revert acc. induction fuel as [|fuel IH]; intros acc Hacc Hlt Hx; cbn.
  - lia.
  - case_decide; [lia |]. apply IH; lia.
Qed.

Lemma next_power_of_two_least x : 0 < x → next_power_of_two x < 2 * x.
Proof. intros Hx. apply next_power_of_two_from_least; auto with lia. Qed.

(** ** The values a call computes *)

Section values.
Context {T : Type}.
Variables BlockSize warp_size_ : nat.
Variable scan_op : T → T → T.
Hypothesis BlockSize_pos : 0 < BlockSize.
Hypothesis warp_size_pos : 0 < warp_size_.
Hypothesis scan_op_assoc : ∀ a b c, scan_op (scan_op a b) c = scan_op a (scan_op b c).

Local Abbreviation warps_no := (warps_no_ BlockSize warp_size_).
Local Abbreviation last_of := (last_lane BlockSize warp_size_).
Local Abbreviation with_lanes := (lanes_with BlockSize).
Local Abbreviation saved := (saved_reductions BlockSize warp_size_).
Local Abbreviation scanned := (scanned_reductions BlockSize warp_size_ scan_op).
Local Abbreviation reduce := (reduce_left scan_op).
Local Abbreviation combine := (combine_opt scan_op).
Local Abbreviation local_scan := (warp_scan scan_op warp_size_).

Variable input : list T.
Hypothesis input_length : length input = BlockSize.

Lemma local_scan_lookup r :
  r < BlockSize →
  local_scan input !! r
  = reduce (drop (r / warp_size_ * warp_size_) (take (S r) input)).
Proof.
  intros Hr. rewrite warp_scan_lookup by (done || lia).
  by rewrite lane_base.
Qed.

Lemma saved_lookup s w :
  length s = warps_no → w < warps_no →
  saved s (local_scan input) !! w
  = reduce (drop (w * warp_size_)
              (take (Nat.min ((w + 1) * warp_size_) BlockSize) input)).
Proof.
  intros Hs Hw.
  rewrite saved_reductions_lookup by (done || by rewrite warp_scan_length).
  rewrite local_scan_lookup by (by apply last_lane_lt).
  rewrite last_lane_warp by done. by rewrite S_last_lane.
Qed.

(** Combining the reductions of the warps [0..w] combines every input of
    those warps. *)
Lemma reductions_chain (xs : list T) w :
  (∀ v, v ≤ w →
     xs !! v = reduce (drop (v * warp_size_)
                 (take (Nat.min ((v + 1) * warp_size_) BlockSize) input))) →
  w < warps_no →
  reduce (take (S w) xs)
  = reduce (take (Nat.min ((w + 1) * warp_size_) BlockSize) input).
Proof.
  intros Hxs Hw. induction w as [|w IH].
  - specialize (Hxs 0 (le_n 0)). rewrite Nat.mul_0_l, drop_0 in Hxs.
    rewrite <- Hxs. by destruct xs as [|x [|y xs]].
  - assert (is_Some (xs !! S w)) as [x Hx].
    { rewrite Hxs by done. apply lt_warps_no in Hw; [|done..].
      destruct (drop _ _) eqn:Hd; [|done].
      apply (f_equal length) in Hd. rewrite length_drop, length_take in Hd.
      cbn in Hd. lia. }
    erewrite reduce_left_snoc by done.
    rewrite IH by (intros; apply Hxs; lia) || lia.
    rewrite full_warp by (done || lia).
    rewrite <- Hx, (Hxs (S w)) by done.
    symmetry. replace (S w * warp_size_) with ((w + 1) * warp_size_) by lia.
    apply reduce_left_split; [done |]. apply lt_warps_no in Hw; [lia | done..].
Qed.

Lemma scanned_length s :
  length (scanned s (local_scan input)) = length s.
Proof.
  unfold scanned_reductions. by rewrite warp_scan_length, saved_reductions_length.
Qed.

(** After the second barrier slot [w] holds the combination of all the
    inputs of warps [0..w]. *)
Lemma scanned_lookup s w :
  length s = warps_no → w < warps_no →
  scanned s (local_scan input) !! w
  = reduce (take (Nat.min ((w + 1) * warp_size_) BlockSize) input).
Proof.
  intros Hs Hw. unfold scanned_reductions.
  pose proof (next_power_of_two_ge warps_no).
  rewrite warp_scan_lookup
    by (done || lia || rewrite saved_reductions_length; lia).
  rewrite Nat.mod_small, Nat.sub_diag, drop_0 by lia.
  apply reductions_chain; [|done].
  intros v Hv. apply saved_lookup; [done | lia].
Qed.

(** The array after the call does not depend on what it held before. *)
Lemma scanned_independent s s' :
  length s = warps_no → length s' = warps_no →
  scanned s (local_scan input) = scanned s' (local_scan input).
Proof.
  intros Hs Hs'. apply list_eq. intros w.
  destruct (decide (w < warps_no)).
  - by rewrite !scanned_lookup.
  - by rewrite !lookup_ge_None_2 by (rewrite scanned_length; lia).
Qed.

Lemma local_value r :
  r < BlockSize →
  ∃ l, local_scan input !! r = Some l
       ∧ Some l = reduce (drop (r / warp_size_ * warp_size_) (take (S r) input)).
Proof.
  intros Hr. destruct (lookup_lt_is_Some_2 (local_scan input) r) as [l Hl].
  { rewrite warp_scan_length. lia. }
  exists l. split; [done |]. by rewrite <- Hl, local_scan_lookup.
Qed.

Lemma warp_prefix_value s r :
  length s = warps_no → r < BlockSize → r / warp_size_ ≠ 0 →
  ∃ p, scanned s (local_scan input) !! (r / warp_size_ - 1) = Some p
       ∧ Some p = reduce (take (r / warp_size_ * warp_size_) input).
Proof.
  intros Hs Hr Hw.
  assert (r / warp_size_ < warps_no) as Hlt by (by apply warp_id_lt).
  revert Hw Hlt. generalize (r / warp_size_) as w. intros w Hw Hlt.
  destruct (lookup_lt_is_Some_2 (scanned s (local_scan input)) (w - 1))
    as [p Hp].
  { rewrite scanned_length. lia. }
  exists p. split; [done |]. rewrite <- Hp, scanned_lookup by (done || lia).
  rewrite full_warp by (done || lia). by replace (w - 1 + 1) with w by lia.
Qed.

Lemma total_value s :
  length s = warps_no →
  scanned s (local_scan input) !! (warps_no - 1) = reduce input.
Proof.
  intros Hs. pose proof (warps_no_pos BlockSize warp_size_ BlockSize_pos warp_size_pos).
  rewrite scanned_lookup by (done || lia).
  replace (warps_no - 1 + 1) with warps_no by lia.
  assert (¬ warps_no * warp_size_ < BlockSize)
    by (rewrite <- lt_warps_no by done; lia).
  rewrite take_ge; [done | lia].
Qed.

End values.

(** ** Running the scans *)

Lemma warp_scan_inclusive_scan_exec {T} (scan_op : T → T → T) width lanes input s tr :
  warp_scan_inclusive_scan scan_op width lanes input (Machine s tr)
  = Some (warp_scan scan_op width input,
          Machine s (tr ++ ((λ t, ev_warp_scan t width) <$> lanes))).
Proof.
  unfold warp_scan_inclusive_scan.
  destruct (mapM_emit (λ t, ev_warp_scan t width) lanes s tr) as [ys Hys].
  by erewrite M_bind_exec by exact Hys.
Qed.

Lemma warp_shuffle_up_exec {T} (u : unspecified T) regs delta width s tr :
  warp_shuffle_up u regs delta width (Machine s tr)
  = Some (shuffled_up u regs delta width,
          Machine s (tr ++ (ev_shuffle_up <$> seq 0 (length regs)))).
Proof.
  unfold warp_shuffle_up.
  destruct (mapM_emit ev_shuffle_up (seq 0 (length regs)) s tr) as [ys Hys].
  by erewrite M_bind_exec by exact Hys.
Qed.

Lemma select_exclusive_lookup {T} width (u : unspecified T) (st : list (T * T)) r wp o :
  st !! r = Some (wp, o) →
  select_exclusive width (st.*1) (shuffled_up u (st.*2) 1 width) !! r
  = Some (if decide (r mod width = 0) then wp
          else default (shfl_in u r) (snd <$> st !! (r - 1))).
Proof.
  intros Hr. unfold select_exclusive, shuffled_up, lane_id.
  rewrite list_lookup_imap, lookup_zip_with, list_lookup_imap, !list_lookup_fmap.
  rewrite Hr. cbn. repeat case_decide; try done; lia.
Qed.

Lemma select_exclusive_length {T} width (u : unspecified T) (st : list (T * T)) :
  length (select_exclusive width (st.*1) (shuffled_up u (st.*2) 1 width)) = length st.
Proof.
  unfold select_exclusive, shuffled_up.
  rewrite length_imap, length_zip_with, length_imap, !length_fmap. lia.
Qed.

(** The two steps every scan starts with: the warp-local scan, then
    [calculate_warp_prefixes_]. *)
Ltac exec_warp_phases :=
  erewrite M_bind_exec by apply warp_scan_inclusive_scan_exec;
  erewrite M_bind_exec
    by (eapply calculate_warp_prefixes_exec;
        [done | done | by rewrite warp_scan_length | done]).

Section scans.
Context {T : Type}.
Variables BlockSize warp_size_ : nat.
Variable scan_op : T → T → T.
Hypothesis BlockSize_pos : 0 < BlockSize.
Hypothesis warp_size_pos : 0 < warp_size_.
Hypothesis scan_op_assoc : ∀ a b c, scan_op (scan_op a b) c = scan_op a (scan_op b c).

Local Abbreviation warps_no := (warps_no_ BlockSize warp_size_).
Local Abbreviation with_lanes := (lanes_with BlockSize).
Local Abbreviation scanned := (scanned_reductions BlockSize warp_size_ scan_op).
Local Abbreviation reduce := (reduce_left scan_op).
Local Abbreviation combine := (combine_opt scan_op).
Local Abbreviation local_scan := (warp_scan scan_op warp_size_).

Variable input : list T.
Hypothesis input_length : length input = BlockSize.

Lemma local_scan_length : length (local_scan input) = BlockSize.
Proof. by rewrite warp_scan_length. Qed.

Lemma prefix_is_Some s t :
  length s = warps_no → t < BlockSize →
  is_Some (scanned s (local_scan input) !! (warp_id warp_size_ t - 1)).
Proof.
  intros Hs Ht. apply lookup_lt_is_Some_2.
  rewrite scanned_length by done.
  assert (t / warp_size_ < warps_no) by (by apply warp_id_lt).
  unfold warp_id. lia.
Qed.

(** *** [inclusive_scan_] *)

Lemma inclusive_scan_exec s tr :
  length s = warps_no →
  ∃ out,
    inclusive_scan_ BlockSize warp_size_ scan_op input (Machine s tr)
    = Some (out, Machine (scanned s (local_scan input))
                   (tr ++ trace_inclusive_scan BlockSize warp_size_))
    ∧ length out = BlockSize
    ∧ ∀ r, r < BlockSize → out !! r = reduce (take (S r) input).
Proof.
  intros Hs.
  pose (g := λ x : nat * T,
          if decide (warp_id warp_size_ x.1 ≠ 0)
          then from_option (λ p, scan_op p x.2) x.2
                 (scanned s (local_scan input) !! (warp_id warp_size_ x.1 - 1))
          else x.2).
  exists (g <$> with_lanes (local_scan input)). split; [|split].
  - unfold inclusive_scan_.
    exec_warp_phases.
    erewrite (mapM_readonly _ g (λ x, prefix_events warp_size_ x.1)).
    + rewrite trace_prefix_lanes_with by apply local_scan_length.
      unfold trace_inclusive_scan, trace_warp_scan. by rewrite <- !app_assoc.
    + intros [t o] tr' Hin%elem_of_lanes_with. unfold g, prefix_events.
      cbn [fst snd]. case_decide; [|by rewrite app_nil_r].
      destruct (prefix_is_Some s t Hs Hin) as [p Hp].
      erewrite M_bind_exec by (apply load_exec, Hp). by rewrite Hp.
  - rewrite length_fmap. apply lanes_with_length, local_scan_length.
  - intros r Hr. rewrite list_lookup_fmap.
    rewrite lanes_with_lookup by apply local_scan_length.
    destruct (local_value BlockSize warp_size_ scan_op BlockSize_pos warp_size_pos
                scan_op_assoc input input_length r Hr) as (l & -> & Hl).
    cbn. unfold g. cbn [fst snd]. unfold warp_id.
    pose proof (base_le warp_size_ r) as Hbase. case_decide as Hw.
    + destruct (warp_prefix_value BlockSize warp_size_ scan_op BlockSize_pos
                  warp_size_pos scan_op_assoc input input_length s r Hs Hr Hw)
        as (p & -> & Hp).
      cbn. change (Some (scan_op p l)) with (combine (Some p) (Some l)).
      rewrite Hp, Hl. symmetry. apply reduce_left_split; [done | lia].
    + rewrite Hl, Hw. done.
Qed.


(** *** [exclusive_scan_] with an initial value *)

Lemma fold_left_seed init (xs : list T) :
  Some (fold_left scan_op xs init) = combine (Some init) (reduce xs).
Proof.
  destruct xs as [|x xs]; [done |]. cbn. f_equal. by apply fold_left_scan_op.
Qed.

Lemma exclusive_scan_exec init u s tr :
  length s = warps_no →
  ∃ out,
    exclusive_scan_ BlockSize warp_size_ scan_op input init u (Machine s tr)
    = Some (out, Machine (scanned s (local_scan input))
                   (tr ++ trace_exclusive_scan BlockSize warp_size_))
    ∧ length out = BlockSize
    ∧ ∀ r, r < BlockSize → out !! r = Some (fold_left scan_op (take r input) init).
Proof.
  intros Hs.
  pose (wp := λ t : nat,
          if decide (warp_id warp_size_ t ≠ 0)
          then from_option (scan_op init) init
                 (scanned s (local_scan input) !! (warp_id warp_size_ t - 1))
          else init).
  pose (g := λ x : nat * T, (wp x.1, scan_op (wp x.1) x.2)).
  assert (∀ r, r < BlockSize →
            Some (wp r) = combine (Some init)
                            (reduce (take (r / warp_size_ * warp_size_) input)))
    as Hwp.
  { intros r Hr. unfold wp, warp_id. case_decide as Hw.
    - destruct (warp_prefix_value BlockSize warp_size_ scan_op BlockSize_pos
                  warp_size_pos scan_op_assoc input input_length s r Hs Hr Hw)
        as (p & -> & Hp).
      by rewrite <- Hp.
    - by rewrite Hw. }
  set (st := g <$> with_lanes (local_scan input)).
  assert (length st = BlockSize) as Hstlen.
  { unfold st. rewrite length_fmap. apply lanes_with_length, local_scan_length. }
  exists (select_exclusive warp_size_ (st.*1) (shuffled_up u (st.*2) 1 warp_size_)).
  split; [|split].
  - unfold exclusive_scan_.
    exec_warp_phases.
    erewrite M_bind_exec.
    2:{ apply (mapM_readonly _ g (λ x, prefix_events warp_size_ x.1)).
        intros [t o] tr' Hin%elem_of_lanes_with. unfold g, wp, prefix_events.
        cbn [fst snd]. case_decide; [|by rewrite app_nil_r].
        destruct (prefix_is_Some s t Hs Hin) as [p Hp].
        erewrite M_bind_exec;
          [|erewrite M_bind_exec by (apply load_exec, Hp); reflexivity].
        by rewrite Hp. }
    fold st. erewrite M_bind_exec by apply warp_shuffle_up_exec.
    rewrite trace_prefix_lanes_with by apply local_scan_length.
    rewrite length_fmap, Hstlen.
    unfold trace_exclusive_scan, trace_inclusive_scan, trace_warp_scan, trace_shuffle.
    by rewrite <- !app_assoc.
  - by rewrite select_exclusive_length.
  - intros r Hr.
    assert (∀ q, q < BlockSize →
              ∃ l, st !! q = Some (wp q, scan_op (wp q) l)
                   ∧ Some l = reduce (drop (q / warp_size_ * warp_size_)
                                        (take (S q) input))) as Hst.
    { intros q Hq.
      destruct (local_value BlockSize warp_size_ scan_op BlockSize_pos warp_size_pos
                  scan_op_assoc input input_length q Hq) as (l & Hl1 & Hl).
      exists l. split; [|done]. unfold st.
      rewrite list_lookup_fmap, lanes_with_lookup by apply local_scan_length.
      by rewrite Hl1. }
    destruct (Hst r Hr) as (l & Hstr & Hl).
    erewrite select_exclusive_lookup by exact Hstr. f_equal.
    apply (inj Some). rewrite fold_left_seed. case_decide as Hm.
    + rewrite Hwp by done. by rewrite base_eq.
    + destruct (div_pred warp_size_ r warp_size_pos Hm) as [Hd Hpos].
      destruct (Hst (r - 1)) as (l' & -> & Hl'); [lia |].
      change (combine (Some (wp (r - 1))) (Some l')
              = combine (Some init) (reduce (take r input))).
      rewrite Hwp, Hl' by lia. rewrite Hd.
      replace (S (r - 1)) with r by lia.
      rewrite combine_opt_assoc by done. f_equal.
      symmetry. apply reduce_left_split; [done |]. apply base_le.
Qed.


(** *** [exclusive_scan_] with unknown initial value *)

Lemma exclusive_scan_noinit_exec u s tr :
  length s = warps_no →
  ∃ out,
    exclusive_scan_noinit_ BlockSize warp_size_ scan_op input u (Machine s tr)
    = Some (out, Machine (scanned s (local_scan input))
                   (tr ++ trace_exclusive_scan BlockSize warp_size_))
    ∧ length out = BlockSize
    ∧ out !! 0 = Some (uninit u 0)
    ∧ (∀ r, 0 < r < BlockSize → out !! r = reduce (take r input))
    ∧ (∀ r, 0 < r < BlockSize → r < warp_size_ →
         out !! r = local_scan input !! (r - 1))
    ∧ (∀ r, r < BlockSize → warp_size_ ≤ r → r mod warp_size_ = 0 →
         out !! r = scanned s (local_scan input) !! (r / warp_size_ - 1))
    ∧ (∀ r, r < BlockSize → warp_size_ ≤ r → r mod warp_size_ ≠ 0 →
         ∃ p l, scanned s (local_scan input) !! (r / warp_size_ - 1) = Some p
                ∧ local_scan input !! (r - 1) = Some l
                ∧ out !! r = Some (scan_op p l)).
Proof.
  intros Hs.
  pose (g := λ x : nat * T,
          if decide (warp_id warp_size_ x.1 ≠ 0)
          then from_option (λ p, (p, scan_op p x.2)) (uninit u x.1, x.2)
                 (scanned s (local_scan input) !! (warp_id warp_size_ x.1 - 1))
          else (uninit u x.1, x.2)).
  set (st := g <$> with_lanes (local_scan input)).
  assert (length st = BlockSize) as Hstlen.
  { unfold st. rewrite length_fmap. apply lanes_with_length, local_scan_length. }
  assert (∀ q, q < BlockSize →
            ∃ l, local_scan input !! q = Some l
                 ∧ st !! q = Some (g (q, l))
                 ∧ Some l = reduce (drop (q / warp_size_ * warp_size_)
                                      (take (S q) input))) as Hst.
  { intros q Hq.
    destruct (local_value BlockSize warp_size_ scan_op BlockSize_pos warp_size_pos
                scan_op_assoc input input_length q Hq) as (l & Hl1 & Hl).
    exists l. split; [done |]. split; [|done]. unfold st.
    rewrite list_lookup_fmap, lanes_with_lookup by apply local_scan_length.
    by rewrite Hl1. }
  assert (∀ q l, q < BlockSize → q / warp_size_ ≠ 0 →
            ∃ p, scanned s (local_scan input) !! (q / warp_size_ - 1) = Some p
                 ∧ Some p = reduce (take (q / warp_size_ * warp_size_) input)
                 ∧ g (q, l) = (p, scan_op p l)) as Hg.
  { intros q l Hq Hw.
    destruct (warp_prefix_value BlockSize warp_size_ scan_op BlockSize_pos
                warp_size_pos scan_op_assoc input input_length s q Hs Hq Hw)
      as (p & Hp1 & Hp).
    exists p. split; [done |]. split; [done |]. unfold g, warp_id. cbn [fst snd].
    rewrite decide_True by done. by rewrite Hp1. }
  assert (∀ q l, q / warp_size_ = 0 → g (q, l) = (uninit u q, l)) as Hg0.
  { intros q l Hw. unfold g, warp_id. cbn [fst snd]. by rewrite decide_False by lia. }
  assert (∀ r, 0 < r → r < warp_size_ ↔ r / warp_size_ = 0) as Hfirst.
  { intros r Hr. split; [apply Nat.div_small |].
    intros H0. pose proof (Nat.div_mod_eq r warp_size_).
    pose proof (Nat.mod_upper_bound r warp_size_). lia. }
  exists (select_exclusive warp_size_ (st.*1) (shuffled_up u (st.*2) 1 warp_size_)).
  split; [|split; [|split; [|split; [|split; [|split]]]]].
  - unfold exclusive_scan_noinit_.
    exec_warp_phases.
    erewrite M_bind_exec.
    2:{ apply (mapM_readonly _ g (λ x, prefix_events warp_size_ x.1)).
        intros [t o] tr' Hin%elem_of_lanes_with. unfold g, prefix_events.
        cbn [fst snd]. case_decide; [|by rewrite app_nil_r].
        destruct (prefix_is_Some s t Hs Hin) as [p Hp].
        erewrite M_bind_exec by (apply load_exec, Hp). by rewrite Hp. }
    fold st. erewrite M_bind_exec by apply warp_shuffle_up_exec.
    rewrite trace_prefix_lanes_with by apply local_scan_length.
    rewrite length_fmap, Hstlen.
    unfold trace_exclusive_scan, trace_inclusive_scan, trace_warp_scan, trace_shuffle.
    by rewrite <- !app_assoc.
  - by rewrite select_exclusive_length.
  - destruct (Hst 0 BlockSize_pos) as (l & _ & Hst0 & _).
    rewrite Hg0 in Hst0 by (by apply Nat.div_small).
    erewrite select_exclusive_lookup by exact Hst0.
    by rewrite Nat.Div0.mod_0_l.
  - intros r [Hpos Hr]. destruct (Hst r Hr) as (l & _ & Hstr & Hl).
    destruct (decide (r mod warp_size_ = 0)) as [Hm|Hm].
    + assert (r / warp_size_ ≠ 0) as Hw.
      { pose proof (base_eq warp_size_ r Hm). intros H0. rewrite H0 in *. lia. }
      destruct (Hg r l Hr Hw) as (p & _ & Hp & Hgr). rewrite Hgr in Hstr.
      erewrite select_exclusive_lookup by exact Hstr.
      rewrite decide_True by done. by rewrite Hp, base_eq.
    + destruct (Hst (r - 1)) as (l' & _ & Hstr' & Hl'); [lia |].
      destruct (div_pred warp_size_ r warp_size_pos Hm) as [Hd _].
      rewrite Hd in Hl'. replace (S (r - 1)) with r in Hl' by lia.
      destruct (g (r, l)) as [wp o] eqn:Hgr.
      erewrite select_exclusive_lookup by exact Hstr.
      rewrite decide_False by done. rewrite Hstr'.
      destruct (decide (r / warp_size_ = 0)) as [Hw|Hw].
      * rewrite Hg0 by (by rewrite Hd). cbn. by rewrite Hl', Hw.
      * destruct (Hg (r - 1) l') as (p & _ & Hp & ->); [lia | by rewrite Hd |].
        change (combine (Some p) (Some l') = reduce (take r input)).
        rewrite Hp, Hd, Hl'. symmetry.
        apply reduce_left_split; [done |]. apply base_le.
  - intros r [Hpos Hr] Hw. destruct (Hst r Hr) as (l & _ & Hstr & _).
    destruct (Hst (r - 1)) as (l' & Hl1 & Hstr' & _); [lia |].
    destruct (g (r, l)) as [wp o] eqn:Hgr.
    erewrite select_exclusive_lookup by exact Hstr.
    rewrite decide_False by (rewrite Nat.mod_small; lia).
    rewrite Hstr', Hg0 by (apply Nat.div_small; lia). by rewrite Hl1.
  - intros r Hr Hge Hm. destruct (Hst r Hr) as (l & _ & Hstr & _).
    assert (r / warp_size_ ≠ 0) as Hw by (rewrite <- Hfirst; lia).
    destruct (Hg r l Hr Hw) as (p & Hp1 & _ & Hgr). rewrite Hgr in Hstr.
    erewrite select_exclusive_lookup by exact Hstr.
    by rewrite decide_True by done.
  - intros r Hr Hge Hm. destruct (Hst r Hr) as (l & _ & Hstr & _).
    assert (r / warp_size_ ≠ 0) as Hw by (rewrite <- Hfirst; lia).
    destruct (div_pred warp_size_ r warp_size_pos Hm) as [Hd _].
    destruct (Hst (r - 1)) as (l' & Hl1 & Hstr' & _); [lia |].
    destruct (Hg (r - 1) l') as (p & Hp1 & _ & Hgr'); [lia | by rewrite Hd |].
    rewrite Hd in Hp1. exists p, l'. split; [done |]. split; [done |].
    destruct (g (r, l)) as [wp o] eqn:Hgr.
    erewrite select_exclusive_lookup by exact Hstr.
    rewrite decide_False by done. by rewrite Hstr', Hgr'.
Qed.

End scans.

(** ** Several items per thread *)

Section items.
Context {T : Type}.
Variables BlockSize warp_size_ : nat.
Variable scan_op : T → T → T.
Hypothesis BlockSize_pos : 0 < BlockSize.
Hypothesis warp_size_pos : 0 < warp_size_.
Hypothesis scan_op_assoc : ∀ a b c, scan_op (scan_op a b) c = scan_op a (scan_op b c).

Local Abbreviation warps_no := (warps_no_ BlockSize warp_size_).
Local Abbreviation with_lanes := (lanes_with BlockSize).
Local Abbreviation scanned := (scanned_reductions BlockSize warp_size_ scan_op).
Local Abbreviation reduce := (reduce_left scan_op).
Local Abbreviation combine := (combine_opt scan_op).
Local Abbreviation local_scan := (warp_scan scan_op warp_size_).

Lemma reduce_thread_items_eq (items : list T) :
  reduce_thread_items scan_op items = reduce items.
Proof. by destruct items. Qed.

Lemma reduce_cons x (xs : list T) :
  reduce (x :: xs) = combine (Some x) (reduce xs).
Proof. apply (reduce_left_app scan_op scan_op_assoc [x] xs). Qed.

Lemma thread_reductions (input : list (list T)) :
  Forall (λ items, items ≠ []) input →
  ∃ reds, mapM (reduce_thread_items scan_op) input = Some reds
          ∧ Forall2 (λ items red, reduce items = Some red) input reds.
Proof.
  intros Hne.
  assert (∃ reds, Forall2 (λ items red, reduce items = Some red) input reds)
    as [reds Hreds].
  { induction Hne as [|items input Hitems _ [reds IH]]; [by exists [] |].
    destruct items as [|x items]; [done |].
    exists (fold_left scan_op items x :: reds). by constructor. }
  exists reds. split; [|done]. apply mapM_Some_2.
  eapply Forall2_impl; [exact Hreds |].
  intros items red Hred. by rewrite reduce_thread_items_eq.
Qed.

Lemma reduce_concat (xs : list (list T)) reds :
  Forall2 (λ items red, reduce items = Some red) xs reds →
  reduce reds = reduce (concat xs).
Proof.
  induction 1 as [|items red xs reds Hred _ IH]; [done |].
  cbn [concat]. rewrite reduce_left_app by done.
  by rewrite reduce_cons, IH, Hred.
Qed.

Lemma scan_thread_items_length prev (items : list T) :
  length (scan_thread_items scan_op prev items) = length items.
Proof.
  revert prev. induction items as [|x items IH]; intros prev; [done |].
  cbn. by rewrite IH.
Qed.

Lemma scan_thread_items_lookup prev (items : list T) i :
  i < length items →
  scan_thread_items scan_op prev items !! i
  = combine (Some prev) (reduce (take (S i) items)).
Proof.
  revert prev i. induction items as [|x items IH]; intros prev i Hi;
    [cbn in Hi; lia |].
  destruct i as [|i]; [done |].
  cbn [scan_thread_items lookup list_lookup].
  rewrite IH by (cbn in Hi; lia).
  change (take (S (S i)) (x :: items)) with (x :: take (S i) items).
  by rewrite reduce_cons, <- combine_opt_assoc.
Qed.

Lemma include_prefix_spec t p (items : list T) :
  items ≠ [] →
  ∃ o, include_prefix scan_op t p items = Some o
       ∧ length o = length items
       ∧ ∀ i, i < length items →
           o !! i = combine (if decide (t = 0) then None else Some p)
                      (reduce (take (S i) items)).
Proof.
  intros Hne. destruct items as [|x items]; [done |].
  set (o := if decide (t = 0) then x else scan_op p x).
  exists (o :: scan_thread_items scan_op o items).
  split; [done |]. split.
  { cbn. by rewrite scan_thread_items_length. }
  intros [|i] Hi; unfold o.
  - cbn. by case_decide.
  - cbn [lookup list_lookup]. cbn in Hi.
    rewrite scan_thread_items_lookup by lia.
    change (take (S (S i)) (x :: items)) with (x :: take (S i) items).
    rewrite reduce_cons, <- combine_opt_assoc by done. by case_decide.
Qed.

Variable input : list (list T).
Hypothesis input_length : length input = BlockSize.
Hypothesis input_nonempty : Forall (λ items, items ≠ []) input.

(** *** [inclusive_scan] with [ItemsPerThread] items per thread *)

Lemma inclusive_scan_items_exec u s tr :
  length s = warps_no →
  ∃ out reds,
    mapM (reduce_thread_items scan_op) input = Some reds
    ∧ inclusive_scan_items BlockSize warp_size_ scan_op input u (Machine s tr)
      = Some (out, Machine (scanned s (local_scan reds))
                     (tr ++ trace_exclusive_scan BlockSize warp_size_))
    ∧ length out = BlockSize
    ∧ scanned s (local_scan reds) !! (warps_no - 1) = reduce (concat input)
    ∧ ∀ t items, input !! t = Some items →
        ∃ o, out !! t = Some o
             ∧ length o = length items
             ∧ ∀ i, i < length items →
                 o !! i = reduce (concat (take t input) ++ take (S i) items).
Proof.
  intros Hs. destruct (thread_reductions input input_nonempty) as (reds & Hmap & Hreds).
  assert (length reds = BlockSize) as Hlen
    by (by rewrite <- (Forall2_length _ _ _ Hreds)).
  destruct (exclusive_scan_noinit_exec BlockSize warp_size_ scan_op BlockSize_pos
              warp_size_pos scan_op_assoc reds Hlen u s tr Hs)
    as (pre & Hrun & Hprelen & _ & Hpre & _).
  pose (g := λ x : nat * (T * list T),
          default [] (include_prefix scan_op x.1 x.2.1 x.2.2)).
  assert (length (zip pre input) = BlockSize) as Hziplen
    by (rewrite length_zip_with; lia).
  exists (g <$> with_lanes (zip pre input)), reds.
  split; [done |]. split; [|split; [|split]].
  - unfold inclusive_scan_items.
    erewrite M_bind_exec by (unfold lift; by rewrite Hmap).
    erewrite M_bind_exec by exact Hrun.
    unfold lift. erewrite mapM_Some_2; [done |].
    apply Forall2_fmap_r, Forall_Forall2_diag, Forall_forall.
    intros [t [p items]] Hin. unfold g. cbn [fst snd].
    assert (items ≠ []) as Hne.
    { apply elem_of_zip_r, elem_of_zip_r in Hin.
      by eapply (proj1 (Forall_forall _ _) input_nonempty). }
    cbn. by destruct (include_prefix_spec t p items Hne) as (o & -> & _).
  - rewrite length_fmap. by apply lanes_with_length.
  - rewrite total_value by done. by apply reduce_concat.
  - intros t items Ht.
    assert (t < BlockSize) as Hlt by (rewrite <- input_length; by eapply lookup_lt_Some).
    destruct (lookup_lt_is_Some_2 pre t) as [p Hp]; [lia |].
    assert (items ≠ []) as Hne
      by (by eapply (proj1 (Forall_lookup _ _) input_nonempty)).
    destruct (include_prefix_spec t p items Hne) as (o & Ho & Holen & Hoi).
    exists o. split; [|split; [done |]].
    + rewrite list_lookup_fmap, lanes_with_lookup by done.
      rewrite lookup_zip_with, Hp, Ht. cbn. unfold g. cbn [fst snd]. by rewrite Ho.
    + intros i Hi. rewrite Hoi by done. rewrite reduce_left_app by done. f_equal.
      case_decide as H0; [by subst |].
      rewrite <- Hp, Hpre by lia.
      apply reduce_concat. by apply Forall2_take.
Qed.

End items.

(** ** Reading the reduction, and calls on a storage of their own *)

Lemma save_reduction_exec {T} BlockSize warp_size_ (s : list T) tr v :
  s !! (warps_no_ BlockSize warp_size_ - 1) = Some v →
  save_reduction BlockSize warp_size_ (Machine s tr)
  = Some (replicate BlockSize v,
          Machine s (tr ++ trace_reduction BlockSize warp_size_)).
Proof.
  intros Hv. unfold save_reduction.
  rewrite (mapM_readonly _ (λ _, v) (λ t, [ev_read t (warps_no_ BlockSize warp_size_ - 1)]))
    by (intros t tr' _; by apply load_exec).
  assert (∀ j n, (λ _ : nat, v) <$> seq j n = replicate n v) as ->.
  { intros j n. revert j. induction n as [|n IH]; intros j; [done |].
    cbn. f_equal. apply IH. }
  assert (∀ (f : nat → event) l, l ≫= (λ t, [f t]) = f <$> l) as ->; [|done].
  intros f l. induction l as [|x l IH]; [done |]. cbn. by rewrite IH.
Qed.

Lemma with_reduction_exec {T A} BlockSize warp_size_ (call : M T A) (s : list T)
    tr a s' tr' v :
  call (Machine s tr) = Some (a, Machine s' tr') →
  s' !! (warps_no_ BlockSize warp_size_ - 1) = Some v →
  (output ← call; reduction ← save_reduction BlockSize warp_size_;
   mret (output, reduction)) (Machine s tr)
  = Some ((a, replicate BlockSize v),
          Machine s' (tr' ++ trace_reduction BlockSize warp_size_)).
Proof.
  intros Hcall Hv. erewrite M_bind_exec by exact Hcall.
  by erewrite M_bind_exec by (by apply save_reduction_exec).
Qed.

Lemma tile_static_exec {T A} (call : M T A) (garbage s : list T) tr a s' tr' :
  call (Machine garbage tr) = Some (a, Machine s' tr') →
  tile_static garbage call (Machine s tr) = Some (a, Machine s tr').
Proof. intros Hcall. unfold tile_static. cbn. by rewrite Hcall. Qed.

(** ** Flattening the items of the threads *)

Lemma concat_uniform {A} K (xss : list (list A)) t i xs :
  Forall (λ l, length l = K) xss → xss !! t = Some xs → i < K →
  concat xss !! (t * K + i) = xs !! i
  ∧ take (S (t * K + i)) (concat xss) = concat (take t xss) ++ take (S i) xs.
Proof.
  intros Hall. revert t. induction Hall as [|l xss Hl _ IH]; intros t Ht Hi; [done |].
  destruct t as [|t]; cbn in Ht.
  - injection Ht as ->. cbn [concat Nat.mul Nat.add take app].
    split; [apply lookup_app_l; lia |].
    rewrite take_app. replace (S i - length xs) with 0 by lia.
    by rewrite take_0, app_nil_r.
  - destruct (IH t Ht Hi) as [IH1 IH2].
    replace (S t * K + i) with (length l + (t * K + i)) by lia.
    cbn [concat take]. split.
    + by rewrite lookup_app_r, Nat.add_comm, Nat.add_sub by lia.
    + rewrite <- app_assoc, <- IH2.
      rewrite take_app, take_ge by lia. do 2 f_equal. lia.
Qed.

(** ** The shape of the traces *)

Lemma phases_no_sync tr : ev_syncthreads ∉ tr → phases tr = [tr].
Proof.
  induction tr as [|e tr IH]; intros Hnot; [done |].
  apply not_elem_of_cons in Hnot as [Hne Hnot].
  cbn. rewrite IH by done. by destruct e.
Qed.

Lemma phases_app_sync tr tr' :
  ev_syncthreads ∉ tr → phases (tr ++ ev_syncthreads :: tr') = tr :: phases tr'.
Proof.
  induction tr as [|e tr IH]; intros Hnot; [done |].
  apply not_elem_of_cons in Hnot as [Hne Hnot].
  cbn. rewrite IH by done. by destruct e.
Qed.

Lemma elem_of_trace_warp_scan BlockSize warp_size_ e :
  e ∈ trace_warp_scan BlockSize warp_size_
  ↔ ∃ t, e = ev_warp_scan t warp_size_ ∧ t < BlockSize.
Proof.
  unfold trace_warp_scan. rewrite list_elem_of_fmap. setoid_rewrite elem_of_seq.
  split; [intros (t & -> & ?) | intros (t & -> & ?)]; exists t; split; (done || lia).
Qed.

Lemma elem_of_trace_save BlockSize warp_size_ e :
  0 < BlockSize → 0 < warp_size_ →
  e ∈ trace_save BlockSize warp_size_
  ↔ ∃ w, e = ev_write (last_lane BlockSize warp_size_ w) w
         ∧ w < warps_no_ BlockSize warp_size_.
Proof.
  intros HB HW. unfold trace_save, save_events. rewrite list_elem_of_bind. split.
  - intros (t & He & Ht%elem_of_seq). case_decide as Hl; [|by apply elem_of_nil in He].
    apply list_elem_of_singleton in He. exists (warp_id warp_size_ t).
    split; [by rewrite <- Hl |]. apply warp_id_lt; [done.. | lia].
  - intros (w & -> & Hw). exists (last_lane BlockSize warp_size_ w).
    assert (last_lane BlockSize warp_size_ w < BlockSize) by (by apply last_lane_lt).
    unfold warp_id. rewrite last_lane_warp by done. rewrite decide_True by done.
    split; [apply list_elem_of_singleton; done |]. apply elem_of_seq. lia.
Qed.

Lemma elem_of_trace_scan BlockSize warp_size_ e :
  e ∈ trace_scan BlockSize warp_size_
  ↔ ∃ t, t < warps_no_ BlockSize warp_size_
         ∧ (e = ev_read t t
            ∨ e = ev_warp_scan t (next_power_of_two (warps_no_ BlockSize warp_size_))
            ∨ e = ev_write t t).
Proof.
  unfold trace_scan. rewrite !elem_of_app, !list_elem_of_fmap.
  setoid_rewrite elem_of_seq. split.
  - intros [(t & -> & ?) | [(t & -> & ?) | (t & -> & ?)]];
      exists t; (split; [lia |]); auto.
  - intros (t & ? & [-> | [-> | ->]]); [left | right; left | right; right];
      exists t; split; (done || lia).
Qed.

Lemma elem_of_trace_prefix BlockSize warp_size_ e :
  e ∈ trace_prefix BlockSize warp_size_
  ↔ ∃ t, e = ev_read t (t / warp_size_ - 1) ∧ t < BlockSize ∧ t / warp_size_ ≠ 0.
Proof.
  unfold trace_prefix, prefix_events, warp_id. rewrite list_elem_of_bind. split.
  - intros (t & He & Ht%elem_of_seq). case_decide; [|by apply elem_of_nil in He].
    apply list_elem_of_singleton in He. exists t.
    split; [done |]. split; [apply Ht | done].
  - intros (t & -> & Ht & Hw). exists t. rewrite decide_True by done.
    split; [by apply list_elem_of_singleton |]. apply elem_of_seq.
    split; [apply Nat.le_0_l | exact Ht].
Qed.

Lemma elem_of_trace_shuffle BlockSize e :
  e ∈ trace_shuffle BlockSize ↔ ∃ t, e = ev_shuffle_up t ∧ t < BlockSize.
Proof.
  unfold trace_shuffle. rewrite list_elem_of_fmap. setoid_rewrite elem_of_seq.
  split; [intros (t & -> & ?) | intros (t & -> & ?)]; exists t; split; (done || lia).
Qed.

Lemma elem_of_trace_reduction BlockSize warp_size_ e :
  e ∈ trace_reduction BlockSize warp_size_
  ↔ ∃ t, e = ev_read t (warps_no_ BlockSize warp_size_ - 1) ∧ t < BlockSize.
Proof.
  unfold trace_reduction. rewrite list_elem_of_fmap. setoid_rewrite elem_of_seq.
  split; [intros (t & -> & ?) | intros (t & -> & ?)]; exists t; split; (done || lia).
Qed.

(** ** What every entry point returns *)

Lemma returns_impl {T A} (c : M T A) m (P Q : A → machine T → Prop) :
  returns c m P → (∀ a m', P a m' → Q a m') → returns c m Q.
Proof. intros (a & m' & Hc & HP) HPQ. exists a, m'. auto. Qed.

Lemma list_eq_lookup {A} (f : nat → option A) n (l1 l2 : list A) :
  length l1 = n → length l2 = n →
  (∀ r, r < n → l1 !! r = f r) → (∀ r, r < n → l2 !! r = f r) → l1 = l2.
Proof.
  intros H1 H2 Hf1 Hf2. apply list_eq. intros r. destruct (decide (r < n)).
  - by rewrite Hf1, Hf2.
  - by rewrite !lookup_ge_None_2 by lia.
Qed.

Section entry_points.
Context {T : Type}.
Variables BlockSize warp_size_ : nat.
Variable scan_op : T → T → T.
Hypothesis BlockSize_pos : 0 < BlockSize.
Hypothesis warp_size_pos : 0 < warp_size_.
Hypothesis scan_op_assoc : associative scan_op.

Local Abbreviation warps_no := (warps_no_ BlockSize warp_size_).
Local Abbreviation reduce := (reduce_left scan_op).
Local Abbreviation combine := (combine_opt scan_op).
Local Abbreviation run := (scan_run BlockSize warp_size_).
Local Abbreviation scanned_items := (items_scanned scan_op).
Local Abbreviation noinit_scan := (is_exclusive_scan_noinit scan_op).

Lemma inclusive_scan_run input s tr :
  length input = BlockSize → length s = warps_no →
  run (inclusive_scan BlockSize warp_size_ scan_op input) s tr
    (trace_inclusive_scan BlockSize warp_size_) (reduce input)
    (is_inclusive_scan scan_op input).
Proof.
  intros Hlen Hs.
  destruct (inclusive_scan_exec BlockSize warp_size_ scan_op BlockSize_pos
              warp_size_pos scan_op_assoc input Hlen s tr Hs)
    as (out & Hrun & Hout & Hr).
  eexists _, _. split; [exact Hrun |]. cbn [trace warp_prefixes].
  split; [done |]. split; [by rewrite scanned_length |].
  split; [by apply total_value |]. split; [lia |].
  intros r Hlt. apply Hr. lia.
Qed.

Lemma exclusive_scan_run input init u s tr :
  length input = BlockSize → length s = warps_no →
  run (exclusive_scan BlockSize warp_size_ scan_op input init u) s tr
    (trace_exclusive_scan BlockSize warp_size_) (reduce input)
    (λ out, length out = BlockSize
            ∧ ∀ r, r < BlockSize →
                out !! r = Some (fold_left scan_op (take r input) init)).
Proof.
  intros Hlen Hs.
  destruct (exclusive_scan_exec BlockSize warp_size_ scan_op BlockSize_pos
              warp_size_pos scan_op_assoc input Hlen init u s tr Hs)
    as (out & Hrun & Hout & Hr).
  eexists _, _. split; [exact Hrun |]. cbn [trace warp_prefixes].
  split; [done |]. split; [by rewrite scanned_length |].
  split; [by apply total_value |]. done.
Qed.

Lemma exclusive_scan_noinit_run input u s tr :
  length input = BlockSize → length s = warps_no →
  run (exclusive_scan_noinit_ BlockSize warp_size_ scan_op input u) s tr
    (trace_exclusive_scan BlockSize warp_size_) (reduce input)
    (noinit_scan u input).
Proof.
  intros Hlen Hs.
  destruct (exclusive_scan_noinit_exec BlockSize warp_size_ scan_op BlockSize_pos
              warp_size_pos scan_op_assoc input Hlen u s tr Hs)
    as (out & Hrun & Hout & H0 & Hr & _).
  eexists _, _. split; [exact Hrun |]. cbn [trace warp_prefixes].
  split; [done |]. split; [by rewrite scanned_length |].
  split; [by apply total_value |]. split; [lia |]. split; [done |].
  intros r Hlt. apply Hr. lia.
Qed.

Lemma inclusive_scan_items_run input u s tr :
  length input = BlockSize → Forall (λ items, items ≠ []) input →
  length s = warps_no →
  run (inclusive_scan_items BlockSize warp_size_ scan_op input u) s tr
    (trace_exclusive_scan BlockSize warp_size_) (reduce (concat input))
    (scanned_items input).
Proof.
  intros Hlen Hne Hs.
  destruct (inclusive_scan_items_exec BlockSize warp_size_ scan_op BlockSize_pos
              warp_size_pos scan_op_assoc input Hlen Hne u s tr Hs)
    as (out & reds & Hreds & Hrun & Hout & Htot & Hr).
  eexists _, _. split; [exact Hrun |]. cbn [trace warp_prefixes].
  split; [done |]. split.
  { rewrite scanned_length; [done.. |].
    apply length_mapM in Hreds. lia. }
  split; [done |]. split; [lia | done].
Qed.

(** The overloads that also report the reduction. *)
Lemma scan_run_reduction {A} (c : M T A) s tr ctr v P :
  run c s tr ctr (Some v) P →
  run (output ← c; reduction ← save_reduction BlockSize warp_size_;
            mret (output, reduction)) s tr
    (ctr ++ trace_reduction BlockSize warp_size_) (Some v)
    (λ x, P x.1 ∧ x.2 = replicate BlockSize v).
Proof.
  intros (a & [sf tr'] & Hc & Htr & Hsf & Hv & HP). cbn in Htr, Hsf, Hv.
  eexists _, _. split.
  { eapply with_reduction_exec; [exact Hc | exact Hv]. }
  cbn. rewrite Htr, <- app_assoc. done.
Qed.

(** The overloads that declare their own storage. *)
Lemma scan_run_tile_static {A} (c : M T A) garbage s tr ctr total P :
  run c garbage tr ctr total P →
  returns (tile_static garbage c) (Machine s tr) (λ a m',
    trace m' = tr ++ ctr ∧ warp_prefixes m' = s ∧ P a).
Proof.
  intros (a & [sf tr'] & Hc & Htr & _ & _ & HP). cbn in Htr.
  eexists _, _. split; [eapply tile_static_exec, Hc |]. done.
Qed.

(** *** The results are functions of the inputs alone *)

Lemma is_inclusive_scan_unique input out1 out2 :
  is_inclusive_scan scan_op input out1 → is_inclusive_scan scan_op input out2 →
  out1 = out2.
Proof.
  intros [Hl1 H1] [Hl2 H2].
  by apply (list_eq_lookup (λ r, reduce (take (S r) input)) (length input)).
Qed.

Lemma items_scanned_unique input out1 out2 :
  scanned_items input out1 → scanned_items input out2 → out1 = out2.
Proof.
  intros [Hl1 H1] [Hl2 H2].
  eapply list_eq_same_length; [exact Hl2 | exact Hl1 |].
  intros t o1 o2 Ht Ho1 Ho2.
  destruct (lookup_lt_is_Some_2 input t Ht) as [items Hitems].
  destruct (H1 t items Hitems) as (o1' & Ho1' & Hlen1 & Hi1).
  destruct (H2 t items Hitems) as (o2' & Ho2' & Hlen2 & Hi2).
  simplify_eq.
  by apply (list_eq_lookup
              (λ i, reduce (concat (take t input) ++ take (S i) items))
              (length items)).
Qed.

Lemma is_exclusive_scan_noinit_unique u input out1 out2 :
  noinit_scan u input out1 → noinit_scan u input out2 →
  out1 = out2.
Proof.
  intros (Hl1 & H01 & H1) (Hl2 & H02 & H2).
  eapply (list_eq_lookup
            (λ r, if decide (r = 0) then Some (uninit u 0) else reduce (take r input)));
    [exact Hl1 | exact Hl2 | |];
    intros r Hr; case_decide; subst; auto with lia.
Qed.

(** *** Flattened view of the multi-item scan *)

Lemma items_scanned_flat K input out :
  Forall (λ items, length items = K) input →
  scanned_items input out →
  is_inclusive_scan scan_op (concat input) (concat out).
Proof.
  intros HK [Hlen Hout].
  assert (Forall (λ o, length o = K) out) as HKout.
  { apply Forall_lookup. intros t o Ho.
    destruct (lookup_lt_is_Some_2 input t) as [items Hitems].
    { rewrite <- Hlen. by eapply lookup_lt_Some. }
    destruct (Hout t items Hitems) as (o' & Ho' & Hlo & _). simplify_eq.
    rewrite Hlo. by eapply (proj1 (Forall_lookup _ _) HK). }
  assert (∀ (xss : list (list T)), Forall (λ l, length l = K) xss →
            length (concat xss) = length xss * K) as Hflat.
  { induction 1 as [|l xss Hl _ IH]; [done |].
    cbn. rewrite length_app, IH, Hl. lia. }
  split; [by rewrite !Hflat, Hlen |].
  rewrite Hflat by done. intros r Hr.
  assert (0 < K) as HKpos by (destruct K; lia).
  pose proof (Nat.div_mod_eq r K) as Hdm.
  pose proof (Nat.mod_upper_bound r K) as Hm.
  assert (r / K < length input) as Ht.
  { apply Nat.Div0.div_lt_upper_bound. lia. }
  destruct (lookup_lt_is_Some_2 input _ Ht) as [items Hitems].
  destruct (Hout _ items Hitems) as (o & Ho & Hlo & Hoi).
  assert (length items = K) as Hli by (by eapply (proj1 (Forall_lookup _ _) HK)).
  replace r with (r / K * K + r mod K) by lia.
  destruct (concat_uniform K out (r / K) (r mod K) o HKout Ho) as [-> _]; [lia |].
  destruct (concat_uniform K input (r / K) (r mod K) items HK Hitems)
    as [_ ->]; [lia |].
  apply Hoi. lia.
Qed.

End entry_points.

(** ** The phases of a call *)

Lemma filter_Forall_id {A} (P : A → Prop) `{!∀ x, Decision (P x)} (l : list A) :
  Forall P l → filter P l = l.
Proof.
  induction 1 as [|x l Hx _ IH]; [done |].
  by rewrite filter_cons_True, IH.
Qed.

Lemma filter_Forall_nil {A} (P : A → Prop) `{!∀ x, Decision (P x)} (l : list A) :
  Forall (λ x, ¬ P x) l → filter P l = [].
Proof.
  induction 1 as [|x l Hx _ IH]; [done |].
  by rewrite filter_cons_False, IH.
Qed.

Section discipline.
Variables BlockSize warp_size_ : nat.
Hypothesis BlockSize_pos : 0 < BlockSize.
Hypothesis warp_size_pos : 0 < warp_size_.

Local Abbreviation warps_no := (warps_no_ BlockSize warp_size_).
Local Abbreviation last_of := (last_lane BlockSize warp_size_).
Local Abbreviation tws := (trace_warp_scan BlockSize warp_size_).
Local Abbreviation tsave := (trace_save BlockSize warp_size_).
Local Abbreviation tscan := (trace_scan BlockSize warp_size_).
Local Abbreviation tcalc := (trace_calculate BlockSize warp_size_).
Local Abbreviation tail_ok := (tail_ok BlockSize warp_size_).

Lemma tail_ok_app rest rest' : tail_ok rest → tail_ok rest' → tail_ok (rest ++ rest').
Proof.
  intros [Hs Ha] [Hs' Ha']. split.
  - rewrite elem_of_app. tauto.
  - intros e [He|He]%elem_of_app; auto.
Qed.

Lemma tail_ok_prefix : tail_ok (trace_prefix BlockSize warp_size_).
Proof.
  split.
  - by intros (t & ? & _)%elem_of_trace_prefix.
  - intros e (t & -> & Ht & Hw)%elem_of_trace_prefix _. eexists _, _.
    split; [done |].
    assert (t / warp_size_ < warps_no) by (by apply warp_id_lt).
    revert Hw H. generalize (t / warp_size_). lia.
Qed.

Lemma tail_ok_shuffle : tail_ok (trace_shuffle BlockSize).
Proof.
  split.
  - by intros (t & ? & _)%elem_of_trace_shuffle.
  - by intros e (t & -> & Ht)%elem_of_trace_shuffle.
Qed.

Lemma tail_ok_reduction : tail_ok (trace_reduction BlockSize warp_size_).
Proof.
  split.
  - by intros (t & ? & _)%elem_of_trace_reduction.
  - intros e (t & -> & Ht)%elem_of_trace_reduction _.
    eexists _, _. split; [done |].
    pose proof (warps_no_pos BlockSize warp_size_ BlockSize_pos warp_size_pos). lia.
Qed.

Lemma phases_call rest :
  ev_syncthreads ∉ rest →
  phases (tws ++ tcalc ++ rest) = [tws ++ tsave; tscan; rest].
Proof.
  intros Hrest. unfold trace_calculate.
  replace (tws ++ (tsave ++ ev_syncthreads :: tscan ++ [ev_syncthreads]) ++ rest)
    with ((tws ++ tsave) ++ ev_syncthreads :: tscan ++ ev_syncthreads :: rest)
    by (rewrite <- !app_assoc; cbn; by rewrite <- ?app_assoc).
  rewrite phases_app_sync.
  - rewrite phases_app_sync.
    + by rewrite phases_no_sync.
    + by intros (t & _ & [?|[?|?]])%elem_of_trace_scan.
  - intros [(t & ? & _)%elem_of_trace_warp_scan|Hin]%elem_of_app; [done |].
    by apply elem_of_trace_save in Hin as (w & ? & _).
Qed.

Lemma phase_discipline_call rest :
  tail_ok rest → phase_discipline (tws ++ tcalc ++ rest).
Proof.
  intros [Hsync Hrest].
  exists tsave, ((λ t, ev_read t t) <$> seq 0 warps_no),
         ((λ t, ev_write t t) <$> seq 0 warps_no),
         (filter (λ e, is_access e = true) rest).
  assert (∀ t i, ev_read t i ∈ (λ t, ev_read t t) <$> seq 0 warps_no
                 ↔ i = t ∧ t < warps_no) as Hr1.
  { intros t i. rewrite list_elem_of_fmap. setoid_rewrite elem_of_seq.
    split; [intros (x & [= -> ->] & ?); lia |].
    intros [-> ?]; exists t; split; [done | lia]. }
  assert (∀ t i, ev_write t i ∈ (λ t, ev_write t t) <$> seq 0 warps_no
                 ↔ i = t ∧ t < warps_no) as Hw2.
  { intros t i. rewrite list_elem_of_fmap. setoid_rewrite elem_of_seq.
    split; [intros (x & [= -> ->] & ?); lia |].
    intros [-> ?]; exists t; split; [done | lia]. }
  split; [|split; [|split; [|split; [|split; [|split; [|split; [|split]]]]]]].
  - unfold scratch_phases. rewrite phases_call by done. cbn [fmap list_fmap].
    f_equal; [|f_equal].
    + rewrite filter_app, filter_Forall_nil, filter_Forall_id; [done | |].
      * apply Forall_forall. intros e He.
        by apply elem_of_trace_save in He as (w & -> & _).
      * apply Forall_forall. by intros e (t & -> & _)%elem_of_trace_warp_scan.
    + unfold trace_scan. rewrite !filter_app.
      rewrite filter_Forall_id, filter_Forall_nil, filter_Forall_id; [done | | |].
      * apply Forall_forall. by intros e (t & -> & _)%list_elem_of_fmap.
      * apply Forall_forall. by intros e (t & -> & _)%list_elem_of_fmap.
      * apply Forall_forall. by intros e (t & -> & _)%list_elem_of_fmap.
  - apply Forall_forall. intros e He.
    by apply elem_of_trace_save in He as (w & -> & _).
  - apply Forall_forall. by intros e (t & -> & _)%list_elem_of_fmap.
  - apply Forall_forall. by intros e (t & -> & _)%list_elem_of_fmap.
  - apply Forall_forall. intros e [Hacc He]%list_elem_of_filter.
    by destruct (Hrest e He Hacc) as (t & i & -> & _).
  - intros t i [-> Ht]%Hr1. exists (last_of t). apply elem_of_trace_save; eauto.
  - intros t i [Hacc He]%list_elem_of_filter.
    destruct (Hrest _ He Hacc) as (t' & i' & [= <- <-] & Hi).
    exists i. by apply Hw2.
  - intros t t' i Hw Hw'.
    apply elem_of_trace_save in Hw as (w & [= -> ->] & _); [|done..].
    by apply elem_of_trace_save in Hw' as (w' & [= -> <-] & _).
  - intros t t' i [-> _]%Hw2 [[-> _]%Hw2|[-> _]%Hr1]; done.
Qed.

Lemma phase_discipline_inclusive :
  phase_discipline (trace_inclusive_scan BlockSize warp_size_).
Proof. apply phase_discipline_call, tail_ok_prefix. Qed.

Lemma phase_discipline_inclusive_reduction :
  phase_discipline (trace_inclusive_scan BlockSize warp_size_
                    ++ trace_reduction BlockSize warp_size_).
Proof.
  unfold trace_inclusive_scan. rewrite <- !app_assoc.
  apply phase_discipline_call, tail_ok_app; [apply tail_ok_prefix |].
  apply tail_ok_reduction.
Qed.

Lemma phase_discipline_exclusive :
  phase_discipline (trace_exclusive_scan BlockSize warp_size_).
Proof.
  unfold trace_exclusive_scan, trace_inclusive_scan. rewrite <- !app_assoc.
  apply phase_discipline_call, tail_ok_app; [apply tail_ok_prefix |].
  apply tail_ok_shuffle.
Qed.

Lemma phase_discipline_exclusive_reduction :
  phase_discipline (trace_exclusive_scan BlockSize warp_size_
                    ++ trace_reduction BlockSize warp_size_).
Proof.
  unfold trace_exclusive_scan, trace_inclusive_scan. rewrite <- !app_assoc.
  apply phase_discipline_call, tail_ok_app; [apply tail_ok_prefix |].
  apply tail_ok_app; [apply tail_ok_shuffle | apply tail_ok_reduction].
Qed.

End discipline.

(** ** Specification-level consequences *)

Lemma nonempty_of_length {A} (l : list A) : 0 < length l → l ≠ [].
Proof. destruct l; cbn; [lia | done]. Qed.

Lemma items_nonempty {T} K (items : list (list T)) :
  0 < K → Forall (λ l, length l = K) items → Forall (λ l, l ≠ []) items.
Proof.
  intros HK Hall. eapply Forall_impl; [exact Hall |].
  intros l Hl. cbn in Hl. apply nonempty_of_length. lia.
Qed.

Lemma concat_nonempty {T} (items : list (list T)) :
  0 < length items → Forall (λ l, l ≠ []) items → concat items ≠ [].
Proof.
  intros Hlen Hne. destruct items as [|l items]; [cbn in Hlen; lia |].
  apply Forall_cons in Hne as [Hl _]. by destruct l.
Qed.


Section consequences.
Context {T : Type}.
Variables BlockSize warp_size_ : nat.
Variable scan_op : T → T → T.
Hypothesis BlockSize_pos : 0 < BlockSize.
Hypothesis warp_size_pos : 0 < warp_size_.
Hypothesis scan_op_assoc : associative scan_op.

Local Abbreviation warps_no := (warps_no_ BlockSize warp_size_).
Local Abbreviation reduce := (reduce_left scan_op).
Local Abbreviation run := (scan_run BlockSize warp_size_).

Lemma exclusive_closed_form init (input out : list T) :
  length input = BlockSize → length out = BlockSize →
  (∀ r, r < BlockSize → out !! r = Some (fold_left scan_op (take r input) init)) →
  is_exclusive_scan scan_op init input out.
Proof.
  intros Hlen Hout Hr. split; [lia |]. split; [by rewrite Hr |].
  intros i Hi. destruct (lookup_lt_is_Some_2 input (i - 1)) as [x Hx]; [lia |].
  eexists _, x. split; [apply Hr; lia |]. split; [done |].
  rewrite Hr by lia. f_equal.
  replace i with (S (i - 1)) at 1 by lia.
  erewrite take_S_r by exact Hx. by rewrite fold_left_app.
Qed.

Lemma is_inclusive_scan_last (input inc : list T) v :
  reduce input = Some v → is_inclusive_scan scan_op input inc → last inc = Some v.
Proof.
  intros Hv [Hlen Hinc]. rewrite last_lookup, Hlen.
  destruct input as [|x input]; [done |]. cbn [length Nat.pred].
  rewrite Hinc by (cbn; lia). rewrite take_ge by (cbn; lia). done.
Qed.

Lemma is_reduction_replicate (input : list T) v :
  reduce input = Some v →
  is_reduction BlockSize scan_op input (replicate BlockSize v).
Proof.
  intros Hv. split; [apply length_replicate |]. intros t Ht.
  rewrite lookup_replicate_2 by done. split; [done |].
  intros inc Hinc. symmetry. by eapply is_inclusive_scan_last.
Qed.

Lemma reduce_is_Some (input : list T) : input ≠ [] → is_Some (reduce input).
Proof. by destruct input. Qed.

End consequences.

(** * Main results *)

(** C1. Correctness of the inclusive scan: for every block size, every number
    of items per thread, every associative operator and every input, the
    single-value [inclusive_scan] and the [ItemsPerThread] overload (with the
    caller's storage or with their own) return, at flattened position [r]
    (items within a thread, threads in rank order), the left-to-right
    combination of the inputs at flattened positions [0..r]. *)
Theorem inclusive_scan_correct {T} (BlockSize warp_size_ ItemsPerThread : nat)
    (scan_op : T → T → T) (input : list T) (items : list (list T))
    (u : unspecified T) (storage garbage : list T) (tr : list event) :
  0 < BlockSize → 0 < warp_size_ → 0 < ItemsPerThread →
  associative scan_op →
  length storage = warps_no_ BlockSize warp_size_ →
  length garbage = warps_no_ BlockSize warp_size_ →
  length input = BlockSize →
  length items = BlockSize →
  Forall (λ thread_items, length thread_items = ItemsPerThread) items →
  returns (inclusive_scan BlockSize warp_size_ scan_op input) (Machine storage tr)
    (λ output _, is_inclusive_scan scan_op input output)
  ∧ returns (inclusive_scan_tile_static BlockSize warp_size_ scan_op garbage input)
      (Machine storage tr)
      (λ output _, is_inclusive_scan scan_op input output)
  ∧ returns (inclusive_scan_items BlockSize warp_size_ scan_op items u)
      (Machine storage tr)
      (λ output _, is_inclusive_scan scan_op (concat items) (concat output))
  ∧ returns (inclusive_scan_items_tile_static BlockSize warp_size_ scan_op
               garbage items u)
      (Machine storage tr)
      (λ output _, is_inclusive_scan scan_op (concat items) (concat output)).
Proof.
  intros HB HW HK Hassoc Hs Hg Hin Hitems Hall.
  pose proof (items_nonempty ItemsPerThread items HK Hall) as Hne.
  split; [|split; [|split]].
  - eapply returns_impl; [by apply inclusive_scan_run |].
    by intros out m' (_ & _ & _ & Hout).
  - eapply returns_impl;
      [eapply scan_run_tile_static; by apply inclusive_scan_run |].
    by intros out m' (_ & _ & Hout).
  - eapply returns_impl; [by apply inclusive_scan_items_run |].
    intros out m' (_ & _ & _ & Hout). by eapply items_scanned_flat.
  - eapply returns_impl;
      [eapply scan_run_tile_static; by apply inclusive_scan_items_run |].
    intros out m' (_ & _ & Hout). by eapply items_scanned_flat.
Qed.

Lemma inclusive_scan_correct_witness :
  returns (inclusive_scan 70 32 Z.add example_input_70) (Machine [0; 0; 0]%Z [])
    (λ output _, is_inclusive_scan Z.add example_input_70 output)
  ∧ returns (inclusive_scan_items 4 2 Z.add example_items example_unspecified)
      (Machine [0; 0]%Z [])
      (λ output _, is_inclusive_scan Z.add (concat example_items) (concat output)).
Proof.
  split.
  - apply (inclusive_scan_correct 70 32 1 Z.add example_input_70
             ((λ x, [x]) <$> example_input_70) example_unspecified
             [0; 0; 0]%Z [0; 0; 0]%Z []);
      try (vm_compute; lia); try reflexivity.
    + intros a b c. lia.
    + apply Forall_fmap, Forall_forall. reflexivity.
  - apply (inclusive_scan_correct 4 2 2 Z.add [1; 2; 3; 4]%Z example_items
             example_unspecified [0; 0]%Z [0; 0]%Z []);
      try (vm_compute; lia); try reflexivity.
    + intros a b c. lia.
    + repeat constructor.
Defined.

(** C2. Correctness of the exclusive scan with an initial value: for every
    block size, associative operator, initial value [init] and input,
    [output[0] = init] and [output[i] = scan_op(output[i-1], input[i-1])] for
    every rank [i > 0]. *)
Theorem exclusive_scan_correct {T} (BlockSize warp_size_ : nat)
    (scan_op : T → T → T) (input : list T) (init : T)
    (u : unspecified T) (storage garbage : list T) (tr : list event) :
  0 < BlockSize → 0 < warp_size_ →
  associative scan_op →
  length storage = warps_no_ BlockSize warp_size_ →
  length garbage = warps_no_ BlockSize warp_size_ →
  length input = BlockSize →
  returns (exclusive_scan BlockSize warp_size_ scan_op input init u)
    (Machine storage tr)
    (λ output _, is_exclusive_scan scan_op init input output)
  ∧ returns (exclusive_scan_tile_static BlockSize warp_size_ scan_op garbage
               input init u)
      (Machine storage tr)
      (λ output _, is_exclusive_scan scan_op init input output).
Proof.
  intros HB HW Hassoc Hs Hg Hin. split.
  - eapply returns_impl; [by apply exclusive_scan_run |].
    intros out m' (_ & _ & _ & Hlen & Hout). eapply (exclusive_closed_form BlockSize warp_size_); eauto.
  - eapply returns_impl;
      [eapply scan_run_tile_static; by apply exclusive_scan_run |].
    intros out m' (_ & _ & Hlen & Hout). eapply (exclusive_closed_form BlockSize warp_size_); eauto.
Qed.

Lemma exclusive_scan_correct_witness :
  returns (exclusive_scan 70 32 Z.add example_input_70 5%Z example_unspecified)
    (Machine [0; 0; 0]%Z [])
    (λ output _, is_exclusive_scan Z.add 5%Z example_input_70 output)
  ∧ returns (exclusive_scan_tile_static 70 32 Z.add [7; 8; 9]%Z example_input_70
               5%Z example_unspecified)
      (Machine [0; 0; 0]%Z [])
      (λ output _, is_exclusive_scan Z.add 5%Z example_input_70 output).
Proof.
  apply (exclusive_scan_correct 70 32 Z.add example_input_70 5%Z
           example_unspecified [0; 0; 0]%Z [7; 8; 9]%Z []);
    try (vm_compute; lia); try reflexivity.
  intros a b c. lia.
Defined.

Lemma reads_last_slot_replicate {T} BlockSize warp_size_ (v : T) (m : machine T) :
  warp_prefixes m !! (warps_no_ BlockSize warp_size_ - 1) = Some v →
  reads_last_slot BlockSize warp_size_ (replicate BlockSize v) m.
Proof.
  intros Hv t Ht. cbn. by rewrite lookup_replicate_2, Hv.
Qed.

(** C3. Reduction consistency: every overload that reports a reduction
    (single-value inclusive, [ItemsPerThread] inclusive and exclusive with
    an initial value, with the caller's storage or with its own) gives every
    thread the left-to-right combination of all the inputs of the block in
    rank order, which is the last element of the inclusive scan of the same
    inputs; it is the value found in [storage.warp_prefixes[warps_no_ - 1]]
    after the call, and the initial value of the exclusive scan is not part
    of it. *)
Theorem reduction_correct {T} (BlockSize warp_size_ ItemsPerThread : nat)
    (scan_op : T → T → T) (input : list T) (items : list (list T)) (init : T)
    (u : unspecified T) (storage garbage : list T) (tr : list event) :
  0 < BlockSize → 0 < warp_size_ → 0 < ItemsPerThread →
  associative scan_op →
  length storage = warps_no_ BlockSize warp_size_ →
  length garbage = warps_no_ BlockSize warp_size_ →
  length input = BlockSize →
  length items = BlockSize →
  Forall (λ thread_items, length thread_items = ItemsPerThread) items →
  returns (inclusive_scan_reduction BlockSize warp_size_ scan_op input)
    (Machine storage tr)
    (λ r m, is_inclusive_scan scan_op input r.1
            ∧ is_reduction BlockSize scan_op input r.2
            ∧ reads_last_slot BlockSize warp_size_ r.2 m)
  ∧ returns (inclusive_scan_reduction_tile_static BlockSize warp_size_ scan_op
               garbage input)
      (Machine storage tr)
      (λ r _, is_inclusive_scan scan_op input r.1
              ∧ is_reduction BlockSize scan_op input r.2)
  ∧ returns (inclusive_scan_items_reduction BlockSize warp_size_ scan_op items u)
      (Machine storage tr)
      (λ r m, is_inclusive_scan scan_op (concat items) (concat r.1)
              ∧ is_reduction BlockSize scan_op (concat items) r.2
              ∧ reads_last_slot BlockSize warp_size_ r.2 m)
  ∧ returns (inclusive_scan_items_reduction_tile_static BlockSize warp_size_
               scan_op garbage items u)
      (Machine storage tr)
      (λ r _, is_inclusive_scan scan_op (concat items) (concat r.1)
              ∧ is_reduction BlockSize scan_op (concat items) r.2)
  ∧ returns (exclusive_scan_reduction BlockSize warp_size_ scan_op input init u)
      (Machine storage tr)
      (λ r m, is_exclusive_scan scan_op init input r.1
              ∧ is_reduction BlockSize scan_op input r.2
              ∧ reads_last_slot BlockSize warp_size_ r.2 m)
  ∧ returns (exclusive_scan_reduction_tile_static BlockSize warp_size_ scan_op
               garbage input init u)
      (Machine storage tr)
      (λ r _, is_exclusive_scan scan_op init input r.1
              ∧ is_reduction BlockSize scan_op input r.2).
Proof.
  intros HB HW HK Hassoc Hs Hg Hin Hitems Hall.
  pose proof (items_nonempty ItemsPerThread items HK Hall) as Hne.
  destruct (reduce_is_Some scan_op input) as [v Hv].
  { apply nonempty_of_length. lia. }
  destruct (reduce_is_Some scan_op (concat items)) as [w Hw].
  { apply concat_nonempty; [lia | done]. }
  assert (∀ s, length s = warps_no_ BlockSize warp_size_ →
            scan_run BlockSize warp_size_
              (inclusive_scan_reduction BlockSize warp_size_ scan_op input) s tr
              (trace_inclusive_scan BlockSize warp_size_
               ++ trace_reduction BlockSize warp_size_) (Some v)
              (λ x, is_inclusive_scan scan_op input x.1
                    ∧ x.2 = replicate BlockSize v)) as Hinc.
  { intros s Hlen. apply scan_run_reduction. rewrite <- Hv.
    by apply inclusive_scan_run. }
  assert (∀ s, length s = warps_no_ BlockSize warp_size_ →
            scan_run BlockSize warp_size_
              (inclusive_scan_items_reduction BlockSize warp_size_ scan_op items u)
              s tr
              (trace_exclusive_scan BlockSize warp_size_
               ++ trace_reduction BlockSize warp_size_) (Some w)
              (λ x, items_scanned scan_op items x.1
                    ∧ x.2 = replicate BlockSize w)) as Hit.
  { intros s Hlen. apply scan_run_reduction. rewrite <- Hw.
    by apply inclusive_scan_items_run. }
  assert (∀ s, length s = warps_no_ BlockSize warp_size_ →
            scan_run BlockSize warp_size_
              (exclusive_scan_reduction BlockSize warp_size_ scan_op input init u)
              s tr
              (trace_exclusive_scan BlockSize warp_size_
               ++ trace_reduction BlockSize warp_size_) (Some v)
              (λ x, (length x.1 = BlockSize
                     ∧ ∀ r, r < BlockSize →
                         x.1 !! r = Some (fold_left scan_op (take r input) init))
                    ∧ x.2 = replicate BlockSize v)) as Hex.
  { intros s Hlen.
    apply scan_run_reduction
      with (P := λ out, length out = BlockSize
                        ∧ ∀ r, r < BlockSize →
                            out !! r = Some (fold_left scan_op (take r input) init)).
    rewrite <- Hv. by apply exclusive_scan_run. }
  split; [|split; [|split; [|split; [|split]]]].
  - eapply returns_impl; [by apply Hinc |].
    intros [out red] m' (_ & _ & Htot & Hout & ->). split; [done |].
    split; [by eapply (is_reduction_replicate BlockSize warp_size_) |].
    by apply reads_last_slot_replicate.
  - eapply returns_impl; [eapply scan_run_tile_static; by apply Hinc |].
    intros [out red] m' (_ & _ & Hout & ->). split; [done |].
    by eapply (is_reduction_replicate BlockSize warp_size_).
  - eapply returns_impl; [by apply Hit |].
    intros [out red] m' (_ & _ & Htot & Hout & ->).
    split; [by eapply items_scanned_flat |].
    split; [by eapply (is_reduction_replicate BlockSize warp_size_) |].
    by apply reads_last_slot_replicate.
  - eapply returns_impl; [eapply scan_run_tile_static; by apply Hit |].
    intros [out red] m' (_ & _ & Hout & ->).
    split; [by eapply items_scanned_flat |].
    by eapply (is_reduction_replicate BlockSize warp_size_).
  - eapply returns_impl; [by apply Hex |].
    intros [out red] m' (_ & _ & Htot & [Hlen Hout] & ->).
    split; [eapply (exclusive_closed_form BlockSize warp_size_); eauto |].
    split; [by eapply (is_reduction_replicate BlockSize warp_size_) |].
    by apply reads_last_slot_replicate.
  - eapply returns_impl; [eapply scan_run_tile_static; by apply Hex |].
    intros [out red] m' (_ & _ & [Hlen Hout] & ->).
    split; [eapply (exclusive_closed_form BlockSize warp_size_); eauto |].
    by eapply (is_reduction_replicate BlockSize warp_size_).
Qed.

Lemma reduction_correct_witness :
  returns (inclusive_scan_reduction 70 32 Z.add example_input_70)
    (Machine [0; 0; 0]%Z [])
    (λ r m, is_inclusive_scan Z.add example_input_70 r.1
            ∧ is_reduction 70 Z.add example_input_70 r.2
            ∧ reads_last_slot 70 32 r.2 m).
Proof.
  apply (reduction_correct 70 32 1 Z.add example_input_70
           ((λ x, [x]) <$> example_input_70) 5%Z example_unspecified
           [0; 0; 0]%Z [7; 8; 9]%Z []);
    try (vm_compute; lia); try reflexivity.
  - intros a b c. lia.
  - apply Forall_fmap, Forall_forall. reflexivity.
Defined.

Lemma partial_last_warp BlockSize warp_size_ :
  0 < BlockSize → 0 < warp_size_ → BlockSize mod warp_size_ ≠ 0 →
  last_lane BlockSize warp_size_ (warps_no_ BlockSize warp_size_ - 1) = BlockSize - 1
  ∧ lane_id warp_size_ (BlockSize - 1) < warp_size_ - 1.
Proof.
  intros HB HW Hmod. split.
  - pose proof (warps_no_pos BlockSize warp_size_ HB HW) as Hpos.
    assert (¬ warps_no_ BlockSize warp_size_ * warp_size_ < BlockSize) as Hge
      by (rewrite <- lt_warps_no by done; lia).
    unfold last_lane.
    replace (warps_no_ BlockSize warp_size_ - 1 + 1)
      with (warps_no_ BlockSize warp_size_) by lia.
    lia.
  - unfold lane_id.
    pose proof (Nat.div_mod_eq BlockSize warp_size_) as Hd.
    pose proof (Nat.mod_upper_bound BlockSize warp_size_) as Hm.
    rewrite <- (Nat.mod_unique (BlockSize - 1) warp_size_ (BlockSize / warp_size_)
                  (BlockSize mod warp_size_ - 1)); lia.
Qed.

(** C4. Partial final warp: when [BlockSize] is not a multiple of the warp
    size the scans are still right for every thread, and in the phase that
    saves the warp reductions slot [w] of the array is written by exactly
    one thread, the one of rank [min((w+1) * warp_size_, BlockSize) - 1],
    with its warp-local inclusive value, which is the combination of all the
    inputs of warp [w]; in the last warp that thread comes before lane
    [warp_size_ - 1]. *)
Theorem partial_final_warp {T} (BlockSize warp_size_ : nat)
    (scan_op : T → T → T) (input : list T) (init : T)
    (u : unspecified T) (storage : list T) (tr : list event) :
  0 < BlockSize → 0 < warp_size_ →
  BlockSize mod warp_size_ ≠ 0 →
  associative scan_op →
  length storage = warps_no_ BlockSize warp_size_ →
  length input = BlockSize →
  returns (inclusive_scan BlockSize warp_size_ scan_op input) (Machine storage tr)
    (λ output _, is_inclusive_scan scan_op input output)
  ∧ returns (exclusive_scan BlockSize warp_size_ scan_op input init u)
      (Machine storage tr)
      (λ output _, is_exclusive_scan scan_op init input output)
  ∧ returns (save_warp_reductions BlockSize warp_size_
               (warp_scan scan_op warp_size_ input))
      (Machine storage [])
      (λ _ m,
         (∀ flat_tid w,
            ev_write flat_tid w ∈ trace m
            ↔ w < warps_no_ BlockSize warp_size_
              ∧ flat_tid = Nat.min ((w + 1) * warp_size_) BlockSize - 1)
         ∧ ∀ w, w < warps_no_ BlockSize warp_size_ →
             warp_prefixes m !! w
             = warp_scan scan_op warp_size_ input
                 !! (Nat.min ((w + 1) * warp_size_) BlockSize - 1)
             ∧ warp_prefixes m !! w
               = reduce_left scan_op
                   (drop (w * warp_size_)
                      (take (Nat.min ((w + 1) * warp_size_) BlockSize) input)))
  ∧ Nat.min ((warps_no_ BlockSize warp_size_ - 1 + 1) * warp_size_) BlockSize - 1
    = BlockSize - 1
  ∧ lane_id warp_size_ (BlockSize - 1) < warp_size_ - 1.
Proof.
  intros HB HW Hmod Hassoc Hs Hin.
  split; [|split; [|split]].
  - eapply returns_impl; [by apply inclusive_scan_run |].
    by intros out m' (_ & _ & _ & Hout).
  - eapply returns_impl; [by apply exclusive_scan_run |].
    intros out m' (_ & _ & _ & Hlen & Hout).
    eapply (exclusive_closed_form BlockSize warp_size_); eauto.
  - eexists _, _. split.
    { apply save_warp_reductions_exec; [done.. | | done].
      by rewrite warp_scan_length. }
    cbn [trace warp_prefixes app]. split.
    + intros t w. rewrite elem_of_trace_save by done. unfold last_lane. split.
      * by intros (w' & [= -> ->] & ?).
      * intros [? ->]. by exists w.
    + intros w Hw. split.
      * rewrite saved_reductions_lookup; [done.. | | done | done].
        by rewrite warp_scan_length.
      * by apply saved_lookup.
  - apply (partial_last_warp BlockSize warp_size_ HB HW Hmod).
Qed.

Lemma partial_final_warp_witness :
  returns (save_warp_reductions 70 32 (warp_scan Z.add 32 example_input_70))
    (Machine [0; 0; 0]%Z [])
    (λ _ m,
       (∀ flat_tid w,
          ev_write flat_tid w ∈ trace m
          ↔ w < warps_no_ 70 32 ∧ flat_tid = Nat.min ((w + 1) * 32) 70 - 1)
       ∧ ∀ w, w < warps_no_ 70 32 →
           warp_prefixes m !! w
           = warp_scan Z.add 32 example_input_70 !! (Nat.min ((w + 1) * 32) 70 - 1)
           ∧ warp_prefixes m !! w
             = reduce_left Z.add
                 (drop (w * 32) (take (Nat.min ((w + 1) * 32) 70) example_input_70)))
  ∧ lane_id 32 (70 - 1) < 32 - 1.
Proof.
  assert (0 < 70) as HB by lia.
  assert (0 < 32) as HW by lia.
  assert (70 mod 32 ≠ 0) as Hmod by (vm_compute; lia).
  assert (associative Z.add) as Hassoc by (intros a b c; lia).
  assert (length [0; 0; 0]%Z = warps_no_ 70 32) as Hs by reflexivity.
  assert (length example_input_70 = 70) as Hin by reflexivity.
  pose proof (partial_final_warp 70 32 Z.add example_input_70 5%Z
                example_unspecified [0; 0; 0]%Z [] HB HW Hmod Hassoc Hs Hin)
    as (_ & _ & Hsave & _ & Hlane).
  split; [exact Hsave | exact Hlane].
Defined.

(** C5. Exclusive scan with unknown initial value: the output of the
    lowest-rank thread of the first warp is the uninitialised [warp_prefix];
    the output of every other thread is defined and does not depend on any
    unspecified value.  In warp 0 a thread that is not lane 0 receives the
    warp-local inclusive value of the thread one rank lower; in a warp
    [w > 0] the threads use [storage.warp_prefixes[w - 1]], which lane 0
    outputs as it is. *)
Theorem exclusive_scan_noinit_defined {T} (BlockSize warp_size_ : nat)
    (scan_op : T → T → T) (input : list T)
    (u u' : unspecified T) (storage : list T) (tr : list event) :
  0 < BlockSize → 0 < warp_size_ →
  associative scan_op →
  length storage = warps_no_ BlockSize warp_size_ →
  length input = BlockSize →
  returns (exclusive_scan_noinit_ BlockSize warp_size_ scan_op input u)
    (Machine storage tr)
    (λ output m,
       output !! 0 = Some (uninit u 0)
       ∧ (∀ r, 0 < r < BlockSize →
            is_Some (output !! r)
            ∧ output !! r = reduce_left scan_op (take r input))
       ∧ (∀ r, r < BlockSize →
            warp_id warp_size_ r = 0 → lane_id warp_size_ r ≠ 0 →
            output !! r = warp_scan scan_op warp_size_ input !! (r - 1))
       ∧ (∀ r, r < BlockSize →
            warp_id warp_size_ r ≠ 0 → lane_id warp_size_ r = 0 →
            output !! r = warp_prefixes m !! (warp_id warp_size_ r - 1))
       ∧ (∀ r, r < BlockSize →
            warp_id warp_size_ r ≠ 0 → lane_id warp_size_ r ≠ 0 →
            ∃ warp_prefix local,
              warp_prefixes m !! (warp_id warp_size_ r - 1) = Some warp_prefix
              ∧ warp_scan scan_op warp_size_ input !! (r - 1) = Some local
              ∧ output !! r = Some (scan_op warp_prefix local))
       ∧ returns (exclusive_scan_noinit_ BlockSize warp_size_ scan_op input u')
           (Machine storage tr)
           (λ output' _, ∀ r, 0 < r < BlockSize → output' !! r = output !! r)).
Proof.
  intros HB HW Hassoc Hs Hin.
  destruct (exclusive_scan_noinit_exec BlockSize warp_size_ scan_op HB HW Hassoc
              input Hin u storage tr Hs)
    as (out & Hrun & Hlen & H0 & Hr & Hfirst & Hlow & Hother).
  destruct (exclusive_scan_noinit_exec BlockSize warp_size_ scan_op HB HW Hassoc
              input Hin u' storage tr Hs)
    as (out' & Hrun' & _ & _ & Hr' & _).
  assert (∀ r, warp_id warp_size_ r = 0 ↔ r < warp_size_) as Hwarp0.
  { intros r. unfold warp_id. apply Nat.div_small_iff. lia. }
  eexists _, _. split; [exact Hrun |]. cbn [warp_prefixes].
  split; [done |]. split; [|split; [|split; [|split]]].
  - intros r Hlt. split; [|by apply Hr].
    apply lookup_lt_is_Some_2. lia.
  - intros r Hlt Hw Hl. apply Hfirst; [|by apply Hwarp0].
    split; [|done]. destruct r; [|lia].
    unfold lane_id in Hl. by rewrite Nat.Div0.mod_0_l in Hl.
  - intros r Hlt Hw Hl. apply Hlow; [done | | done].
    rewrite Hwarp0 in Hw. lia.
  - intros r Hlt Hw Hl. apply Hother; [done | | done].
    rewrite Hwarp0 in Hw. lia.
  - eexists _, _. split; [exact Hrun' |].
    intros r Hlt. by rewrite Hr, Hr'.
Qed.

Lemma exclusive_scan_noinit_defined_witness :
  returns (exclusive_scan_noinit_ 70 32 Z.add example_input_70 example_unspecified)
    (Machine [0; 0; 0]%Z [])
    (λ output _,
       output !! 0 = Some 777%Z
       ∧ ∀ r, 0 < r < 70 →
           is_Some (output !! r)
           ∧ output !! r = reduce_left Z.add (take r example_input_70)).
Proof.
  assert (0 < 70) as HB by lia.
  assert (0 < 32) as HW by lia.
  assert (associative Z.add) as Hassoc by (intros a b c; lia).
  assert (length [0; 0; 0]%Z = warps_no_ 70 32) as Hs by reflexivity.
  assert (length example_input_70 = 70) as Hin by reflexivity.
  eapply returns_impl.
  - exact (exclusive_scan_noinit_defined 70 32 Z.add example_input_70
             example_unspecified example_unspecified [0; 0; 0]%Z []
             HB HW Hassoc Hs Hin).
  - intros out m (H0 & Hr & _). split; [exact H0 | exact Hr].
Defined.

(** C6, as the code has it.  In the phase that scans the warp reductions the
    threads of rank below [warps_no_], and only they, each read the slot of
    [storage.warp_prefixes] of their own rank, call the warp scan of width
    [next_power_of_two(warps_no_)] (a power of two, at least [warps_no_] and
    less than twice as large) and write the result back to the same slot; the
    call sits under the test [flat_tid < warps_no_], so threads of higher rank
    take no part in that scan.  Afterwards slot [w] holds the inclusive
    combination of the warp reductions [0..w]. *)
Theorem scan_warp_reductions_correct {T} (BlockSize warp_size_ : nat)
    (scan_op : T → T → T) (reductions : list T) :
  0 < BlockSize → 0 < warp_size_ →
  associative scan_op →
  length reductions = warps_no_ BlockSize warp_size_ →
  returns (scan_warp_reductions BlockSize warp_size_ scan_op)
    (Machine reductions [])
    (λ _ m,
       (∀ flat_tid i,
          ev_read flat_tid i ∈ trace m
          ↔ flat_tid < warps_no_ BlockSize warp_size_ ∧ i = flat_tid)
       ∧ (∀ flat_tid width,
            ev_warp_scan flat_tid width ∈ trace m
            ↔ flat_tid < warps_no_ BlockSize warp_size_
              ∧ width = next_power_of_two (warps_no_ BlockSize warp_size_))
       ∧ (∀ flat_tid i,
            ev_write flat_tid i ∈ trace m
            ↔ flat_tid < warps_no_ BlockSize warp_size_ ∧ i = flat_tid)
       ∧ ∀ w, w < warps_no_ BlockSize warp_size_ →
           warp_prefixes m !! w = reduce_left scan_op (take (S w) reductions))
  ∧ warps_no_ BlockSize warp_size_
    ≤ next_power_of_two (warps_no_ BlockSize warp_size_)
    < 2 * warps_no_ BlockSize warp_size_
  ∧ ∃ k, next_power_of_two (warps_no_ BlockSize warp_size_) = 2 ^ k.
Proof.
  intros HB HW Hassoc Hlen.
  pose proof (next_power_of_two_ge (warps_no_ BlockSize warp_size_)) as Hge.
  pose proof (warps_no_pos BlockSize warp_size_ HB HW) as Hpos.
  split; [|split; [split; [done | by apply next_power_of_two_least] |
                   apply next_power_of_two_pow]].
  eexists _, _. split; [by apply scan_warp_reductions_exec |].
  cbn [trace warp_prefixes app].
  split; [|split; [|split]].
  - intros t i. rewrite elem_of_trace_scan. split.
    + by intros (t' & ? & [[= -> ->]|[?|?]]).
    + intros [? ->]. exists t. auto.
  - intros t width. rewrite elem_of_trace_scan. split.
    + by intros (t' & ? & [?|[[= -> ->]|?]]).
    + intros [? ->]. exists t. auto.
  - intros t i. rewrite elem_of_trace_scan. split.
    + by intros (t' & ? & [?|[?|[= -> ->]]]).
    + intros [? ->]. exists t. auto.
  - intros w Hw. rewrite warp_scan_lookup by (done || lia).
    by rewrite Nat.mod_small, Nat.sub_diag, drop_0 by lia.
Qed.

Lemma scan_warp_reductions_correct_witness :
  returns (scan_warp_reductions 70 32 Z.add) (Machine [528; 1552; 405]%Z [])
    (λ _ m,
       (∀ flat_tid width,
          ev_warp_scan flat_tid width ∈ trace m
          ↔ flat_tid < warps_no_ 70 32
            ∧ width = next_power_of_two (warps_no_ 70 32))
       ∧ ∀ w, w < warps_no_ 70 32 →
           warp_prefixes m !! w
           = reduce_left Z.add (take (S w) [528; 1552; 405]%Z)).
Proof.
  assert (0 < 70) as HB by lia.
  assert (0 < 32) as HW by lia.
  assert (associative Z.add) as Hassoc by (intros a b c; lia).
  assert (length [528; 1552; 405]%Z = warps_no_ 70 32) as Hs by reflexivity.
  destruct (scan_warp_reductions_correct 70 32 Z.add [528; 1552; 405]%Z
              HB HW Hassoc Hs) as [Hrun _].
  eapply returns_impl; [exact Hrun |].
  intros a m (_ & Hscan & _ & Hval). split; [exact Hscan | exact Hval].
Defined.

(** C6, as stated, fails: in a block of 70 threads with warps of 32 there are
    three warps and the scan over their reductions has width 4; thread 3 is
    a padding lane of that scan, and it does not execute it. *)
Lemma padding_lane_does_not_scan :
  returns (scan_warp_reductions 70 32 Z.add) (Machine [528; 1552; 405]%Z [])
    (λ _ m, ¬ padding_lanes_participate 70 32 (trace m)).
Proof.
  eexists _, _. split; [vm_compute; reflexivity |].
  intros Hall. specialize (Hall 3).
  assert (ev_warp_scan 3 (next_power_of_two (warps_no_ 70 32))
          ∉ [ev_read 0 0; ev_read 1 1; ev_read 2 2; ev_warp_scan 0 4;
             ev_warp_scan 1 4; ev_warp_scan 2 4; ev_write 0 0; ev_write 1 1;
             ev_write 2 2]) as Hnot.
  { apply (bool_decide_unpack _). vm_compute. exact I. }
  apply Hnot, Hall; vm_compute; lia.
Qed.

(** C7. The multi-item scenario: four threads, two items each, integer
    addition, thread inputs [[1,2],[3,4],[5,6],[7,8]].  The multi-item
    inclusive scan returns 1,3,6,10,15,21,28,36 in flattened order and reports
    the reduction 36 to every thread, whatever the warp size.  The exclusive
    scan of this class takes one value per thread; run with initial value 0
    over the same eight values, one per thread, it returns
    0,1,3,6,10,15,21,28. *)
Theorem multi_item_scenario (warp_size_ : nat) (u : unspecified Z)
    (storage storage' : list Z) (tr : list event) :
  0 < warp_size_ →
  length storage = warps_no_ 4 warp_size_ →
  length storage' = warps_no_ 8 warp_size_ →
  returns (inclusive_scan_items_reduction 4 warp_size_ Z.add example_items u)
    (Machine storage tr)
    (λ r _, concat r.1 = [1; 3; 6; 10; 15; 21; 28; 36]%Z
            ∧ r.2 = [36; 36; 36; 36]%Z)
  ∧ returns (exclusive_scan 8 warp_size_ Z.add (concat example_items) 0%Z u)
      (Machine storage' tr)
      (λ output _, output = [0; 1; 3; 6; 10; 15; 21; 28]%Z).
Proof.
  intros HW Hs Hs'.
  assert (associative Z.add) as Hassoc by (intros a b c; lia).
  split.
  - eapply returns_impl.
    + apply scan_run_reduction with (v := 36%Z).
      apply (inclusive_scan_items_run 4 warp_size_ Z.add); try done; try lia.
      repeat constructor; done.
    + intros [out red] m' (_ & _ & _ & Hout & ->). split; [|done].
      apply (items_scanned_flat 4 warp_size_ Z.add ltac:(lia) HW 2) in Hout;
        [|by repeat constructor].
      destruct Hout as [Hlen Hout]. cbn [fst].
      apply (list_eq_lookup
               (λ r, reduce_left Z.add (take (S r) (concat example_items))) 8);
        [done | done | exact Hout |].
      intros r Hr. do 8 (destruct r as [|r]; [reflexivity |]). lia.
  - eapply returns_impl.
    + apply (exclusive_scan_run 8 warp_size_ Z.add); try done; lia.
    + intros out m' (_ & _ & _ & Hlen & Hout).
      apply (list_eq_lookup
               (λ r, Some (fold_left Z.add (take r (concat example_items)) 0%Z)) 8);
        [done | done | exact Hout |].
      intros r Hr. do 8 (destruct r as [|r]; [reflexivity |]). lia.
Qed.

Lemma multi_item_scenario_witness :
  returns (inclusive_scan_items_reduction 4 4 Z.add example_items example_unspecified)
    (Machine [0%Z] [])
    (λ r _, concat r.1 = [1; 3; 6; 10; 15; 21; 28; 36]%Z
            ∧ r.2 = [36; 36; 36; 36]%Z)
  ∧ returns (exclusive_scan 8 4 Z.add (concat example_items) 0%Z example_unspecified)
      (Machine [0; 0]%Z [])
      (λ output _, output = [0; 1; 3; 6; 10; 15; 21; 28]%Z).
Proof.
  apply (multi_item_scenario 4 example_unspecified [0%Z] [0; 0]%Z []);
    [lia | reflexivity | reflexivity].
Defined.

(** C8. Every scan call accesses [storage.warp_prefixes] in the order
    write, barrier, read then write, barrier, read: a slot is read only after
    it was written and a barrier passed by the whole block has followed that
    write, and the only accesses of one slot that share a phase come from one
    thread. *)
Theorem scratch_phase_discipline {T} (BlockSize warp_size_ ItemsPerThread : nat)
    (scan_op : T → T → T) (input : list T) (items : list (list T)) (init : T)
    (u : unspecified T) (storage : list T) :
  0 < BlockSize → 0 < warp_size_ → 0 < ItemsPerThread →
  associative scan_op →
  length storage = warps_no_ BlockSize warp_size_ →
  length input = BlockSize →
  length items = BlockSize →
  Forall (λ thread_items, length thread_items = ItemsPerThread) items →
  returns (inclusive_scan BlockSize warp_size_ scan_op input) (Machine storage [])
    (λ _ m, phase_discipline (trace m))
  ∧ returns (inclusive_scan_reduction BlockSize warp_size_ scan_op input)
      (Machine storage [])
      (λ _ m, phase_discipline (trace m))
  ∧ returns (inclusive_scan_items BlockSize warp_size_ scan_op items u)
      (Machine storage [])
      (λ _ m, phase_discipline (trace m))
  ∧ returns (inclusive_scan_items_reduction BlockSize warp_size_ scan_op items u)
      (Machine storage [])
      (λ _ m, phase_discipline (trace m))
  ∧ returns (exclusive_scan BlockSize warp_size_ scan_op input init u)
      (Machine storage [])
      (λ _ m, phase_discipline (trace m))
  ∧ returns (exclusive_scan_reduction BlockSize warp_size_ scan_op input init u)
      (Machine storage [])
      (λ _ m, phase_discipline (trace m))
  ∧ returns (exclusive_scan_noinit_ BlockSize warp_size_ scan_op input u)
      (Machine storage [])
      (λ _ m, phase_discipline (trace m)).
Proof.
  intros HB HW HK Hassoc Hs Hin Hitems Hall.
  pose proof (items_nonempty ItemsPerThread items HK Hall) as Hne.
  destruct (reduce_is_Some scan_op input) as [v Hv].
  { apply nonempty_of_length. lia. }
  destruct (reduce_is_Some scan_op (concat items)) as [w Hw].
  { apply concat_nonempty; [lia | done]. }
  split; [|split; [|split; [|split; [|split; [|split]]]]].
  - eapply returns_impl; [by apply inclusive_scan_run |].
    intros a m' (-> & _). by apply phase_discipline_inclusive.
  - eapply returns_impl.
    { apply scan_run_reduction with (v := v). rewrite <- Hv.
      by apply inclusive_scan_run. }
    intros a m' (-> & _). by apply phase_discipline_inclusive_reduction.
  - eapply returns_impl; [by apply inclusive_scan_items_run |].
    intros a m' (-> & _). by apply phase_discipline_exclusive.
  - eapply returns_impl.
    { apply scan_run_reduction with (v := w). rewrite <- Hw.
      by apply inclusive_scan_items_run. }
    intros a m' (-> & _). by apply phase_discipline_exclusive_reduction.
  - eapply returns_impl; [by apply exclusive_scan_run |].
    intros a m' (-> & _). by apply phase_discipline_exclusive.
  - eapply returns_impl.
    { apply scan_run_reduction with (v := v)
        (P := λ out, length out = BlockSize
                     ∧ ∀ r, r < BlockSize →
                         out !! r = Some (fold_left scan_op (take r input) init)).
      rewrite <- Hv. by apply exclusive_scan_run. }
    intros a m' (-> & _). by apply phase_discipline_exclusive_reduction.
  - eapply returns_impl; [by apply exclusive_scan_noinit_run |].
    intros a m' (-> & _). by apply phase_discipline_exclusive.
Qed.

Lemma scratch_phase_discipline_witness :
  returns (exclusive_scan_reduction 70 32 Z.add example_input_70 5%Z
             example_unspecified)
    (Machine [0; 0; 0]%Z [])
    (λ _ m, phase_discipline (trace m)).
Proof.
  apply (scratch_phase_discipline 70 32 1 Z.add example_input_70
           ((λ x, [x]) <$> example_input_70) 5%Z example_unspecified [0; 0; 0]%Z);
    try (vm_compute; lia); try reflexivity.
  - intros a b c. lia.
  - apply Forall_fmap, Forall_forall. reflexivity.
Defined.

Lemma scratch_independent_of_run {T A} BlockSize warp_size_ (c : M T A)
    ctr total (P : A → Prop) :
  (∀ s tr, length s = warps_no_ BlockSize warp_size_ →
     scan_run BlockSize warp_size_ c s tr ctr total P) →
  (∀ a1 a2, P a1 → P a2 → a1 = a2) →
  scratch_independent BlockSize warp_size_ c.
Proof.
  intros Hrun Huniq [s1 tr1] [s2 tr2] H1 H2. cbn in H1, H2.
  destruct (Hrun s1 tr1 H1) as (a1 & m1 & Hc1 & _ & Hl1 & _ & HP1).
  destruct (Hrun s2 tr2 H2) as (a2 & m2 & Hc2 & _ & _ & _ & HP2).
  exists a1. split.
  - exists a1, m1. split; [done |]. split; [done |]. cbn. lia.
  - exists a2, m2. split; [done |]. by apply Huniq.
Qed.

Lemma with_reduction_unique {T A} BlockSize (v : T) (P : A → Prop) :
  (∀ a1 a2, P a1 → P a2 → a1 = a2) →
  ∀ x1 x2 : A * list T,
    P x1.1 ∧ x1.2 = replicate BlockSize v →
    P x2.1 ∧ x2.2 = replicate BlockSize v → x1 = x2.
Proof.
  intros Huniq [a1 r1] [a2 r2] [HP1 Hr1] [HP2 Hr2]. cbn in *. subst.
  f_equal. by apply Huniq.
Qed.

Lemma sequential_calls {T A A'} BlockSize warp_size_
    (first : M T A') (second : M T A) (m fresh : machine T) :
  scratch_independent BlockSize warp_size_ first →
  scratch_independent BlockSize warp_size_ second →
  length (warp_prefixes m) = warps_no_ BlockSize warp_size_ →
  length (warp_prefixes fresh) = warps_no_ BlockSize warp_size_ →
  behave_as_fresh (separated_by_barrier first second) first second m fresh.
Proof.
  intros Hfirst Hsecond Hm Hfresh.
  destruct (Hfirst m fresh Hm Hfresh)
    as (r' & (a' & m' & Hrun & Ha' & Hlen) & Hfr').
  destruct (Hsecond (Machine (warp_prefixes m') (trace m' ++ [ev_syncthreads]))
              fresh) as (r & (a & m'' & Hrun' & Ha & _) & Hfr);
    [cbn; lia | done |].
  exists r', r. split; [|done]. exists (a', a), m''. split; [|by subst].
  unfold separated_by_barrier.
  erewrite M_bind_exec by exact Hrun.
  erewrite M_bind_exec by reflexivity.
  by erewrite M_bind_exec by exact Hrun'.
Qed.

(** C9. Scratch reuse: for every scan variant, operator and input, the
    outputs and the reduction of a call do not depend on what
    [storage.warp_prefixes] holds when the call starts, and a call leaves the
    array with its size unchanged.  Hence two scan calls on the same storage
    with a barrier between them behave as if the scratch were freshly
    allocated for each call: each returns what it returns when run alone on
    a fresh storage. *)
Theorem scratch_contents_irrelevant {T} (BlockSize warp_size_ ItemsPerThread : nat)
    (scan_op : T → T → T) (input : list T) (items : list (list T)) (init : T)
    (u : unspecified T) :
  0 < BlockSize → 0 < warp_size_ → 0 < ItemsPerThread →
  associative scan_op →
  length input = BlockSize →
  length items = BlockSize →
  Forall (λ thread_items, length thread_items = ItemsPerThread) items →
  scratch_independent BlockSize warp_size_
    (inclusive_scan BlockSize warp_size_ scan_op input)
  ∧ scratch_independent BlockSize warp_size_
      (inclusive_scan_reduction BlockSize warp_size_ scan_op input)
  ∧ scratch_independent BlockSize warp_size_
      (inclusive_scan_items BlockSize warp_size_ scan_op items u)
  ∧ scratch_independent BlockSize warp_size_
      (inclusive_scan_items_reduction BlockSize warp_size_ scan_op items u)
  ∧ scratch_independent BlockSize warp_size_
      (exclusive_scan BlockSize warp_size_ scan_op input init u)
  ∧ scratch_independent BlockSize warp_size_
      (exclusive_scan_reduction BlockSize warp_size_ scan_op input init u)
  ∧ scratch_independent BlockSize warp_size_
      (exclusive_scan_noinit_ BlockSize warp_size_ scan_op input u)
  ∧ ∀ (A A' : Type) (first : M T A') (second : M T A) (m fresh : machine T),
      scratch_independent BlockSize warp_size_ first →
      scratch_independent BlockSize warp_size_ second →
      length (warp_prefixes m) = warps_no_ BlockSize warp_size_ →
      length (warp_prefixes fresh) = warps_no_ BlockSize warp_size_ →
      behave_as_fresh (separated_by_barrier first second) first second m fresh.
Proof.
  intros HB HW HK Hassoc Hin Hitems Hall.
  pose proof (items_nonempty ItemsPerThread items HK Hall) as Hne.
  destruct (reduce_is_Some scan_op input) as [v Hv].
  { apply nonempty_of_length. lia. }
  destruct (reduce_is_Some scan_op (concat items)) as [w Hw].
  { apply concat_nonempty; [lia | done]. }
  pose (closed := λ out : list T,
          length out = BlockSize
          ∧ ∀ r, r < BlockSize →
              out !! r = Some (fold_left scan_op (take r input) init)).
  assert (∀ a1 a2, closed a1 → closed a2 → a1 = a2) as Hclosed.
  { intros a1 a2 [Hl1 H1] [Hl2 H2].
    by apply (list_eq_lookup
                (λ r, Some (fold_left scan_op (take r input) init)) BlockSize). }
  split; [|split; [|split; [|split; [|split; [|split; [|split]]]]]].
  - eapply scratch_independent_of_run;
      [intros s tr Hs; by apply inclusive_scan_run |].
    apply is_inclusive_scan_unique.
  - eapply scratch_independent_of_run.
    + intros s tr Hs. apply scan_run_reduction with (v := v). rewrite <- Hv.
      by apply inclusive_scan_run.
    + apply with_reduction_unique, is_inclusive_scan_unique.
  - eapply scratch_independent_of_run;
      [intros s tr Hs; by apply inclusive_scan_items_run |].
    apply items_scanned_unique.
  - eapply scratch_independent_of_run.
    + intros s tr Hs. apply scan_run_reduction with (v := w). rewrite <- Hw.
      by apply inclusive_scan_items_run.
    + apply with_reduction_unique, items_scanned_unique.
  - eapply scratch_independent_of_run;
      [intros s tr Hs; by apply exclusive_scan_run |].
    exact Hclosed.
  - eapply scratch_independent_of_run.
    + intros s tr Hs. apply scan_run_reduction with (v := v) (P := closed).
      rewrite <- Hv. by apply exclusive_scan_run.
    + by apply with_reduction_unique.
  - eapply scratch_independent_of_run;
      [intros s tr Hs; by apply exclusive_scan_noinit_run |].
    by apply (is_exclusive_scan_noinit_unique BlockSize warp_size_).
  - intros A A' first second m fresh. apply sequential_calls.
Qed.

Lemma scratch_contents_irrelevant_witness :
  same_result (inclusive_scan_reduction 70 32 Z.add example_input_70)
    (Machine [0; 0; 0]%Z []) (Machine [11; 22; 33]%Z [ev_syncthreads]).
Proof.
  assert (0 < 70) as HB by lia.
  assert (0 < 32) as HW by lia.
  assert (0 < 1) as HK by lia.
  assert (associative Z.add) as Hassoc by (intros a b c; lia).
  assert (length example_input_70 = 70) as Hin by reflexivity.
  assert (length ((λ x, [x]) <$> example_input_70) = 70) as Hitems by reflexivity.
  assert (Forall (λ thread_items : list Z, length thread_items = 1)
            ((λ x, [x]) <$> example_input_70)) as Hall
    by (apply Forall_fmap, Forall_forall; reflexivity).
  destruct (scratch_contents_irrelevant 70 32 1 Z.add example_input_70
              ((λ x, [x]) <$> example_input_70) 5%Z example_unspecified
              HB HW HK Hassoc Hin Hitems Hall) as (_ & Hred & _).
  apply Hred; reflexivity.
Defined.

(** C9, as stated, fails for two calls that follow each other without a
    barrier.  In a block of 70 threads with warps of 32, thread 31 finishes
    the first call without reading the array, enters the second call and
    writes the total of its warp there, 0, to slot 0; thread 32 then reads
    slot 0 for the first call and returns 0 + 33 = 33 where the scan of the
    inputs 1, 2, ..., 70 has 561. *)
Lemma back_to_back_calls_interfere :
  returns (inclusive_scan_back_to_back 70 32 Z.add example_input_70
             (replicate 70 0%Z))
    (Machine [0; 0; 0]%Z []) (λ outputs _, outputs.1 !! 32 = Some 33%Z)
  ∧ returns (inclusive_scan 70 32 Z.add example_input_70)
      (Machine [0; 0; 0]%Z []) (λ output _, output !! 32 = Some 561%Z)
  ∧ ¬ behave_as_fresh
        (inclusive_scan_back_to_back 70 32 Z.add example_input_70
           (replicate 70 0%Z))
        (inclusive_scan 70 32 Z.add example_input_70)
        (inclusive_scan 70 32 Z.add (replicate 70 0%Z))
        (Machine [0; 0; 0]%Z []) (Machine [0; 0; 0]%Z []).
Proof.
  split; [|split].
  - eexists _, _. split; [vm_compute; reflexivity |]. reflexivity.
  - eexists _, _. split; [vm_compute; reflexivity |]. reflexivity.
  - intros (r' & r & (a & m & Hboth & Ha) & (a' & m' & Hfirst & Ha') & _).
    vm_compute in Hboth. vm_compute in Hfirst.
    assert (a.1 !! 32 = a' !! 32) as Heq by (rewrite Ha, Ha'; done).
    injection Hboth as <- _. injection Hfirst as <- _. discriminate Heq.
Qed.

(** C10. The [ItemsPerThread] inclusive scan is built on the exclusive scan
    with unknown initial value, whose result for thread 0 is an
    uninitialised value; no output item depends on it.  Thread 0 sets its
    output item 0 to [input[0]] and discards its prefix, so two runs that
    differ in every unspecified value (and in the contents of the storage)
    return the same outputs, each of them the combination of the inputs up
    to its flattened position. *)
Theorem inclusive_scan_items_defined {T} (BlockSize warp_size_ ItemsPerThread : nat)
    (scan_op : T → T → T) (items : list (list T))
    (u u' : unspecified T) (storage storage' : list T) (tr tr' : list event) :
  0 < BlockSize → 0 < warp_size_ → 0 < ItemsPerThread →
  associative scan_op →
  length storage = warps_no_ BlockSize warp_size_ →
  length storage' = warps_no_ BlockSize warp_size_ →
  length items = BlockSize →
  Forall (λ thread_items, length thread_items = ItemsPerThread) items →
  ∃ output thread_input,
    mapM (reduce_thread_items scan_op) items = Some thread_input
    ∧ returns (exclusive_scan_noinit_ BlockSize warp_size_ scan_op thread_input u)
        (Machine storage tr)
        (λ thread_prefix _, thread_prefix !! 0 = Some (uninit u 0))
    ∧ returns (inclusive_scan_items BlockSize warp_size_ scan_op items u)
        (Machine storage tr) (λ out _, out = output)
    ∧ returns (inclusive_scan_items BlockSize warp_size_ scan_op items u')
        (Machine storage' tr') (λ out _, out = output)
    ∧ output !! 0 ≫= (.!! 0) = items !! 0 ≫= (.!! 0)
    ∧ is_inclusive_scan scan_op (concat items) (concat output).
Proof.
  intros HB HW HK Hassoc Hs Hs' Hitems Hall.
  pose proof (items_nonempty ItemsPerThread items HK Hall) as Hne.
  destruct (inclusive_scan_items_exec BlockSize warp_size_ scan_op HB HW Hassoc
              items Hitems Hne u storage tr Hs)
    as (out & reds & Hreds & _).
  destruct (inclusive_scan_items_run BlockSize warp_size_ scan_op HB HW Hassoc
              items u storage tr Hitems Hne Hs)
    as (out1 & m1 & Hrun1 & _ & _ & _ & Hout1).
  destruct (inclusive_scan_items_run BlockSize warp_size_ scan_op HB HW Hassoc
              items u' storage' tr' Hitems Hne Hs')
    as (out2 & m2 & Hrun2 & _ & _ & _ & Hout2).
  exists out1, reds. split; [done |]. split; [|split; [|split; [|split]]].
  - eapply returns_impl.
    + apply (exclusive_scan_noinit_run BlockSize warp_size_ scan_op HB HW Hassoc
               reds u storage tr); [|done].
      apply length_mapM in Hreds. lia.
    + by intros pre m' (_ & _ & _ & _ & H0 & _).
  - by exists out1, m1.
  - exists out2, m2. split; [done |]. by eapply items_scanned_unique.
  - destruct Hout1 as [Hlen Hout].
    destruct (lookup_lt_is_Some_2 items 0) as [its Hits]; [lia |].
    destruct (Hout 0 its Hits) as (o & Ho & Hlo & Hoi).
    rewrite Ho, Hits. cbn.
    assert (length its = ItemsPerThread) as Hl
      by (by eapply (proj1 (Forall_lookup _ _) Hall)).
    rewrite Hoi by lia. destruct its as [|x its]; [cbn in Hl; lia | done].
  - by eapply items_scanned_flat.
Qed.

Lemma inclusive_scan_items_defined_witness :
  ∃ output thread_input,
    mapM (reduce_thread_items Z.add) example_items = Some thread_input
    ∧ returns (exclusive_scan_noinit_ 4 2 Z.add thread_input example_unspecified)
        (Machine [0; 0]%Z [])
        (λ thread_prefix _, thread_prefix !! 0 = Some 777%Z)
    ∧ returns (inclusive_scan_items 4 2 Z.add example_items example_unspecified)
        (Machine [0; 0]%Z []) (λ out _, out = output)
    ∧ returns (inclusive_scan_items 4 2 Z.add example_items
                 (Unspecified (λ _, 1%Z) (λ _, 2%Z)))
        (Machine [5; 6]%Z [ev_syncthreads]) (λ out _, out = output)
    ∧ output !! 0 ≫= (.!! 0) = example_items !! 0 ≫= (.!! 0)
    ∧ is_inclusive_scan Z.add (concat example_items) (concat output).
Proof.
  apply (inclusive_scan_items_defined 4 2 2 Z.add example_items
           example_unspecified (Unspecified (λ _, 1%Z) (λ _, 2%Z))
           [0; 0]%Z [5; 6]%Z [] [ev_syncthreads]);
    try lia; try reflexivity.
  - intros a b c. lia.
  - repeat constructor.
Defined.

(** * Further properties of the block scan *)

(** X1. The comment of [calculate_warp_prefixes_], "i-th warp will have its
    prefix stored in storage.warp_prefixes[i-1]": after an inclusive or an
    exclusive scan, slot [w] of the array holds the combination of the inputs
    of all the threads of warps [0..w], for every warp [w]. *)
Theorem warp_prefixes_after_scan {T} (BlockSize warp_size_ : nat)
    (scan_op : T → T → T) (input : list T) (init : T)
    (u : unspecified T) (storage : list T) (tr : list event) :
  0 < BlockSize → 0 < warp_size_ →
  associative scan_op →
  length storage = warps_no_ BlockSize warp_size_ →
  length input = BlockSize →
  returns (inclusive_scan BlockSize warp_size_ scan_op input) (Machine storage tr)
    (λ _ m, ∀ w, w < warps_no_ BlockSize warp_size_ →
       warp_prefixes m !! w
       = reduce_left scan_op (take (Nat.min ((w + 1) * warp_size_) BlockSize) input))
  ∧ returns (exclusive_scan BlockSize warp_size_ scan_op input init u)
      (Machine storage tr)
      (λ _ m, ∀ w, w < warps_no_ BlockSize warp_size_ →
         warp_prefixes m !! w
         = reduce_left scan_op
             (take (Nat.min ((w + 1) * warp_size_) BlockSize) input)).
Proof.
  intros HB HW Hassoc Hs Hin. split.
  - destruct (inclusive_scan_exec BlockSize warp_size_ scan_op HB HW Hassoc
                input Hin storage tr Hs) as (out & Hrun & _).
    eexists _, _. split; [exact Hrun |]. cbn [warp_prefixes].
    intros w Hw. by apply scanned_lookup.
  - destruct (exclusive_scan_exec BlockSize warp_size_ scan_op HB HW Hassoc
                input Hin init u storage tr Hs) as (out & Hrun & _).
    eexists _, _. split; [exact Hrun |]. cbn [warp_prefixes].
    intros w Hw. by apply scanned_lookup.
Qed.

Lemma warp_prefixes_after_scan_witness :
  returns (inclusive_scan 70 32 Z.add example_input_70) (Machine [0; 0; 0]%Z [])
    (λ _ m, ∀ w, w < warps_no_ 70 32 →
       warp_prefixes m !! w
       = reduce_left Z.add (take (Nat.min ((w + 1) * 32) 70) example_input_70)).
Proof.
  apply (warp_prefixes_after_scan 70 32 Z.add example_input_70 5%Z
           example_unspecified [0; 0; 0]%Z []);
    try (vm_compute; lia); try reflexivity.
  intros a b c. lia.
Defined.

(** X2. The exclusive scan is the inclusive scan shifted by one rank and
    seeded: for every rank [i > 0] the exclusive output is
    [scan_op(init, inclusive[i-1])], and at every rank combining the
    exclusive output with the thread's own input gives
    [scan_op(init, inclusive[i])]. *)
Theorem exclusive_scan_shifts_inclusive {T} (BlockSize warp_size_ : nat)
    (scan_op : T → T → T) (input : list T) (init : T)
    (u : unspecified T) (storage storage' : list T) (tr tr' : list event) :
  0 < BlockSize → 0 < warp_size_ →
  associative scan_op →
  length storage = warps_no_ BlockSize warp_size_ →
  length storage' = warps_no_ BlockSize warp_size_ →
  length input = BlockSize →
  returns (exclusive_scan BlockSize warp_size_ scan_op input init u)
    (Machine storage tr)
    (λ exclusive _,
       returns (inclusive_scan BlockSize warp_size_ scan_op input)
         (Machine storage' tr')
         (λ inclusive _,
            (∀ i, 0 < i < BlockSize →
               ∃ p, inclusive !! (i - 1) = Some p
                    ∧ exclusive !! i = Some (scan_op init p))
            ∧ ∀ i, i < BlockSize →
                ∃ e x p, exclusive !! i = Some e ∧ input !! i = Some x
                         ∧ inclusive !! i = Some p
                         ∧ scan_op e x = scan_op init p)).
Proof.
  intros HB HW Hassoc Hs Hs' Hin.
  eapply returns_impl; [by apply exclusive_scan_run |].
  intros ex m (_ & _ & _ & Hlen & Hex).
  eapply returns_impl; [by apply inclusive_scan_run |].
  intros inc m' (_ & _ & _ & Hlinc & Hinc).
  assert (∀ n, 0 < n ≤ BlockSize →
            ∃ p, reduce_left scan_op (take n input) = Some p
                 ∧ fold_left scan_op (take n input) init = scan_op init p) as Hfold.
  { intros n Hn. destruct (take n input) as [|x xs] eqn:Htake.
    - apply (f_equal length) in Htake. rewrite length_take in Htake. cbn in Htake. lia.
    - eexists. split; [done |]. cbn. by apply fold_left_scan_op. }
  split.
  - intros i Hi. destruct (Hfold i) as (p & Hp & Hf); [lia |].
    exists p. split.
    + rewrite Hinc by lia. by replace (S (i - 1)) with i by lia.
    + rewrite Hex by lia. by rewrite Hf.
  - intros i Hi. destruct (Hfold (S i)) as (p & Hp & Hf); [lia |].
    destruct (lookup_lt_is_Some_2 input i) as [x Hx]; [lia |].
    exists (fold_left scan_op (take i input) init), x, p.
    split; [by apply Hex |]. split; [done |].
    split; [rewrite Hinc by lia; done |].
    rewrite <- Hf. erewrite take_S_r by exact Hx. by rewrite fold_left_app.
Qed.

Lemma exclusive_scan_shifts_inclusive_witness :
  returns (exclusive_scan 70 32 Z.add example_input_70 5%Z example_unspecified)
    (Machine [0; 0; 0]%Z [])
    (λ exclusive _,
       returns (inclusive_scan 70 32 Z.add example_input_70)
         (Machine [1; 2; 3]%Z [])
         (λ inclusive _,
            (∀ i, 0 < i < 70 →
               ∃ p, inclusive !! (i - 1) = Some p
                    ∧ exclusive !! i = Some (Z.add 5%Z p))
            ∧ ∀ i, i < 70 →
                ∃ e x p, exclusive !! i = Some e ∧ example_input_70 !! i = Some x
                         ∧ inclusive !! i = Some p
                         ∧ Z.add e x = Z.add 5%Z p)).
Proof.
  apply (exclusive_scan_shifts_inclusive 70 32 Z.add example_input_70 5%Z
           example_unspecified [0; 0; 0]%Z [1; 2; 3]%Z [] []);
    try (vm_compute; lia); try reflexivity.
  intros a b c. lia.
Defined.

(** X3. The exclusive scan with unknown initial value is the inclusive scan
    shifted by one rank: every thread but thread 0 receives the inclusive
    result of the thread one rank lower. *)
Theorem exclusive_scan_noinit_shifts_inclusive {T} (BlockSize warp_size_ : nat)
    (scan_op : T → T → T) (input : list T)
    (u : unspecified T) (storage storage' : list T) (tr tr' : list event) :
  0 < BlockSize → 0 < warp_size_ →
  associative scan_op →
  length storage = warps_no_ BlockSize warp_size_ →
  length storage' = warps_no_ BlockSize warp_size_ →
  length input = BlockSize →
  returns (exclusive_scan_noinit_ BlockSize warp_size_ scan_op input u)
    (Machine storage tr)
    (λ exclusive _,
       returns (inclusive_scan BlockSize warp_size_ scan_op input)
         (Machine storage' tr')
         (λ inclusive _,
            ∀ i, 0 < i < BlockSize →
              is_Some (exclusive !! i) ∧ exclusive !! i = inclusive !! (i - 1))).
Proof.
  intros HB HW Hassoc Hs Hs' Hin.
  eapply returns_impl; [by apply exclusive_scan_noinit_run |].
  intros ex m (_ & _ & _ & Hlen & _ & Hex).
  eapply returns_impl; [by apply inclusive_scan_run |].
  intros inc m' (_ & _ & _ & Hlinc & Hinc).
  intros i Hi. split; [apply lookup_lt_is_Some_2; lia |].
  rewrite Hex, Hinc by lia. by replace (S (i - 1)) with i by lia.
Qed.

Lemma exclusive_scan_noinit_shifts_inclusive_witness :
  returns (exclusive_scan_noinit_ 70 32 Z.add example_input_70 example_unspecified)
    (Machine [0; 0; 0]%Z [])
    (λ exclusive _,
       returns (inclusive_scan 70 32 Z.add example_input_70)
         (Machine [1; 2; 3]%Z [])
         (λ inclusive _,
            ∀ i, 0 < i < 70 →
              is_Some (exclusive !! i) ∧ exclusive !! i = inclusive !! (i - 1))).
Proof.
  apply (exclusive_scan_noinit_shifts_inclusive 70 32 Z.add example_input_70
           example_unspecified [0; 0; 0]%Z [1; 2; 3]%Z [] []);
    try (vm_compute; lia); try reflexivity.
  intros a b c. lia.
Defined.

Lemma concat_singletons {A} (l : list A) : concat ((λ x, [x]) <$> l) = l.
Proof. induction l as [|x l IH]; [done |]. cbn. by rewrite IH. Qed.

Lemma singletons_concat {A} (xss : list (list A)) :
  Forall (λ xs, length xs = 1) xss → xss = (λ x, [x]) <$> concat xss.
Proof.
  induction 1 as [|xs xss Hxs _ IH]; [done |].
  destruct xs as [|x [|y xs]]; try done. cbn. by rewrite <- IH.
Qed.

(** X4. The result of a scan does not depend on how the block is cut into
    warps: with any two warp sizes (each with a storage of its own number of
    warps) the inclusive scan, the inclusive scan with reduction, the
    exclusive scan and the [ItemsPerThread] inclusive scan return the same
    outputs. *)
Theorem scan_independent_of_warp_size {T}
    (BlockSize warp_size_ warp_size' ItemsPerThread : nat)
    (scan_op : T → T → T) (input : list T) (items : list (list T)) (init : T)
    (u : unspecified T) (storage storage' : list T) (tr tr' : list event) :
  0 < BlockSize → 0 < warp_size_ → 0 < warp_size' → 0 < ItemsPerThread →
  associative scan_op →
  length storage = warps_no_ BlockSize warp_size_ →
  length storage' = warps_no_ BlockSize warp_size' →
  length input = BlockSize →
  length items = BlockSize →
  Forall (λ thread_items, length thread_items = ItemsPerThread) items →
  returns (inclusive_scan BlockSize warp_size_ scan_op input) (Machine storage tr)
    (λ output _,
       returns (inclusive_scan BlockSize warp_size' scan_op input)
         (Machine storage' tr') (λ output' _, output' = output))
  ∧ returns (inclusive_scan_reduction BlockSize warp_size_ scan_op input)
      (Machine storage tr)
      (λ r _,
         returns (inclusive_scan_reduction BlockSize warp_size' scan_op input)
           (Machine storage' tr') (λ r' _, r' = r))
  ∧ returns (exclusive_scan BlockSize warp_size_ scan_op input init u)
      (Machine storage tr)
      (λ output _,
         returns (exclusive_scan BlockSize warp_size' scan_op input init u)
           (Machine storage' tr') (λ output' _, output' = output))
  ∧ returns (inclusive_scan_items BlockSize warp_size_ scan_op items u)
      (Machine storage tr)
      (λ output _,
         returns (inclusive_scan_items BlockSize warp_size' scan_op items u)
           (Machine storage' tr') (λ output' _, output' = output)).
Proof.
  intros HB HW HW' HK Hassoc Hs Hs' Hin Hitems Hall.
  pose proof (items_nonempty ItemsPerThread items HK Hall) as Hne.
  destruct (reduce_is_Some scan_op input) as [v Hv].
  { apply nonempty_of_length. lia. }
  split; [|split; [|split]].
  - eapply returns_impl; [by apply inclusive_scan_run |].
    intros out m (_ & _ & _ & Hout).
    eapply returns_impl; [by apply inclusive_scan_run |].
    intros out' m' (_ & _ & _ & Hout'). by eapply is_inclusive_scan_unique.
  - eapply returns_impl.
    { apply scan_run_reduction with (v := v). rewrite <- Hv.
      by apply inclusive_scan_run. }
    intros [out red] m (_ & _ & _ & Hout & Hred).
    eapply returns_impl.
    { apply scan_run_reduction with (v := v). rewrite <- Hv.
      by apply inclusive_scan_run. }
    intros [out' red'] m' (_ & _ & _ & Hout' & Hred'). cbn in *. subst.
    f_equal. by eapply is_inclusive_scan_unique.
  - eapply returns_impl; [by apply exclusive_scan_run |].
    intros out m (_ & _ & _ & Hlen & Hout).
    eapply returns_impl; [by apply exclusive_scan_run |].
    intros out' m' (_ & _ & _ & Hlen' & Hout').
    by apply (list_eq_lookup
                (λ r, Some (fold_left scan_op (take r input) init)) BlockSize).
  - eapply returns_impl; [by apply inclusive_scan_items_run |].
    intros out m (_ & _ & _ & Hout).
    eapply returns_impl; [by apply inclusive_scan_items_run |].
    intros out' m' (_ & _ & _ & Hout'). by eapply items_scanned_unique.
Qed.

Lemma scan_independent_of_warp_size_witness :
  returns (inclusive_scan 70 32 Z.add example_input_70) (Machine [0; 0; 0]%Z [])
    (λ output _,
       returns (inclusive_scan 70 64 Z.add example_input_70)
         (Machine [0; 0]%Z []) (λ output' _, output' = output)).
Proof.
  apply (scan_independent_of_warp_size 70 32 64 1 Z.add example_input_70
           ((λ x, [x]) <$> example_input_70) 5%Z example_unspecified
           [0; 0; 0]%Z [0; 0]%Z [] []);
    try (vm_compute; lia); try reflexivity.
  - intros a b c. lia.
  - apply Forall_fmap, Forall_forall. reflexivity.
Defined.

(** X5. With one item per thread the [ItemsPerThread] inclusive scan agrees
    with the single-value inclusive scan: each thread's one-element output
    array holds what the single-value overload gives that thread. *)
Theorem single_item_per_thread {T} (BlockSize warp_size_ : nat)
    (scan_op : T → T → T) (input : list T)
    (u : unspecified T) (storage storage' : list T) (tr tr' : list event) :
  0 < BlockSize → 0 < warp_size_ →
  associative scan_op →
  length storage = warps_no_ BlockSize warp_size_ →
  length storage' = warps_no_ BlockSize warp_size_ →
  length input = BlockSize →
  returns (inclusive_scan_items BlockSize warp_size_ scan_op
             ((λ x, [x]) <$> input) u)
    (Machine storage tr)
    (λ items_output _,
       returns (inclusive_scan BlockSize warp_size_ scan_op input)
         (Machine storage' tr')
         (λ output _, items_output = (λ y, [y]) <$> output)).
Proof.
  intros HB HW Hassoc Hs Hs' Hin.
  assert (Forall (λ l : list T, length l = 1) ((λ x, [x]) <$> input)) as Hall
    by (apply Forall_fmap, Forall_forall; reflexivity).
  eapply returns_impl.
  { apply inclusive_scan_items_run; try done.
    - by rewrite length_fmap.
    - by apply (items_nonempty 1); [lia |]. }
  intros out m (_ & _ & _ & Hout).
  eapply returns_impl; [by apply inclusive_scan_run |].
  intros out' m' (_ & _ & _ & Hout').
  assert (Forall (λ o : list T, length o = 1) out) as Hone.
  { destruct Hout as [Hlen Hitems]. apply Forall_lookup. intros t o Ho.
    destruct (lookup_lt_is_Some_2 ((λ x, [x]) <$> input) t) as [its Hits].
    { rewrite <- Hlen. by eapply lookup_lt_Some. }
    destruct (Hitems t its Hits) as (o' & Ho' & Hlo & _). simplify_eq.
    rewrite Hlo. by eapply (proj1 (Forall_lookup _ _) Hall). }
  apply (items_scanned_flat BlockSize warp_size_ scan_op HB HW 1) in Hout;
    [|done].
  rewrite concat_singletons in Hout.
  rewrite (singletons_concat out Hone). f_equal.
  by eapply is_inclusive_scan_unique.
Qed.

Lemma single_item_per_thread_witness :
  returns (inclusive_scan_items 70 32 Z.add ((λ x, [x]) <$> example_input_70)
             example_unspecified)
    (Machine [0; 0; 0]%Z [])
    (λ items_output _,
       returns (inclusive_scan 70 32 Z.add example_input_70)
         (Machine [1; 2; 3]%Z [])
         (λ output _, items_output = (λ y, [y]) <$> output)).
Proof.
  apply (single_item_per_thread 70 32 Z.add example_input_70 example_unspecified
           [0; 0; 0]%Z [1; 2; 3]%Z [] []);
    try (vm_compute; lia); try reflexivity.
  intros a b c. lia.
Defined.

(** X6. No output depends on the input of a thread of higher rank: when two
    block inputs agree on the threads [0..r], the inclusive scans agree on
    the threads [0..r], and so do the exclusive scans started from the same
    initial value. *)
Theorem scan_output_ignores_higher_ranks {T} (BlockSize warp_size_ : nat)
    (scan_op : T → T → T) (input input' : list T) (init : T) (r : nat)
    (u : unspecified T) (storage storage' : list T) (tr tr' : list event) :
  0 < BlockSize → 0 < warp_size_ →
  associative scan_op →
  length storage = warps_no_ BlockSize warp_size_ →
  length storage' = warps_no_ BlockSize warp_size_ →
  length input = BlockSize →
  length input' = BlockSize →
  r < BlockSize →
  take (S r) input = take (S r) input' →
  returns (inclusive_scan BlockSize warp_size_ scan_op input) (Machine storage tr)
    (λ output _,
       returns (inclusive_scan BlockSize warp_size_ scan_op input')
         (Machine storage' tr')
         (λ output' _, ∀ i, i ≤ r → output' !! i = output !! i))
  ∧ returns (exclusive_scan BlockSize warp_size_ scan_op input init u)
      (Machine storage tr)
      (λ output _,
         returns (exclusive_scan BlockSize warp_size_ scan_op input' init u)
           (Machine storage' tr')
           (λ output' _, ∀ i, i ≤ r → output' !! i = output !! i)).
Proof.
  intros HB HW Hassoc Hs Hs' Hin Hin' Hr Htake.
  assert (∀ n, n ≤ S r → take n input = take n input') as Hn.
  { intros n Hle. replace n with (Nat.min n (S r)) by lia.
    by rewrite <- !take_take, Htake. }
  split.
  - eapply returns_impl; [by apply inclusive_scan_run |].
    intros out m (_ & _ & _ & _ & Hout).
    eapply returns_impl; [by apply inclusive_scan_run |].
    intros out' m' (_ & _ & _ & _ & Hout').
    intros i Hi. rewrite Hout, Hout' by lia. by rewrite Hn by lia.
  - eapply returns_impl; [by apply exclusive_scan_run |].
    intros out m (_ & _ & _ & _ & Hout).
    eapply returns_impl; [by apply exclusive_scan_run |].
    intros out' m' (_ & _ & _ & _ & Hout').
    intros i Hi. rewrite Hout, Hout' by lia. by rewrite Hn by lia.
Qed.

Lemma scan_output_ignores_higher_ranks_witness :
  returns (inclusive_scan 70 32 Z.add example_input_70) (Machine [0; 0; 0]%Z [])
    (λ output _,
       returns (inclusive_scan 70 32 Z.add
                  (take 40 example_input_70 ++ replicate 30 0%Z))
         (Machine [0; 0; 0]%Z [])
         (λ output' _, ∀ i, i ≤ 39 → output' !! i = output !! i)).
Proof.
  apply (scan_output_ignores_higher_ranks 70 32 Z.add example_input_70
           (take 40 example_input_70 ++ replicate 30 0%Z) 5%Z 39
           example_unspecified [0; 0; 0]%Z [0; 0; 0]%Z [] []);
    try (vm_compute; lia); try reflexivity.
  intros a b c. lia.
Defined.

(** * Properties of the histogram host code *)

Section host_calls.
Context {S : Type}.

Lemma hostM_bind_returned {A B} (c : hostM S A) (f : A → hostM S B) s a s' :
  c s = returned a s' → (c ≫= f) s = f a s'.
Proof. unfold mbind, hostM_bind. by intros ->. Qed.

Lemma hostM_bind_threw {A B} (c : hostM S A) (f : A → hostM S B) s what s' :
  c s = threw what s' → (c ≫= f) s = threw what s'.
Proof. unfold mbind, hostM_bind. by intros ->. Qed.

Lemma read_exec {A} (array : list A) i a (s : S) :
  array !! i = Some a → read array i s = returned a s.
Proof. unfold read. by intros ->. Qed.

Lemma never_throws_ret {A} (a : A) : never_throws (mret a : hostM S A).
Proof. by intros s what s'. Qed.

Lemma never_throws_bind {A B} (c : hostM S A) (f : A → hostM S B) :
  never_throws c → (∀ a, never_throws (f a)) → never_throws (c ≫= f).
Proof.
  intros Hc Hf s what s'. unfold mbind, hostM_bind.
  destruct (c s) as [a s1|what1 s1|] eqn:E; [apply Hf | by destruct (Hc _ _ _ E) | done].
Qed.

Lemma never_throws_read {A} (array : list A) i :
  never_throws (read array i : hostM S A).
Proof. intros s what s'. unfold read. by destruct (array !! i). Qed.

Lemma never_throws_divide a b : never_throws (unsigned_div a b : hostM S Z).
Proof. intros s what s'. unfold unsigned_div. by case_decide. Qed.

Lemma never_throws_for_channels {A} channels (body : A → nat → hostM S A) acc :
  (∀ a c, never_throws (body a c)) → never_throws (for_channels channels body acc).
Proof.
  intros Hbody. revert acc.
  induction channels as [|c cs IH]; intros acc; cbn.
  - apply never_throws_ret.
  - apply never_throws_bind; [apply Hbody | apply IH].
Qed.

Lemma check_levels_pass levels i n (s : S) :
  (∀ c, i ≤ c < i + n → ∃ l, levels !! c = Some l ∧ (2 ≤ l)%Z) →
  for_channels (seq i n) (check_levels levels) () s = returned () s.
Proof.
  revert i. induction n as [|n IH]; intros i Hall; [done |]. cbn.
  destruct (Hall i) as (l & Hl & Hge); [lia |].
  erewrite hostM_bind_returned; [apply IH; intros c ?; apply Hall; lia |].
  unfold check_levels. erewrite hostM_bind_returned by by apply read_exec.
  by rewrite decide_False by lia.
Qed.

Lemma check_levels_fail levels i n (s : S) :
  (∀ c, i ≤ c < i + n → is_Some (levels !! c)) →
  (∃ c l, i ≤ c < i + n ∧ levels !! c = Some l ∧ (l < 2)%Z) →
  for_channels (seq i n) (check_levels levels) () s = threw levels_message s.
Proof.
  revert i. induction n as [|n IH]; intros i Hall (c & l & Hc & Hl & Hlt); [lia |].
  cbn. destruct (Hall i) as [li Hli]; [lia |].
  destruct (decide (li < 2)%Z) as [Hsmall|Hbig].
  - apply hostM_bind_threw. unfold check_levels.
    erewrite hostM_bind_returned by by apply read_exec.
    by rewrite decide_True.
  - erewrite hostM_bind_returned.
    + apply IH; [intros c' ?; apply Hall; lia |].
      exists c, l. split; [|done].
      destruct (decide (c = i)) as [->|]; [|lia]. simplify_eq. lia.
    + unfold check_levels. erewrite hostM_bind_returned by by apply read_exec.
      by rewrite decide_False.
Qed.

Lemma check_levels_all levels (s : S) :
  Forall (λ l, 2 ≤ l)%Z levels →
  for_channels (seq 0 (length levels)) (check_levels levels) () s = returned () s.
Proof.
  intros Hall. apply check_levels_pass. intros c Hc.
  destruct (lookup_lt_is_Some_2 levels c) as [l Hl]; [lia |].
  exists l. split; [done |]. by eapply (proj1 (Forall_lookup _ _) Hall).
Qed.

Lemma check_levels_some levels (s : S) :
  Exists (λ l, l < 2)%Z levels →
  for_channels (seq 0 (length levels)) (check_levels levels) () s
  = threw levels_message s.
Proof.
  intros Hex. apply check_levels_fail.
  - intros c Hc. apply lookup_lt_is_Some_2. lia.
  - apply Exists_exists in Hex as (l & Hin & Hlt).
    apply list_elem_of_lookup in Hin as [c Hc]. exists c, l.
    split; [|done]. apply lookup_lt_Some in Hc. lia.
Qed.

Lemma uint_add_l a b : uint (uint a + b) = uint (a + b).
Proof. unfold uint. by rewrite Zplus_mod_idemp_l. Qed.

Lemma largest_bins_nonneg bs : (0 ≤ largest_bins bs)%Z.
Proof. unfold largest_bins. induction bs as [|b bs IH]; cbn [foldr]; lia. Qed.

Lemma uint_uint a : uint (uint a) = uint a.
Proof. unfold uint. by rewrite Zmod_mod. Qed.

Lemma count_bins_exec levels i n acc (s : S) :
  (∀ c, i ≤ c < i + n → is_Some (levels !! c)) →
  uint (total_bins acc) = total_bins acc →
  (0 ≤ max_bins acc)%Z →
  for_channels (seq i n) (count_bins levels) acc s
  = returned
      (BinCounts
         (bins acc ++ channel_bins (take n (drop i levels)))
         (bins_bits acc
          ++ (log2_next_power_of_two <$> channel_bins (take n (drop i levels))))
         (uint (total_bins acc + sum_bins (channel_bins (take n (drop i levels)))))
         (Z.max (max_bins acc)
            (largest_bins (channel_bins (take n (drop i levels))))))
      s.
Proof.
  revert i acc. induction n as [|n IH]; intros i acc Hall Htotal Hmax.
  - destruct acc as [bs bits total largest]. cbn [total_bins max_bins] in *.
    cbn [seq for_channels]. rewrite take_0. unfold channel_bins, sum_bins, largest_bins.
    cbn [fmap list_fmap foldr bins bins_bits total_bins max_bins].
    rewrite !app_nil_r, Z.add_0_r, Htotal. unfold mret, hostM_ret.
    do 2 f_equal. lia.
  - destruct (Hall i) as [l Hl]; [lia |].
    cbn [seq for_channels].
    erewrite hostM_bind_returned; cycle 1.
    { unfold count_bins. erewrite hostM_bind_returned by by apply read_exec.
      reflexivity. }
    rewrite IH; cbn [bins bins_bits total_bins max_bins].
    + rewrite (drop_S _ _ _ Hl). cbn [take channel_bins fmap list_fmap].
      unfold channel_bins, sum_bins, largest_bins. cbn [fmap list_fmap foldr].
      rewrite <- !(assoc_L (++)). cbn [app]. f_equal. f_equal.
      * rewrite uint_add_l. f_equal. lia.
      * lia.
    + intros c ?. apply Hall. lia.
    + apply uint_uint.
    + lia.
Qed.

Lemma count_bins_all levels (s : S) :
  for_channels (seq 0 (length levels)) (count_bins levels) (BinCounts [] [] 0 0) s
  = returned
      (BinCounts (channel_bins levels)
         (log2_next_power_of_two <$> channel_bins levels)
         (uint (sum_bins (channel_bins levels)))
         (largest_bins (channel_bins levels)))
      s.
Proof.
  rewrite count_bins_exec; cbn [bins bins_bits total_bins max_bins].
  - rewrite drop_0, firstn_all. cbn [app]. do 2 f_equal.
    pose proof (largest_bins_nonneg (channel_bins levels)). lia.
  - intros c ?. apply lookup_lt_is_Some_2. lia.
  - done.
  - done.
Qed.

Lemma captured_channel_lt ActiveChannels i :
  0 < ActiveChannels → (0 ≤ i)%Z → captured_channel ActiveChannels i < ActiveChannels.
Proof.
  intros HA Hi. unfold captured_channel, uint.
  pose proof (Z.mod_le (Z.of_nat ActiveChannels - 1) (2 ^ 32)). lia.
Qed.

End host_calls.

Section histogram_launches.
Context {SampleIterator CounterPtr SampleToBinOp : Type}.
Variable ceiling_div : Z → Z → Z.
Variable sizeof_sample_type : Z.
Local Open Scope Z_scope.

Local Abbreviation impl := (histogram_impl (SampleIterator := SampleIterator)
  (CounterPtr := CounterPtr) (SampleToBinOp := SampleToBinOp)
  ceiling_div sizeof_sample_type).

(** The launches of a call with temporary storage and valid arguments. *)
Lemma histogram_impl_exec Channels ActiveChannels address samples columns rows
    row_stride_bytes histogram levels sample_to_bin_op s :
  length levels = ActiveChannels →
  length sample_to_bin_op = ActiveChannels →
  (0 < ActiveChannels)%nat →
  Forall (λ l, 2 ≤ l) levels →
  row_stride_bytes `mod` sizeof_sample_type = 0 →
  ∃ op0 op1 op2 op3,
    sample_to_bin_op !! captured_channel ActiveChannels 0 = Some op0
    ∧ sample_to_bin_op !! captured_channel ActiveChannels 1 = Some op1
    ∧ sample_to_bin_op !! captured_channel ActiveChannels 2 = Some op2
    ∧ sample_to_bin_op !! captured_channel ActiveChannels 3 = Some op3
    ∧ impl Channels ActiveChannels (Some address) samples columns rows
        row_stride_bytes histogram levels sample_to_bin_op s
      = let bins := channel_bins levels in
        let blocks_x := uint (ceiling_div columns items_per_block) in
        let row_stride := uint (row_stride_bytes / sizeof_sample_type) in
        let ops := [op0; op1; op2; op3] in
        let init :=
          Launch
            (TiledExtent
               [uint (ceiling_div (largest_bins bins) block_size * block_size)]
               [block_size] 0)
            (init_histogram block_size (Z.of_nat ActiveChannels) histogram bins) in
        if decide (uint (sum_bins bins) ≤ shared_impl_max_bins)
        then
          if decide (Z.min max_grid_size blocks_x = 0) then undefined
          else
            returned ()
              (Host (storage_size s)
                 (launched s
                  ++ [init;
                      Launch
                        (TiledExtent
                           [Z.min rows (max_grid_size / Z.min max_grid_size blocks_x);
                            uint (Z.min max_grid_size blocks_x * block_size)]
                           [1; block_size]
                           (size_t (uint (sum_bins bins) * sizeof_unsigned_int)))
                        (histogram_shared block_size items_per_thread
                           (Z.of_nat Channels) (Z.of_nat ActiveChannels)
                           samples columns rows row_stride histogram ops bins)]))
        else
          returned ()
            (Host (storage_size s)
               (launched s
                ++ [init;
                    Launch
                      (TiledExtent [rows; uint (blocks_x * block_size)]
                         [1; block_size] 0)
                      (histogram_global block_size items_per_thread
                         (Z.of_nat Channels) (Z.of_nat ActiveChannels)
                         samples columns row_stride histogram ops
                         (log2_next_power_of_two <$> bins))])).
Proof.
  intros Hlevels Hops HA Hall Hstride.
  assert (∀ i, 0 ≤ i → is_Some (sample_to_bin_op !! captured_channel ActiveChannels i))
    as Hcap.
  { intros i Hi. apply lookup_lt_is_Some_2. rewrite Hops.
    by apply captured_channel_lt. }
  destruct (Hcap 0) as [op0 Hop0]; [lia |].
  destruct (Hcap 1) as [op1 Hop1]; [lia |].
  destruct (Hcap 2) as [op2 Hop2]; [lia |].
  destruct (Hcap 3) as [op3 Hop3]; [lia |].
  exists op0, op1, op2, op3. do 4 (split; [done |]).
  unfold histogram_impl. subst ActiveChannels.
  erewrite hostM_bind_returned by by apply check_levels_all.
  rewrite decide_False by (intros Hne; by apply Hne).
  erewrite hostM_bind_returned by apply count_bins_all.
  cbn [bins bins_bits total_bins max_bins].
  do 4 (erewrite hostM_bind_returned by by apply read_exec).
  erewrite hostM_bind_returned by reflexivity.
  cbn zeta. case_decide.
  - unfold mbind, hostM_bind, unsigned_div. case_decide; [done |].
    unfold parallel_for_each. cbn [storage_size launched].
    by rewrite <- (assoc_L (++)).
  - unfold parallel_for_each. cbn [storage_size launched].
    by rewrite <- (assoc_L (++)).
Qed.

(** When and what [histogram_impl] throws. *)
Lemma histogram_impl_threw Channels ActiveChannels temporary_storage samples
    columns rows row_stride_bytes histogram levels sample_to_bin_op s what s' :
  length levels = ActiveChannels →
  impl Channels ActiveChannels temporary_storage samples columns rows
    row_stride_bytes histogram levels sample_to_bin_op s = threw what s'
  ↔ s' = s
    ∧ ((what = levels_message ∧ Exists (λ l, l < 2) levels)
       ∨ (what = row_stride_message ∧ Forall (λ l, 2 ≤ l) levels
          ∧ row_stride_bytes `mod` sizeof_sample_type ≠ 0)).
Proof.
  intros <-. unfold histogram_impl.
  destruct (decide (Exists (λ l, l < 2) levels)) as [Hex|Hall].
  - erewrite hostM_bind_threw by by apply check_levels_some. split.
    + intros [= <- <-]. eauto.
    + intros (-> & [[-> _]|(_ & Hall & _)]); [done |].
      apply Exists_exists in Hex as (l & Hin & Hlt).
      apply (proj1 (Forall_forall _ _) Hall) in Hin. lia.
  - apply not_Exists_Forall in Hall; [|apply _].
    assert (Forall (λ l, 2 ≤ l) levels) as Hall'.
    { eapply Forall_impl; [exact Hall |]. cbn. intros l ?. lia. }
    erewrite hostM_bind_returned by by apply check_levels_all.
    case_decide as Hstride.
    + split.
      * intros [= <- <-]. eauto.
      * intros (-> & [[_ Hex]|(-> & _)]); [|done].
        apply Exists_exists in Hex as (l & Hin & Hlt).
        apply (proj1 (Forall_forall _ _) Hall') in Hin. lia.
    + split.
      * intros Hthrew. exfalso. revert Hthrew. cbn zeta.
        destruct temporary_storage; [|done].
        apply never_throws_bind.
        { apply never_throws_for_channels. intros acc c.
          apply never_throws_bind;
            [apply never_throws_read | intros ?; apply never_throws_ret]. }
        intros counts.
        do 4 (apply never_throws_bind; [apply never_throws_read | intros ?]).
        apply never_throws_bind; [done | intros []].
        case_decide; [|done].
        apply never_throws_bind; [apply never_throws_divide | done].
      * intros (_ & [[_ Hex]|(_ & _ & ?)]); [|done].
        apply Exists_exists in Hex as (l & Hin & Hlt).
        apply (proj1 (Forall_forall _ _) Hall') in Hin. lia.
Qed.

End histogram_launches.

Lemma captured_channel_small ActiveChannels i :
  0 < ActiveChannels ≤ 4 → i < 4 →
  captured_channel ActiveChannels (Z.of_nat i) = Nat.min i (ActiveChannels - 1).
Proof.
  intros HA Hi. unfold captured_channel, uint.
  rewrite Z.mod_small by lia. lia.
Qed.

Section functor_loops.
Context {State Level : Type}.

Lemma make_sample_to_bin_even_exec levels (lower_level upper_level : list Level)
    i n acc (s : State) :
  (∀ c, i ≤ c < i + n →
     is_Some (levels !! c) ∧ is_Some (lower_level !! c)
     ∧ is_Some (upper_level !! c)) →
  ∃ ops,
    for_channels (seq i n)
      (make_sample_to_bin_even levels lower_level upper_level) acc s
    = returned (acc ++ ops) s
    ∧ length ops = n
    ∧ ∀ k l lower upper,
        k < n → levels !! (i + k) = Some l →
        lower_level !! (i + k) = Some lower →
        upper_level !! (i + k) = Some upper →
        ops !! k = Some (Sample_to_bin_even (uint (l - 1)) lower upper).
Proof.
  revert i acc. induction n as [|n IH]; intros i acc Hall.
  - exists []. rewrite app_nil_r. split; [done |]. split; [done |]. lia.
  - destruct (Hall i) as ([l Hl] & [lo Hlo] & [up Hup]); [lia |].
    destruct (IH (S i) (acc ++ [Sample_to_bin_even (uint (l - 1)) lo up]))
      as (ops & Hrun & Hlen & Hops).
    { intros c ?. apply Hall. lia. }
    exists (Sample_to_bin_even (uint (l - 1)) lo up :: ops).
    split; [|split].
    + cbn [seq for_channels]. erewrite hostM_bind_returned; cycle 1.
      { unfold make_sample_to_bin_even.
        do 3 (erewrite hostM_bind_returned by by apply read_exec).
        reflexivity. }
      by rewrite Hrun, <- (assoc_L (++)).
    + cbn. by rewrite Hlen.
    + intros [|k] l' lo' up' Hk Hl' Hlo' Hup'.
      * rewrite Nat.add_0_r in *. by simplify_eq.
      * cbn. apply Hops; [lia | | |];
          by replace (S i + k)%nat with (i + S k)%nat by lia.
Qed.

Lemma make_sample_to_bin_range_exec levels (level_values : list Level)
    i n acc (s : State) :
  (∀ c, i ≤ c < i + n →
     is_Some (levels !! c) ∧ is_Some (level_values !! c)) →
  ∃ ops,
    for_channels (seq i n) (make_sample_to_bin_range levels level_values) acc s
    = returned (acc ++ ops) s
    ∧ length ops = n
    ∧ ∀ k l values,
        k < n → levels !! (i + k) = Some l →
        level_values !! (i + k) = Some values →
        ops !! k = Some (Sample_to_bin_range (uint (l - 1)) values).
Proof.
  revert i acc. induction n as [|n IH]; intros i acc Hall.
  - exists []. rewrite app_nil_r. split; [done |]. split; [done |]. lia.
  - destruct (Hall i) as ([l Hl] & [vs Hvs]); [lia |].
    destruct (IH (S i) (acc ++ [Sample_to_bin_range (uint (l - 1)) vs]))
      as (ops & Hrun & Hlen & Hops).
    { intros c ?. apply Hall. lia. }
    exists (Sample_to_bin_range (uint (l - 1)) vs :: ops).
    split; [|split].
    + cbn [seq for_channels]. erewrite hostM_bind_returned; cycle 1.
      { unfold make_sample_to_bin_range.
        do 2 (erewrite hostM_bind_returned by by apply read_exec).
        reflexivity. }
      by rewrite Hrun, <- (assoc_L (++)).
    + cbn. by rewrite Hlen.
    + intros [|k] l' vs' Hk Hl' Hvs'.
      * rewrite Nat.add_0_r in *. by simplify_eq.
      * cbn. apply Hops; [lia | |];
          by replace (S i + k)%nat with (i + S k)%nat by lia.
Qed.

End functor_loops.

(** What a successful launching call of [histogram_impl] hands to its
    kernels. *)
Lemma histogram_impl_captured {SampleIterator CounterPtr SampleToBinOp : Type}
    (ceiling_div : Z → Z → Z) (sizeof_sample_type : Z)
    (Channels ActiveChannels : nat) (address : Z) (samples : SampleIterator)
    (columns rows row_stride_bytes : Z)
    (histogram : list CounterPtr) (levels : list Z)
    (sample_to_bin_op : list SampleToBinOp)
    (s : host (kernel_call SampleIterator CounterPtr SampleToBinOp)) :
  length levels = ActiveChannels →
  length sample_to_bin_op = ActiveChannels →
  0 < ActiveChannels ≤ 4 →
  Forall (λ l, 2 ≤ l)%Z levels →
  (row_stride_bytes `mod` sizeof_sample_type = 0)%Z →
  ((uint (sum_bins (channel_bins levels)) ≤ shared_impl_max_bins)%Z →
   uint (ceiling_div columns items_per_block) ≠ 0%Z) →
  ∃ init second,
    histogram_impl ceiling_div sizeof_sample_type Channels ActiveChannels
      (Some address) samples columns rows row_stride_bytes histogram levels
      sample_to_bin_op s
    = returned () (Host (storage_size s) (launched s ++ [init; second]))
    ∧ kernel_bins (body init) = channel_bins levels
    ∧ length (kernel_sample_to_bin_op (body second)) = 4
    ∧ (∀ c, c < ActiveChannels →
         kernel_sample_to_bin_op (body second) !! c = sample_to_bin_op !! c)
    ∧ (∀ i, ActiveChannels ≤ i < 4 →
         kernel_sample_to_bin_op (body second) !! i
         = sample_to_bin_op !! (ActiveChannels - 1)).
Proof.
  intros Hlevels Hops HA Hall Hstride Hblocks.
  destruct (histogram_impl_exec ceiling_div sizeof_sample_type Channels
              ActiveChannels address samples columns rows row_stride_bytes
              histogram levels sample_to_bin_op s)
    as (op0 & op1 & op2 & op3 & Hop0 & Hop1 & Hop2 & Hop3 & Hrun);
    [done | done | lia | done | done |].
  pose proof (captured_channel_small ActiveChannels 0 HA) as E0.
  pose proof (captured_channel_small ActiveChannels 1 HA) as E1.
  pose proof (captured_channel_small ActiveChannels 2 HA) as E2.
  pose proof (captured_channel_small ActiveChannels 3 HA) as E3.
  change (Z.of_nat 0) with 0%Z in E0. change (Z.of_nat 1) with 1%Z in E1.
  change (Z.of_nat 2) with 2%Z in E2. change (Z.of_nat 3) with 3%Z in E3.
  rewrite E0 in Hop0 by lia. rewrite E1 in Hop1 by lia.
  rewrite E2 in Hop2 by lia. rewrite E3 in Hop3 by lia.
  assert (∀ k, k < 4 →
            [op0; op1; op2; op3] !! k
            = sample_to_bin_op !! Nat.min k (ActiveChannels - 1)) as Hcaptured.
  { intros [|[|[|[|k]]]] Hk; cbn [lookup list_lookup]; try done. lia. }
  cbn zeta in Hrun. rewrite Hrun. clear Hrun.
  case_decide as Htotal.
  - rewrite decide_False.
    + eexists _, _. split; [reflexivity |]. cbn [body kernel_bins kernel_sample_to_bin_op].
      split; [done |]. split; [done |]. split.
      * intros c Hc. rewrite Hcaptured by lia. f_equal. lia.
      * intros i Hi. rewrite Hcaptured by lia. f_equal. lia.
    + specialize (Hblocks Htotal). unfold max_grid_size. lia.
  - eexists _, _. split; [reflexivity |]. cbn [body kernel_bins kernel_sample_to_bin_op].
    split; [done |]. split; [done |]. split.
    * intros c Hc. rewrite Hcaptured by lia. f_equal. lia.
    * intros i Hi. rewrite Hcaptured by lia. f_equal. lia.
Qed.

Lemma uint_whole_tiles c : (uint (c * block_size) `mod` block_size = 0)%Z.
Proof.
  unfold uint, block_size.
  change (2 ^ 32)%Z with (2 ^ 24 * 256)%Z.
  rewrite Z.mul_mod_distr_r by lia. apply Z_mod_mult.
Qed.

Lemma uint_range a : (0 ≤ uint a < 2 ^ 32)%Z.
Proof. unfold uint. apply Z.mod_pos_bound. lia. Qed.

(** * Main results on the histogram host code *)

Local Open Scope Z_scope.

(** X7. [histogram_impl] throws the exception ["`levels` must be at least 2"]
    exactly when some channel has fewer than 2 levels: the check comes before
    every other one, so that neither a bad row stride, nor a size query, nor
    any other argument changes the outcome, and the state of the caller is
    as before the call. *)
Theorem levels_checked_first {SampleIterator CounterPtr SampleToBinOp : Type}
    (ceiling_div : Z → Z → Z) (sizeof_sample_type : Z)
    (Channels ActiveChannels : nat)
    (temporary_storage : option Z) (samples : SampleIterator)
    (columns rows row_stride_bytes : Z)
    (histogram : list CounterPtr) (levels : list Z)
    (sample_to_bin_op : list SampleToBinOp)
    (s : host (kernel_call SampleIterator CounterPtr SampleToBinOp)) :
  length levels = ActiveChannels →
  Exists (λ l, l < 2) levels
  ↔ histogram_impl ceiling_div sizeof_sample_type Channels ActiveChannels
      temporary_storage samples columns rows row_stride_bytes histogram levels
      sample_to_bin_op s
    = threw levels_message s.
Proof.
  intros Hlevels. rewrite histogram_impl_threw by done. split.
  - eauto.
  - by intros (_ & [[_ ?]|[? _]]).
Qed.

Lemma levels_checked_first_witness :
  histogram_impl example_ceiling_div 4 2 2 (None : option Z) (1000 : Z) 5000 3 7
    [2000; 3000] [5; 1] [(7 : Z); 8] example_host
  = threw levels_message example_host.
Proof.
  apply (proj1 (levels_checked_first example_ceiling_div 4 2 2 None 1000 5000 3 7
                  [2000; 3000] [5; 1] [7; 8] example_host eq_refl)).
  apply Exists_cons_tl, Exists_cons_hd. lia.
Defined.

(** X8. [histogram_impl] throws the exception about the row stride exactly
    when every channel has at least 2 levels and [row_stride_bytes] is not a
    whole multiple of [sizeof(sample_type)]; the state of the caller is as
    before the call. *)
Theorem row_stride_checked_second {SampleIterator CounterPtr SampleToBinOp : Type}
    (ceiling_div : Z → Z → Z) (sizeof_sample_type : Z)
    (Channels ActiveChannels : nat)
    (temporary_storage : option Z) (samples : SampleIterator)
    (columns rows row_stride_bytes : Z)
    (histogram : list CounterPtr) (levels : list Z)
    (sample_to_bin_op : list SampleToBinOp)
    (s : host (kernel_call SampleIterator CounterPtr SampleToBinOp)) :
  length levels = ActiveChannels →
  (Forall (λ l, 2 ≤ l) levels ∧ row_stride_bytes `mod` sizeof_sample_type ≠ 0)
  ↔ histogram_impl ceiling_div sizeof_sample_type Channels ActiveChannels
      temporary_storage samples columns rows row_stride_bytes histogram levels
      sample_to_bin_op s
    = threw row_stride_message s.
Proof.
  intros Hlevels. rewrite histogram_impl_threw by done. split.
  - intros [? ?]. eauto.
  - by intros (_ & [[? _]|(_ & ? & ?)]).
Qed.

Lemma row_stride_checked_second_witness :
  histogram_impl example_ceiling_div 4 2 2 (None : option Z) (1000 : Z) 5000 3 7
    [2000; 3000] [5; 9] [(7 : Z); 8] example_host
  = threw row_stride_message example_host.
Proof.
  apply (proj1 (row_stride_checked_second example_ceiling_div 4 2 2 None 1000
                  5000 3 7 [2000; 3000] [5; 9] [7; 8] example_host eq_refl)).
  split; [|done].
  apply Forall_cons_2; [cbn; lia |]. apply Forall_cons_2; [cbn; lia |].
  apply Forall_nil_2.
Defined.

(** X9. [histogram_impl] throws nothing but these two exceptions, and it
    throws before it has any effect: [storage_size] is not written and no
    kernel is launched. *)
Theorem throws_before_any_effect {SampleIterator CounterPtr SampleToBinOp : Type}
    (ceiling_div : Z → Z → Z) (sizeof_sample_type : Z)
    (Channels ActiveChannels : nat)
    (temporary_storage : option Z) (samples : SampleIterator)
    (columns rows row_stride_bytes : Z)
    (histogram : list CounterPtr) (levels : list Z)
    (sample_to_bin_op : list SampleToBinOp)
    (s s' : host (kernel_call SampleIterator CounterPtr SampleToBinOp))
    (what : string) :
  length levels = ActiveChannels →
  histogram_impl ceiling_div sizeof_sample_type Channels ActiveChannels
    temporary_storage samples columns rows row_stride_bytes histogram levels
    sample_to_bin_op s
  = threw what s' →
  s' = s ∧ (what = levels_message ∨ what = row_stride_message).
Proof.
  intros Hlevels Hthrew. apply histogram_impl_threw in Hthrew; [|done].
  destruct Hthrew as (-> & [[-> _]|[-> _]]); eauto.
Qed.

Lemma throws_before_any_effect_witness :
  (example_host : host (kernel_call Z Z Z)) = example_host
  ∧ (row_stride_message = levels_message
     ∨ row_stride_message = row_stride_message).
Proof.
  apply (throws_before_any_effect example_ceiling_div 4 2 2 (Some 64) (1000 : Z)
           5000 3 7 [2000; 3000] [5; 9] [(7 : Z); 8] example_host example_host
           row_stride_message eq_refl).
  reflexivity.
Defined.

(** X10. A call with a null [temporary_storage] and valid arguments is a size
    query: it sets [storage_size] to 4, whatever the samples, the sizes and the
    number of bins, and launches nothing. *)
Theorem size_query {SampleIterator CounterPtr SampleToBinOp : Type}
    (ceiling_div : Z → Z → Z) (sizeof_sample_type : Z)
    (Channels ActiveChannels : nat) (samples : SampleIterator)
    (columns rows row_stride_bytes : Z)
    (histogram : list CounterPtr) (levels : list Z)
    (sample_to_bin_op : list SampleToBinOp)
    (s : host (kernel_call SampleIterator CounterPtr SampleToBinOp)) :
  length levels = ActiveChannels →
  Forall (λ l, 2 ≤ l) levels →
  row_stride_bytes `mod` sizeof_sample_type = 0 →
  histogram_impl ceiling_div sizeof_sample_type Channels ActiveChannels
    None samples columns rows row_stride_bytes histogram levels
    sample_to_bin_op s
  = returned () (Host 4 (launched s)).
Proof.
  intros <- Hall Hstride. unfold histogram_impl.
  erewrite hostM_bind_returned by by apply check_levels_all.
  by rewrite decide_False by (intros Hne; by apply Hne).
Qed.

Lemma size_query_witness :
  histogram_impl example_ceiling_div 4 2 2 None (1000 : Z) 5000 3 8
    [2000; 3000] [5; 9] [(7 : Z); 8] example_host
  = returned () (Host 4 []).
Proof.
  apply (size_query example_ceiling_div 4 2 2 1000 5000 3 8
           [2000; 3000] [5; 9] [7; 8] example_host eq_refl); [|reflexivity].
  apply Forall_cons_2; [cbn; lia |]. apply Forall_cons_2; [cbn; lia |].
  apply Forall_nil_2.
Defined.

(** X11. With temporary storage and valid arguments a call leaves
    [storage_size] alone and launches exactly two kernels: [init_histogram]
    over the bins of the largest channel rounded up to whole blocks, then
    [histogram_shared] when the bins of all channels together (added in
    32-bit arithmetic) number at most 1024, and [histogram_global]
    otherwise.  The bin counts handed to [init_histogram] are
    [levels[channel] - 1]. *)
Theorem launches_two_kernels {SampleIterator CounterPtr SampleToBinOp : Type}
    (ceiling_div : Z → Z → Z) (sizeof_sample_type : Z)
    (Channels ActiveChannels : nat) (address : Z) (samples : SampleIterator)
    (columns rows row_stride_bytes : Z)
    (histogram : list CounterPtr) (levels : list Z)
    (sample_to_bin_op : list SampleToBinOp)
    (s : host (kernel_call SampleIterator CounterPtr SampleToBinOp)) :
  length levels = ActiveChannels →
  length sample_to_bin_op = ActiveChannels →
  (0 < ActiveChannels)%nat →
  Forall (λ l, 2 ≤ l) levels →
  row_stride_bytes `mod` sizeof_sample_type = 0 →
  (uint (sum_bins (channel_bins levels)) ≤ shared_impl_max_bins →
   uint (ceiling_div columns items_per_block) ≠ 0) →
  ∃ init second,
    histogram_impl ceiling_div sizeof_sample_type Channels ActiveChannels
      (Some address) samples columns rows row_stride_bytes histogram levels
      sample_to_bin_op s
    = returned () (Host (storage_size s) (launched s ++ [init; second]))
    ∧ grid init
      = TiledExtent
          [uint (ceiling_div (largest_bins (channel_bins levels)) block_size
                 * block_size)]
          [block_size] 0
    ∧ body init
      = init_histogram block_size (Z.of_nat ActiveChannels) histogram
          (channel_bins levels)
    ∧ (if decide (uint (sum_bins (channel_bins levels)) ≤ shared_impl_max_bins)
       then is_histogram_shared (body second) = true
       else is_histogram_global (body second) = true
            ∧ grid second
              = TiledExtent
                  [rows;
                   uint (uint (ceiling_div columns items_per_block) * block_size)]
                  [1; block_size] 0).
Proof.
  intros Hlevels Hops HA Hall Hstride Hblocks.
  destruct (histogram_impl_exec ceiling_div sizeof_sample_type Channels
              ActiveChannels address samples columns rows row_stride_bytes
              histogram levels sample_to_bin_op s)
    as (op0 & op1 & op2 & op3 & _ & _ & _ & _ & Hrun); try done.
  cbn zeta in Hrun. rewrite Hrun. clear Hrun.
  case_decide as Htotal.
  - rewrite decide_False.
    + eexists _, _. split; [reflexivity |]. done.
    + specialize (Hblocks Htotal). unfold max_grid_size. lia.
  - eexists _, _. split; [reflexivity |]. done.
Qed.

Lemma launches_two_kernels_witness :
  ∃ init second,
    histogram_impl example_ceiling_div 4 2 2 (Some 64) (1000 : Z) 5000 3 8
      [2000; 3000] [5; 9] [(7 : Z); 8] example_host
    = returned () (Host 123 [init; second])
    ∧ grid init = TiledExtent [256] [block_size] 0
    ∧ body init = init_histogram block_size 2 [2000; 3000] [4; 8]
    ∧ is_histogram_shared (body second) = true.
Proof.
  apply (launches_two_kernels example_ceiling_div 4 2 2 64 1000 5000 3 8
           [2000; 3000] [5; 9] [7; 8] example_host eq_refl eq_refl);
    [lia | | reflexivity | intros _; vm_compute; lia].
  apply Forall_cons_2; [cbn; lia |]. apply Forall_cons_2; [cbn; lia |].
  apply Forall_nil_2.
Defined.

(** X12. The launch of [histogram_shared] stays within the limits of the
    code: at least one and at most 1024 blocks along a row, no more rows of
    blocks than rows of samples, at most 1024 blocks in all, no wrap-around in
    the extent, and a dynamic group segment of 4 bytes per bin, at most 4096
    bytes. *)
Theorem shared_grid_bounds {SampleIterator CounterPtr SampleToBinOp : Type}
    (ceiling_div : Z → Z → Z) (sizeof_sample_type : Z)
    (Channels ActiveChannels : nat) (address : Z) (samples : SampleIterator)
    (columns rows row_stride_bytes : Z)
    (histogram : list CounterPtr) (levels : list Z)
    (sample_to_bin_op : list SampleToBinOp)
    (s : host (kernel_call SampleIterator CounterPtr SampleToBinOp)) :
  length levels = ActiveChannels →
  length sample_to_bin_op = ActiveChannels →
  (0 < ActiveChannels)%nat →
  Forall (λ l, 2 ≤ l) levels →
  row_stride_bytes `mod` sizeof_sample_type = 0 →
  0 ≤ rows →
  uint (sum_bins (channel_bins levels)) ≤ shared_impl_max_bins →
  uint (ceiling_div columns items_per_block) ≠ 0 →
  ∃ init shared grid_size_x grid_size_y,
    histogram_impl ceiling_div sizeof_sample_type Channels ActiveChannels
      (Some address) samples columns rows row_stride_bytes histogram levels
      sample_to_bin_op s
    = returned () (Host (storage_size s) (launched s ++ [init; shared]))
    ∧ is_histogram_shared (body shared) = true
    ∧ grid shared
      = TiledExtent [grid_size_y; grid_size_x * block_size] [1; block_size]
          (4 * uint (sum_bins (channel_bins levels)))
    ∧ 1 ≤ grid_size_x ≤ max_grid_size
    ∧ 0 ≤ grid_size_y ≤ rows
    ∧ grid_size_x * grid_size_y ≤ max_grid_size
    ∧ 4 * uint (sum_bins (channel_bins levels)) ≤ 4096.
Proof.
  intros Hlevels Hops HA Hall Hstride Hrows Htotal Hblocks.
  destruct (histogram_impl_exec ceiling_div sizeof_sample_type Channels
              ActiveChannels address samples columns rows row_stride_bytes
              histogram levels sample_to_bin_op s)
    as (op0 & op1 & op2 & op3 & _ & _ & _ & _ & Hrun); try done.
  cbn zeta in Hrun. rewrite Hrun. clear Hrun.
  pose proof (uint_range (ceiling_div columns items_per_block)) as Hx.
  pose proof (uint_range (sum_bins (channel_bins levels))) as Ht.
  unfold shared_impl_max_bins, max_grid_size, sizeof_unsigned_int in *.
  rewrite decide_True by done. rewrite decide_False by lia.
  set (gx := 1024 `min` uint (ceiling_div columns items_per_block)).
  assert (1 ≤ gx ≤ 1024) as Hgx by (unfold gx; lia).
  pose proof (Z.mul_div_le 1024 gx) as Hmul.
  pose proof (Z.div_pos 1024 gx) as Hdiv.
  eexists _, _, gx, (rows `min` (1024 `div` gx)).
  split; [reflexivity |]. cbn [body grid]. split; [done |].
  split; [|split; [done |]; split; [lia |]; split; [nia | lia]].
  f_equal.
  - unfold uint, block_size. rewrite Z.mod_small by lia. done.
  - unfold size_t. rewrite Z.mod_small by lia. lia.
Qed.

Lemma shared_grid_bounds_witness :
  ∃ init shared grid_size_x grid_size_y,
    histogram_impl example_ceiling_div 4 2 2 (Some 64) (1000 : Z) 5000 3 8
      [2000; 3000] [5; 9] [(7 : Z); 8] example_host
    = returned () (Host 123 [init; shared])
    ∧ is_histogram_shared (body shared) = true
    ∧ grid shared
      = TiledExtent [grid_size_y; grid_size_x * block_size] [1; block_size]
          (4 * uint (sum_bins (channel_bins [5; 9])))
    ∧ 1 ≤ grid_size_x ≤ max_grid_size
    ∧ 0 ≤ grid_size_y ≤ 3
    ∧ grid_size_x * grid_size_y ≤ max_grid_size
    ∧ 4 * uint (sum_bins (channel_bins [5; 9])) ≤ 4096.
Proof.
  apply (shared_grid_bounds example_ceiling_div 4 2 2 64 1000 5000 3 8
           [2000; 3000] [5; 9] [7; 8] example_host eq_refl eq_refl);
    [lia | | reflexivity | lia | vm_compute; discriminate | vm_compute; lia].
  apply Forall_cons_2; [cbn; lia |]. apply Forall_cons_2; [cbn; lia |].
  apply Forall_nil_2.
Defined.

(** X13. When [ceiling_div(columns, items_per_block)] is 0, as for a row
    without samples, and the bins fit the shared-memory kernel, a call with
    temporary storage and otherwise valid arguments divides by zero in
    [max_grid_size / grid_size_x]: its behaviour is undefined. *)
Theorem no_blocks_divides_by_zero {SampleIterator CounterPtr SampleToBinOp : Type}
    (ceiling_div : Z → Z → Z) (sizeof_sample_type : Z)
    (Channels ActiveChannels : nat) (address : Z) (samples : SampleIterator)
    (columns rows row_stride_bytes : Z)
    (histogram : list CounterPtr) (levels : list Z)
    (sample_to_bin_op : list SampleToBinOp)
    (s : host (kernel_call SampleIterator CounterPtr SampleToBinOp)) :
  length levels = ActiveChannels →
  length sample_to_bin_op = ActiveChannels →
  (0 < ActiveChannels)%nat →
  Forall (λ l, 2 ≤ l) levels →
  row_stride_bytes `mod` sizeof_sample_type = 0 →
  uint (sum_bins (channel_bins levels)) ≤ shared_impl_max_bins →
  uint (ceiling_div columns items_per_block) = 0 →
  histogram_impl ceiling_div sizeof_sample_type Channels ActiveChannels
    (Some address) samples columns rows row_stride_bytes histogram levels
    sample_to_bin_op s
  = undefined.
Proof.
  intros Hlevels Hops HA Hall Hstride Htotal Hblocks.
  destruct (histogram_impl_exec ceiling_div sizeof_sample_type Channels
              ActiveChannels address samples columns rows row_stride_bytes
              histogram levels sample_to_bin_op s)
    as (op0 & op1 & op2 & op3 & _ & _ & _ & _ & Hrun); try done.
  cbn zeta in Hrun. rewrite Hrun. clear Hrun.
  rewrite decide_True by done. rewrite Hblocks. by rewrite decide_True.
Qed.

Lemma no_blocks_divides_by_zero_witness :
  histogram_impl example_ceiling_div 4 1 1 (Some 64) (1000 : Z) 0 1 0
    [2000] [5] [(7 : Z)] example_host
  = undefined.
Proof.
  apply (no_blocks_divides_by_zero example_ceiling_div 4 1 1 64 1000 0 1 0
           [2000] [5] [7] example_host eq_refl eq_refl);
    [lia | | reflexivity | vm_compute; discriminate | reflexivity].
  apply Forall_cons_2; [cbn; lia |]. apply Forall_nil_2.
Defined.

(** X14. Every kernel is launched over whole tiles: each extent of each
    grid is a multiple of the tile size in its dimension, also where the
    32-bit product that gives the extent wraps around. *)
Theorem launches_whole_tiles {SampleIterator CounterPtr SampleToBinOp : Type}
    (ceiling_div : Z → Z → Z) (sizeof_sample_type : Z)
    (Channels ActiveChannels : nat) (address : Z) (samples : SampleIterator)
    (columns rows row_stride_bytes : Z)
    (histogram : list CounterPtr) (levels : list Z)
    (sample_to_bin_op : list SampleToBinOp)
    (s : host (kernel_call SampleIterator CounterPtr SampleToBinOp)) :
  length levels = ActiveChannels →
  length sample_to_bin_op = ActiveChannels →
  (0 < ActiveChannels)%nat →
  Forall (λ l, 2 ≤ l) levels →
  row_stride_bytes `mod` sizeof_sample_type = 0 →
  (uint (sum_bins (channel_bins levels)) ≤ shared_impl_max_bins →
   uint (ceiling_div columns items_per_block) ≠ 0) →
  ∃ new,
    histogram_impl ceiling_div sizeof_sample_type Channels ActiveChannels
      (Some address) samples columns rows row_stride_bytes histogram levels
      sample_to_bin_op s
    = returned () (Host (storage_size s) (launched s ++ new))
    ∧ Forall (λ l, whole_tiles (grid l)) new.
Proof.
  intros Hlevels Hops HA Hall Hstride Hblocks.
  destruct (histogram_impl_exec ceiling_div sizeof_sample_type Channels
              ActiveChannels address samples columns rows row_stride_bytes
              histogram levels sample_to_bin_op s)
    as (op0 & op1 & op2 & op3 & _ & _ & _ & _ & Hrun); try done.
  cbn zeta in Hrun. rewrite Hrun. clear Hrun.
  assert (∀ e, (λ e t : Z, t ≠ 0 ∧ e `mod` t = 0) e 1) as Hone.
  { intros e. split; [done | apply Z.mod_1_r]. }
  assert (∀ c, (λ e t : Z, t ≠ 0 ∧ e `mod` t = 0) (uint (c * block_size)) block_size)
    as Htile.
  { intros c. split; [done | apply uint_whole_tiles]. }
  case_decide as Htotal.
  - rewrite decide_False by (specialize (Hblocks Htotal); unfold max_grid_size; lia).
    eexists. split; [reflexivity |].
    repeat apply Forall_cons_2; try apply Forall_nil_2; unfold whole_tiles;
      cbn [grid extent tile]; repeat apply Forall2_cons_2; try apply Forall2_nil_2;
      first [apply Hone | apply Htile].
  - eexists. split; [reflexivity |].
    repeat apply Forall_cons_2; try apply Forall_nil_2; unfold whole_tiles;
      cbn [grid extent tile]; repeat apply Forall2_cons_2; try apply Forall2_nil_2;
      first [apply Hone | apply Htile].
Qed.

Lemma launches_whole_tiles_witness :
  ∃ new,
    histogram_impl example_ceiling_div 4 2 2 (Some 64) (1000 : Z) 5000 3 8
      [2000; 3000] [5; 2000] [(7 : Z); 8] example_host
    = returned () (Host 123 new)
    ∧ Forall (λ l, whole_tiles (grid l)) new.
Proof.
  apply (launches_whole_tiles example_ceiling_div 4 2 2 64 1000 5000 3 8
           [2000; 3000] [5; 2000] [7; 8] example_host eq_refl eq_refl);
    [lia | | reflexivity | intros _; vm_compute; lia].
  apply Forall_cons_2; [cbn; lia |]. apply Forall_cons_2; [cbn; lia |].
  apply Forall_nil_2.
Defined.

(** X15. [histogram_even_impl] gives each active channel a functor built
    from that channel's own bin count and bounds: in the launch of the
    histogram kernel the functor at index [c] is
    [sample_to_bin_even(levels[c] - 1, lower_level[c], upper_level[c])], its
    bin count is the one [init_histogram] gets for channel [c], and the
    slots after the last active channel repeat the functor of that channel. *)
Theorem even_functors_per_channel {SampleIterator CounterPtr Level : Type}
    (ceiling_div : Z → Z → Z) (sizeof_sample_type : Z)
    (Channels ActiveChannels : nat) (address : Z) (samples : SampleIterator)
    (columns rows row_stride_bytes : Z)
    (histogram : list CounterPtr) (levels : list Z)
    (lower_level upper_level : list Level)
    (s : host (kernel_call SampleIterator CounterPtr (sample_to_bin_even Level))) :
  length levels = ActiveChannels →
  length lower_level = ActiveChannels →
  length upper_level = ActiveChannels →
  (0 < ActiveChannels ≤ 4)%nat →
  Forall (λ l, 2 ≤ l) levels →
  row_stride_bytes `mod` sizeof_sample_type = 0 →
  (uint (sum_bins (channel_bins levels)) ≤ shared_impl_max_bins →
   uint (ceiling_div columns items_per_block) ≠ 0) →
  ∃ init second,
    histogram_even_impl ceiling_div sizeof_sample_type Channels ActiveChannels
      (Some address) samples columns rows row_stride_bytes histogram levels
      lower_level upper_level s
    = returned () (Host (storage_size s) (launched s ++ [init; second]))
    ∧ (∀ c l lower upper,
         levels !! c = Some l →
         lower_level !! c = Some lower →
         upper_level !! c = Some upper →
         kernel_sample_to_bin_op (body second) !! c
         = Some (Sample_to_bin_even (uint (l - 1)) lower upper)
         ∧ kernel_bins (body init) !! c = Some (uint (l - 1)))
    ∧ (∀ i, (ActiveChannels ≤ i < 4)%nat →
         kernel_sample_to_bin_op (body second) !! i
         = kernel_sample_to_bin_op (body second) !! (ActiveChannels - 1)%nat).
Proof.
  intros Hlevels Hlower Hupper HA Hall Hstride Hblocks.
  destruct (make_sample_to_bin_even_exec levels lower_level upper_level
              0 ActiveChannels [] s) as (ops & Hloop & Hlen & Hops).
  { intros c Hc. repeat split; apply lookup_lt_is_Some_2; lia. }
  destruct (histogram_impl_captured ceiling_div sizeof_sample_type Channels
              ActiveChannels address samples columns rows row_stride_bytes
              histogram levels ops s)
    as (init & second & Hrun & Hbins & _ & Hactive & Hpadding); try done.
  exists init, second. split; [|split].
  - unfold histogram_even_impl. by erewrite hostM_bind_returned by exact Hloop.
  - intros c l lower upper Hl Hlo Hup.
    assert (c < ActiveChannels)%nat as Hc
      by (rewrite <- Hlevels; by eapply lookup_lt_Some).
    split.
    + rewrite Hactive by done. by apply Hops.
    + rewrite Hbins. unfold channel_bins. by rewrite list_lookup_fmap, Hl.
  - intros i Hi. rewrite Hpadding by done. symmetry. apply Hactive. lia.
Qed.

Lemma even_functors_per_channel_witness :
  ∃ init second,
    histogram_even_impl example_ceiling_div 4 4 3 (Some 64) (1000 : Z) 5000 3 20000
      [2000; 3000; 4000] [5; 9; 17] [(0 : Z); 10; 20] [100; 110; 120]
      example_host
    = returned () (Host 123 [init; second])
    ∧ (∀ c l lower upper,
         [5; 9; 17] !! c = Some l →
         [0; 10; 20] !! c = Some lower →
         [100; 110; 120] !! c = Some upper →
         kernel_sample_to_bin_op (body second) !! c
         = Some (Sample_to_bin_even (uint (l - 1)) lower upper)
         ∧ kernel_bins (body init) !! c = Some (uint (l - 1)))
    ∧ (∀ i, (3 ≤ i < 4)%nat →
         kernel_sample_to_bin_op (body second) !! i
         = kernel_sample_to_bin_op (body second) !! (3 - 1)%nat).
Proof.
  apply (even_functors_per_channel example_ceiling_div 4 4 3 64 1000 5000 3 20000
           [2000; 3000; 4000] [5; 9; 17] [0; 10; 20] [100; 110; 120]
           example_host eq_refl eq_refl eq_refl);
    [lia | | reflexivity | intros _; vm_compute; lia].
  repeat (apply Forall_cons_2; [cbn; lia |]). apply Forall_nil_2.
Defined.

(** X16. [histogram_range_impl] gives each active channel a functor built
    from that channel's own bin count and level array: in the launch of the
    histogram kernel the functor at index [c] is
    [sample_to_bin_range(levels[c] - 1, level_values[c])], its bin count is
    the one [init_histogram] gets for channel [c], and the slots after the
    last active channel repeat the functor of that channel. *)
Theorem range_functors_per_channel {SampleIterator CounterPtr LevelPtr : Type}
    (ceiling_div : Z → Z → Z) (sizeof_sample_type : Z)
    (Channels ActiveChannels : nat) (address : Z) (samples : SampleIterator)
    (columns rows row_stride_bytes : Z)
    (histogram : list CounterPtr) (levels : list Z)
    (level_values : list LevelPtr)
    (s : host (kernel_call SampleIterator CounterPtr (sample_to_bin_range LevelPtr))) :
  length levels = ActiveChannels →
  length level_values = ActiveChannels →
  (0 < ActiveChannels ≤ 4)%nat →
  Forall (λ l, 2 ≤ l) levels →
  row_stride_bytes `mod` sizeof_sample_type = 0 →
  (uint (sum_bins (channel_bins levels)) ≤ shared_impl_max_bins →
   uint (ceiling_div columns items_per_block) ≠ 0) →
  ∃ init second,
    histogram_range_impl ceiling_div sizeof_sample_type Channels ActiveChannels
      (Some address) samples columns rows row_stride_bytes histogram levels
      level_values s
    = returned () (Host (storage_size s) (launched s ++ [init; second]))
    ∧ (∀ c l values,
         levels !! c = Some l →
         level_values !! c = Some values →
         kernel_sample_to_bin_op (body second) !! c
         = Some (Sample_to_bin_range (uint (l - 1)) values)
         ∧ kernel_bins (body init) !! c = Some (uint (l - 1)))
    ∧ (∀ i, (ActiveChannels ≤ i < 4)%nat →
         kernel_sample_to_bin_op (body second) !! i
         = kernel_sample_to_bin_op (body second) !! (ActiveChannels - 1)%nat).
Proof.
  intros Hlevels Hvalues HA Hall Hstride Hblocks.
  destruct (make_sample_to_bin_range_exec levels level_values
              0 ActiveChannels [] s) as (ops & Hloop & Hlen & Hops).
  { intros c Hc. split; apply lookup_lt_is_Some_2; lia. }
  destruct (histogram_impl_captured ceiling_div sizeof_sample_type Channels
              ActiveChannels address samples columns rows row_stride_bytes
              histogram levels ops s)
    as (init & second & Hrun & Hbins & _ & Hactive & Hpadding); try done.
  exists init, second. split; [|split].
  - unfold histogram_range_impl. by erewrite hostM_bind_returned by exact Hloop.
  - intros c l values Hl Hvs.
    assert (c < ActiveChannels)%nat as Hc
      by (rewrite <- Hlevels; by eapply lookup_lt_Some).
    split.
    + rewrite Hactive by done. by apply Hops.
    + rewrite Hbins. unfold channel_bins. by rewrite list_lookup_fmap, Hl.
  - intros i Hi. rewrite Hpadding by done. symmetry. apply Hactive. lia.
Qed.

Lemma range_functors_per_channel_witness :
  ∃ init second,
    histogram_range_impl example_ceiling_div 4 4 3 (Some 64) (1000 : Z) 5000 3 20000
      [2000; 3000; 4000] [5; 9; 2000] [(500 : Z); 600; 700] example_host
    = returned () (Host 123 [init; second])
    ∧ (∀ c l values,
         [5; 9; 2000] !! c = Some l →
         [500; 600; 700] !! c = Some values →
         kernel_sample_to_bin_op (body second) !! c
         = Some (Sample_to_bin_range (uint (l - 1)) values)
         ∧ kernel_bins (body init) !! c = Some (uint (l - 1)))
    ∧ (∀ i, (3 ≤ i < 4)%nat →
         kernel_sample_to_bin_op (body second) !! i
         = kernel_sample_to_bin_op (body second) !! (3 - 1)%nat).
Proof.
  apply (range_functors_per_channel example_ceiling_div 4 4 3 64 1000 5000 3 20000
           [2000; 3000; 4000] [5; 9; 2000] [500; 600; 700]
           example_host eq_refl eq_refl);
    [lia | | reflexivity | intros _; vm_compute; lia].
  repeat (apply Forall_cons_2; [cbn; lia |]). apply Forall_nil_2.
Defined.

(** X17. The entry points that take a flat array of [size] samples pass a
    row stride of 0 and can therefore not throw the row-stride exception,
    whatever the sample type: [histogram_even] and [histogram_range] throw
    exactly when [levels] is below 2, with the message about levels and with
    the caller's state untouched, and with a null [temporary_storage] they
    otherwise set [storage_size] to 4 and launch nothing. *)
Theorem flat_entry_points {SampleIterator CounterPtr Level LevelPtr : Type}
    (ceiling_div : Z → Z → Z) (sizeof_sample_type : Z)
    (temporary_storage : option Z) (samples : SampleIterator) (size : Z)
    (histogram : CounterPtr) (levels : Z)
    (lower_level upper_level : Level) (level_values : LevelPtr)
    (s s' : host (kernel_call SampleIterator CounterPtr (sample_to_bin_even Level)))
    (r r' : host (kernel_call SampleIterator CounterPtr (sample_to_bin_range LevelPtr)))
    (what : string) :
  (histogram_even ceiling_div sizeof_sample_type temporary_storage samples size
     histogram levels lower_level upper_level s = threw what s'
   ↔ s' = s ∧ what = levels_message ∧ levels < 2)
  ∧ (histogram_range ceiling_div sizeof_sample_type temporary_storage samples size
       histogram levels level_values r = threw what r'
     ↔ r' = r ∧ what = levels_message ∧ levels < 2)
  ∧ histogram_even ceiling_div sizeof_sample_type None samples size
      histogram levels lower_level upper_level s
    = (if decide (levels < 2) then threw levels_message s
       else returned () (Host 4 (launched s)))
  ∧ histogram_range ceiling_div sizeof_sample_type None samples size
      histogram levels level_values r
    = (if decide (levels < 2) then threw levels_message r
       else returned () (Host 4 (launched r))).
Proof.
  assert (∀ Op ts (ops : list Op) h h' w,
            histogram_impl ceiling_div sizeof_sample_type 1 1 ts samples size 1 0
              [histogram] [levels] ops h = threw w h'
            ↔ h' = h ∧ w = levels_message ∧ levels < 2) as Hthrew.
  { intros Op ts ops h h' w. rewrite histogram_impl_threw by done.
    rewrite Exists_cons, Exists_nil, Forall_singleton, Zmod_0_l.
    intuition. }
  assert (∀ Op (ops : list Op) h,
            histogram_impl ceiling_div sizeof_sample_type 1 1 None samples size 1 0
              [histogram] [levels] ops h
            = (if decide (levels < 2) then threw levels_message h
               else returned () (Host 4 (launched h)))) as Hquery.
  { intros Op ops h. case_decide as Hlt.
    - apply Hthrew. done.
    - unfold histogram_impl.
      erewrite hostM_bind_returned
        by (apply (check_levels_all [levels]), Forall_singleton; lia).
      by rewrite decide_False by (rewrite Zmod_0_l; intros Hne; by apply Hne). }
  unfold histogram_even, histogram_range, histogram_even_impl, histogram_range_impl.
  split; [|split; [|split]].
  - erewrite hostM_bind_returned by reflexivity. apply Hthrew.
  - erewrite hostM_bind_returned by reflexivity. apply Hthrew.
  - erewrite hostM_bind_returned by reflexivity. apply Hquery.
  - erewrite hostM_bind_returned by reflexivity. apply Hquery.
Qed.

(** X18. The single-channel entry points for a two-dimensional region
    validate as [histogram_impl] does: they throw exactly when [levels] is
    below 2 (message about levels) or, with [levels] at least 2, when
    [row_stride_bytes] is not a whole multiple of the sample size (message
    about the row stride), and never after an effect.  The functor is built
    before the check, from a bin count that wraps around when [levels] is 0,
    and this does not change the outcome. *)
Theorem region_entry_points {SampleIterator CounterPtr Level LevelPtr : Type}
    (ceiling_div : Z → Z → Z) (sizeof_sample_type : Z)
    (temporary_storage : option Z) (samples : SampleIterator)
    (columns rows row_stride_bytes : Z)
    (histogram : CounterPtr) (levels : Z)
    (lower_level upper_level : Level) (level_values : LevelPtr)
    (s s' : host (kernel_call SampleIterator CounterPtr (sample_to_bin_even Level)))
    (r r' : host (kernel_call SampleIterator CounterPtr (sample_to_bin_range LevelPtr)))
    (what : string) :
  (histogram_even_2d ceiling_div sizeof_sample_type temporary_storage samples
     columns rows row_stride_bytes histogram levels lower_level upper_level s
   = threw what s'
   ↔ s' = s
     ∧ ((what = levels_message ∧ levels < 2)
        ∨ (what = row_stride_message ∧ 2 ≤ levels
           ∧ row_stride_bytes `mod` sizeof_sample_type ≠ 0)))
  ∧ (histogram_range_2d ceiling_div sizeof_sample_type temporary_storage samples
       columns rows row_stride_bytes histogram levels level_values r
     = threw what r'
     ↔ r' = r
       ∧ ((what = levels_message ∧ levels < 2)
          ∨ (what = row_stride_message ∧ 2 ≤ levels
             ∧ row_stride_bytes `mod` sizeof_sample_type ≠ 0))).
Proof.
  unfold histogram_even_2d, histogram_range_2d, histogram_even_impl,
    histogram_range_impl.
  split.
  - erewrite hostM_bind_returned by reflexivity.
    rewrite histogram_impl_threw by done.
    by rewrite Exists_cons, Exists_nil, Forall_singleton, (right_id False (∨)).
  - erewrite hostM_bind_returned by reflexivity.
    rewrite histogram_impl_threw by done.
    by rewrite Exists_cons, Exists_nil, Forall_singleton, (right_id False (∨)).
Qed.

(** X19. The multi-channel entry points validate in the same way, given
    arrays with one entry per active channel: a region call throws exactly
    when some channel has fewer than 2 levels or, failing that, when the row
    stride is not a whole multiple of the sample size; a flat call passes a
    row stride of 0 and throws exactly when some channel has fewer than 2
    levels.  Nothing is written or launched before a throw. *)
Theorem multi_entry_points {SampleIterator CounterPtr Level LevelPtr : Type}
    (ceiling_div : Z → Z → Z) (sizeof_sample_type : Z)
    (Channels ActiveChannels : nat)
    (temporary_storage : option Z) (samples : SampleIterator)
    (size columns rows row_stride_bytes : Z)
    (histogram : list CounterPtr) (levels : list Z)
    (lower_level upper_level : list Level) (level_values : list LevelPtr)
    (s s' : host (kernel_call SampleIterator CounterPtr (sample_to_bin_even Level)))
    (r r' : host (kernel_call SampleIterator CounterPtr (sample_to_bin_range LevelPtr)))
    (what : string) :
  length levels = ActiveChannels →
  length lower_level = ActiveChannels →
  length upper_level = ActiveChannels →
  length level_values = ActiveChannels →
  (multi_histogram_even_2d ceiling_div sizeof_sample_type Channels ActiveChannels
     temporary_storage samples columns rows row_stride_bytes histogram levels
     lower_level upper_level s
   = threw what s'
   ↔ s' = s
     ∧ ((what = levels_message ∧ Exists (λ l, l < 2) levels)
        ∨ (what = row_stride_message ∧ Forall (λ l, 2 ≤ l) levels
           ∧ row_stride_bytes `mod` sizeof_sample_type ≠ 0)))
  ∧ (multi_histogram_range_2d ceiling_div sizeof_sample_type Channels
       ActiveChannels temporary_storage samples columns rows row_stride_bytes
       histogram levels level_values r
     = threw what r'
     ↔ r' = r
       ∧ ((what = levels_message ∧ Exists (λ l, l < 2) levels)
          ∨ (what = row_stride_message ∧ Forall (λ l, 2 ≤ l) levels
             ∧ row_stride_bytes `mod` sizeof_sample_type ≠ 0)))
  ∧ (multi_histogram_even ceiling_div sizeof_sample_type Channels ActiveChannels
       temporary_storage samples size histogram levels lower_level upper_level s
     = threw what s'
     ↔ s' = s ∧ what = levels_message ∧ Exists (λ l, l < 2) levels)
  ∧ (multi_histogram_range ceiling_div sizeof_sample_type Channels ActiveChannels
       temporary_storage samples size histogram levels level_values r
     = threw what r'
     ↔ r' = r ∧ what = levels_message ∧ Exists (λ l, l < 2) levels).
Proof.
  intros Hlevels Hlower Hupper Hvalues.
  destruct (make_sample_to_bin_even_exec levels lower_level upper_level
              0 ActiveChannels [] s) as (evens & Heven & _ & _).
  { intros c Hc. repeat split; apply lookup_lt_is_Some_2; lia. }
  destruct (make_sample_to_bin_range_exec levels level_values
              0 ActiveChannels [] r) as (ranges & Hrange & _ & _).
  { intros c Hc. split; apply lookup_lt_is_Some_2; lia. }
  unfold multi_histogram_even_2d, multi_histogram_range_2d, multi_histogram_even,
    multi_histogram_range, histogram_even_impl, histogram_range_impl.
  split; [|split; [|split]].
  - erewrite hostM_bind_returned by exact Heven.
    by rewrite histogram_impl_threw.
  - erewrite hostM_bind_returned by exact Hrange.
    by rewrite histogram_impl_threw.
  - erewrite hostM_bind_returned by exact Heven.
    rewrite histogram_impl_threw by done. rewrite Zmod_0_l. intuition.
  - erewrite hostM_bind_returned by exact Hrange.
    rewrite histogram_impl_threw by done. rewrite Zmod_0_l. intuition.
Qed.

Lemma multi_entry_points_witness :
  multi_histogram_even example_ceiling_div 4 4 3 (Some 64) (1000 : Z) 5000
    [2000; 3000; 4000] [5; 0; 17] [(0 : Z); 10; 20] [100; 110; 120] example_host
  = threw levels_message example_host.
Proof.
  apply (proj2 (proj2 (multi_entry_points example_ceiling_div 4 4 3 (Some 64)
                         (1000 : Z) 5000 5000 1 0 [2000; 3000; 4000] [5; 0; 17]
                         [(0 : Z); 10; 20] [100; 110; 120] [(500 : Z); 600; 700]
                         example_host example_host example_host example_host
                         levels_message eq_refl eq_refl eq_refl eq_refl))).
  split; [done |]. split; [done |].
  apply Exists_cons_tl, Exists_cons_hd. lia.
Defined.
